(** * Territory War: the per-frame simulation core of [src/app/page.tsx]

    A shallow embedding of the simulation part of [gameLoop] and of the
    functions it calls ([createInitialTiles], [createInitialBalls],
    [spawnPowerUp], [countTiles]), of [getRandomPalette] and of the effect
    that creates the balls.  Of the canvas drawing, which only reads the
    state, the computed geometry and colour choices are modelled: the tile
    rectangles, the rainbow colour indices and the score bar.

    Numbers.  JavaScript numbers that hold coordinates, velocities and radii
    are idealised as real numbers ([R]): no rounding, no NaN, no overflow.
    Counters (effect timers, frame counter, tile counts) only ever hold
    integers and are modelled in [Z]; identifiers are [nat].

    Shared objects.  Balls are JavaScript objects that are mutated in place
    and referenced from two arrays at once ([ballsRef.current] and
    [newBalls]).  The frame works on a store [objs] holding the objects of
    [ballsRef.current] by index, and [newBalls] holds references into it.

    Exceptions.  Reading a grid cell that does not exist raises a TypeError
    in the source; such reads return [None] here and the frame propagates
    it.  The theorems show that this never happens on a 12 x 20 grid.

    Left out.  The canvas calls themselves; the early returns of
    [gameLoop] when there is no canvas (no frame happens then); the React
    state [tiles], which mirrors [tilesRef.current]. *)

From Stdlib Require Import Reals Lra ZArith String.
From stdpp Require Import base tactics option list numbers.

Local Open Scope Z_scope.

(** ** Constants *)

Definition COLS : Z := 20.
Definition ROWS : Z := 12.
Definition TRAIL_LENGTH : nat := 12.
Definition BASE_SPEED : R := 4.
Definition POWERUP_DURATION : Z := 180.
Definition POWERUP_SPAWN_INTERVAL : Z := 300.
Definition HIGHSCORE_DELAY : Z := 600.

(** ** Data model *)

Inductive Team : Type := Left | Right.

(** The string a [Team] value is at run time. *)
Definition team_name (t : Team) : string :=
  match t with Left => "left" | Right => "right" end.

(** [t === "lit"] against a string literal. *)
Definition team_is (t : Team) (lit : string) : bool := String.eqb (team_name t) lit.

(** [a === b] on two teams. *)
Definition team_eqb (a b : Team) : bool := String.eqb (team_name a) (team_name b).

Inductive PowerUpType : Type := Split | Giant | Speed | Freeze | Magnet.

Record Ball : Type := mkBall {
  ball_id : nat;
  x : R;
  y : R;
  vx : R;
  vy : R;
  team : Team;
  radius : R;
  baseRadius : R;
  trail : list (R * R);
  frozen : Z;
  giant : Z;
  speed : Z;
  isClone : bool;
  cloneExpires : Z
}.

(** [pu_type] is [None] when [types[...]] was indexed out of range
    ([undefined] in the source); [Math.random]'s contract excludes it. *)
Record PowerUp : Type := mkPowerUp {
  pu_id : nat;
  pu_x : R;
  pu_y : R;
  pu_type : option PowerUpType;
  spawnTime : R
}.

Record Tile : Type := mkTile { tile_team : Team }.

Abbreviation Grid := (list (list Tile)).

(** Field assignments [ball.f = v]. *)
Definition set_x (v : R) (b : Ball) : Ball :=
  mkBall (ball_id b) v (y b) (vx b) (vy b) (team b) (radius b) (baseRadius b)
         (trail b) (frozen b) (giant b) (speed b) (isClone b) (cloneExpires b).
Definition set_y (v : R) (b : Ball) : Ball :=
  mkBall (ball_id b) (x b) v (vx b) (vy b) (team b) (radius b) (baseRadius b)
         (trail b) (frozen b) (giant b) (speed b) (isClone b) (cloneExpires b).
Definition set_vx (v : R) (b : Ball) : Ball :=
  mkBall (ball_id b) (x b) (y b) v (vy b) (team b) (radius b) (baseRadius b)
         (trail b) (frozen b) (giant b) (speed b) (isClone b) (cloneExpires b).
Definition set_vy (v : R) (b : Ball) : Ball :=
  mkBall (ball_id b) (x b) (y b) (vx b) v (team b) (radius b) (baseRadius b)
         (trail b) (frozen b) (giant b) (speed b) (isClone b) (cloneExpires b).
Definition set_radius (v : R) (b : Ball) : Ball :=
  mkBall (ball_id b) (x b) (y b) (vx b) (vy b) (team b) v (baseRadius b)
         (trail b) (frozen b) (giant b) (speed b) (isClone b) (cloneExpires b).
Definition set_trail (v : list (R * R)) (b : Ball) : Ball :=
  mkBall (ball_id b) (x b) (y b) (vx b) (vy b) (team b) (radius b) (baseRadius b)
         v (frozen b) (giant b) (speed b) (isClone b) (cloneExpires b).
Definition set_frozen (v : Z) (b : Ball) : Ball :=
  mkBall (ball_id b) (x b) (y b) (vx b) (vy b) (team b) (radius b) (baseRadius b)
         (trail b) v (giant b) (speed b) (isClone b) (cloneExpires b).
Definition set_giant (v : Z) (b : Ball) : Ball :=
  mkBall (ball_id b) (x b) (y b) (vx b) (vy b) (team b) (radius b) (baseRadius b)
         (trail b) (frozen b) v (speed b) (isClone b) (cloneExpires b).
Definition set_speed (v : Z) (b : Ball) : Ball :=
  mkBall (ball_id b) (x b) (y b) (vx b) (vy b) (team b) (radius b) (baseRadius b)
         (trail b) (frozen b) (giant b) v (isClone b) (cloneExpires b).
Definition set_cloneExpires (v : Z) (b : Ball) : Ball :=
  mkBall (ball_id b) (x b) (y b) (vx b) (vy b) (team b) (radius b) (baseRadius b)
         (trail b) (frozen b) (giant b) (speed b) (isClone b) v.

(** ** Real-number helpers *)

#[global] Instance Rlt_decision : RelDecision Rlt := Rlt_dec.
#[global] Instance Req_decision : EqDecision R := Req_dec_T.

(** [Math.floor]. *)
Definition Math_floor (r : R) : Z := Int_part r.

(** [Math.floor(v / pitch)] as used for grid indices.  Division by zero
    gives an infinity or NaN in the source, for which every comparison of the
    bounds check is false: that outcome is [None]. *)
Definition cellIndex (v pitch : R) : option Z :=
  if decide (pitch = 0%R) then None else Some (Math_floor (v / pitch)).

(** ** The grid *)

(** [createInitialTiles]; [COLS / 2] is exact since [COLS] is even. *)
Definition createInitialTiles : Grid :=
  (fun row => (fun col => mkTile (if col <? COLS / 2 then Left else Right))
              <$> seqZ 0 COLS) <$> seqZ 0 ROWS.

(** [g[r][c]]; [None] where the source would fault. *)
Definition getTile (g : Grid) (r c : Z) : option Tile :=
  row ← g !! Z.to_nat r; row !! Z.to_nat c.

(** [g[r][c] = t], reached only after [g[r][c]] was read. *)
Definition setTile (g : Grid) (r c : Z) (t : Tile) : Grid :=
  alter (fun row => <[Z.to_nat c := t]> row) (Z.to_nat r) g.

Definition inGrid (r c : Z) : bool :=
  (0 <=? r) && (r <? ROWS) && (0 <=? c) && (c <? COLS).

(** A [for] loop whose body may fault. *)
Fixpoint forM {S A : Type} (body : S -> A -> option S) (s : S) (l : list A) : option S :=
  match l with
  | [] => Some s
  | a :: l' => s' ← body s a; forM body s' l'
  end.

(** [countTiles], returning [(left, right)]. *)
Definition countCell (g : Grid) (row : Z) (acc : Z * Z) (col : Z) : option (Z * Z) :=
  t ← getTile g row col;
  Some (if team_is (tile_team t) "left" then (fst acc + 1, snd acc)
        else (fst acc, snd acc + 1)).

Definition countTiles (g : Grid) : option (Z * Z) :=
  forM (fun acc row => forM (countCell g row) acc (seqZ 0 COLS)) (0, 0) (seqZ 0 ROWS).

(** ** Inputs of one frame

    What a frame reads from outside the simulation: the viewport, the speed
    slider, the values [Math.random()] returns in call order, and
    [Date.now()]. *)
Record Env : Type := mkEnv {
  width : R;
  height : R;
  speedMultiplier : R;
  random : nat -> R;
  now : R
}.

Definition tileWidth (env : Env) : R := (width env / IZR COLS)%R.
Definition tileHeight (env : Env) : R := (height env / IZR ROWS)%R.

(** ** State that lives across frames (the refs and module counters) *)
Record Game : Type := mkGame {
  balls : list Ball;              (* ballsRef.current *)
  powerUps : list PowerUp;        (* powerUpsRef.current *)
  tiles : Grid;                   (* tilesRef.current *)
  frameCount : Z;                 (* frameCountRef.current *)
  highScores : Z * Z;             (* highScoresRef.current: (left, right) *)
  ballIdCounter : nat;
  powerUpIdCounter : nat
}.

(** What happened in a frame, in order.  The log is an observation of the
    branches taken; nothing in the simulation reads it. *)
Inductive Event : Type :=
| EvSpawn (p : PowerUp)
| EvPickup (picker : nat) (t : Team) (p : PowerUp)
| EvConvert (picker : nat) (r c : Z)
| EvRedirect (picker : nat).

(** An entry of [newBalls]: an object of [ballsRef.current] (by index) or a
    clone created in this frame. *)
Inductive Ref : Type :=
| Old (i : nat)
| Fresh (b : Ball).

(** ** State of the ball loop within one frame *)
Record Loop : Type := mkLoop {
  objs : list Ball;               (* the objects of ballsRef.current *)
  newBalls : list Ref;
  registry : list PowerUp;        (* powerUpsRef.current *)
  newTiles : Grid;
  hasChanges : bool;
  nextBallId : nat;               (* ballIdCounter *)
  randomCalls : nat;              (* Math.random() calls made so far *)
  trace : list Event
}.

Definition set_objs (v : list Ball) (L : Loop) : Loop :=
  mkLoop v (newBalls L) (registry L) (newTiles L) (hasChanges L)
         (nextBallId L) (randomCalls L) (trace L).
Definition push_newBalls (r : Ref) (L : Loop) : Loop :=
  mkLoop (objs L) (newBalls L ++ [r]) (registry L) (newTiles L) (hasChanges L)
         (nextBallId L) (randomCalls L) (trace L).
Definition set_registry (v : list PowerUp) (L : Loop) : Loop :=
  mkLoop (objs L) (newBalls L) v (newTiles L) (hasChanges L)
         (nextBallId L) (randomCalls L) (trace L).
Definition write_newTiles (r c : Z) (t : Tile) (L : Loop) : Loop :=
  mkLoop (objs L) (newBalls L) (registry L) (setTile (newTiles L) r c t) true
         (nextBallId L) (randomCalls L) (trace L).
Definition bump_nextBallId (L : Loop) : Loop :=
  mkLoop (objs L) (newBalls L) (registry L) (newTiles L) (hasChanges L)
         (S (nextBallId L)) (randomCalls L) (trace L).
Definition bump_randomCalls (L : Loop) : Loop :=
  mkLoop (objs L) (newBalls L) (registry L) (newTiles L) (hasChanges L)
         (nextBallId L) (S (randomCalls L)) (trace L).
Definition log (e : Event) (L : Loop) : Loop :=
  mkLoop (objs L) (newBalls L) (registry L) (newTiles L) (hasChanges L)
         (nextBallId L) (randomCalls L) (trace L ++ [e]).

(** ** Start-up *)

(** [createInitialBalls]; [idc] is [ballIdCounter] and [rnd] the two
    [Math.random()] results. *)
Definition createInitialBalls (tw th : R) (idc : nat) (rnd : nat -> R) : list Ball :=
  let baseRadius := (Rmin tw th * 0.4)%R in
  [ mkBall idc (IZR COLS * 0.25 * tw)%R (IZR ROWS / 2 * th)%R
           BASE_SPEED ((rnd 0%nat - 0.5) * 2)%R Left baseRadius baseRadius
           [] 0 0 0 false 0;
    mkBall (S idc) (IZR COLS * 0.75 * tw)%R (IZR ROWS / 2 * th)%R
           (- BASE_SPEED)%R ((rnd 1%nat - 0.5) * 2)%R Right baseRadius baseRadius
           [] 0 0 0 false 0 ].

(** The refs as they are initialised, for any ball list. *)
Definition initialGame (bs : list Ball) (idc : nat) : Game :=
  mkGame bs [] createInitialTiles 0 (COLS * ROWS / 2, COLS * ROWS / 2) idc 0.

(** The state after mounting in a viewport of positive size. *)
Definition mountGame (w h : R) (rnd : nat -> R) : Game :=
  initialGame (createInitialBalls (w / IZR COLS) (h / IZR ROWS) 0 rnd) 2.

(** ** Power-up spawning *)

Definition types : list PowerUpType := [Split; Giant; Speed; Freeze; Magnet].

(** [types[Math.floor(r * types.length)]]. *)
Definition pickType (r : R) : option PowerUpType :=
  let i := Math_floor (r * INR (length types)) in
  if i <? 0 then None else types !! Z.to_nat i.

(** [spawnPowerUp]; the object literal evaluates x, y, type in that order.
    [calls] is the number of [Math.random()] calls already made. *)
Definition spawnPowerUp (env : Env) (idc : nat) (calls : nat) : PowerUp :=
  mkPowerUp idc
            (random env calls * (width env - 60) + 30)%R
            (random env (S calls) * (height env - 60) + 30)%R
            (pickType (random env (S (S calls))))
            (now env).

Definition spawnDue (fc : Z) (active : list PowerUp) : bool :=
  (Z.rem fc POWERUP_SPAWN_INTERVAL =? 0) && (length active <? 3)%nat.

(** ** Steps of the per-ball processing *)

(** Timer decrements (frozen, giant with its radius, speed). *)
Definition decayTimers (b : Ball) : Ball :=
  let b1 := if 0 <? frozen b then set_frozen (frozen b - 1) b else b in
  let b2 := if 0 <? giant b1 then
              let b' := set_giant (giant b1 - 1) b1 in
              set_radius (if 0 <? giant b' then baseRadius b' * 2.5
                          else baseRadius b')%R b'
            else b1 in
  if 0 <? speed b2 then set_speed (speed b2 - 1) b2 else b2.

(** [trail.push]; [trail.shift] when longer than [TRAIL_LENGTH]. *)
Definition updateTrail (b : Ball) : Ball :=
  let t := trail b ++ [(x b, y b)] in
  set_trail (if (TRAIL_LENGTH <? length t)%nat then tail t else t) b.

(** Position integration.  [magnetPullX] and [magnetPullY] are never
    assigned after their initialisation to 0; the code between them
    ([enemyTeam], the empty loop, [hasMagnet]) has no effect. *)
Definition move (env : Env) (b : Ball) : Ball :=
  let speedMult := ((if 0 <? speed b then 2.5 else 1) * speedMultiplier env)%R in
  let magnetPullX := 0%R in
  let magnetPullY := 0%R in
  let b1 := set_x (x b + (vx b + magnetPullX) * speedMult)%R b in
  set_y (y b1 + (vy b1 + magnetPullY) * speedMult)%R b1.

(** Boundary collision: four independent tests, in source order. *)
Definition boundary (env : Env) (b : Ball) : Ball :=
  let b1 := if decide (x b - radius b < 0)%R
            then set_vx (Rabs (vx b)) (set_x (radius b) b) else b in
  let b2 := if decide (width env < x b1 + radius b1)%R
            then set_vx (- Rabs (vx b1))%R (set_x (width env - radius b1)%R b1) else b1 in
  let b3 := if decide (y b2 - radius b2 < 0)%R
            then set_vy (Rabs (vy b2)) (set_y (radius b2) b2) else b2 in
  if decide (height env < y b3 + radius b3)%R
  then set_vy (- Rabs (vy b3))%R (set_y (height env - radius b3)%R b3) else b3.

(** The clone built by a "split" pickup. *)
Definition makeClone (idc : nat) (b : Ball) : Ball :=
  mkBall idc (x b) (y b) (- vy b)%R (vx b) (team b)
         (baseRadius b * 0.7)%R (baseRadius b * 0.7)%R
         [] 0 0 0 true (POWERUP_DURATION * 2).

(** The "freeze" loop over [ballsRef.current]. *)
Definition freezeEnemies (b : Ball) (others : list Ball) : list Ball :=
  (fun other => if negb (team_eqb (team other) (team b))
                then set_frozen POWERUP_DURATION other else other) <$> others.

(** [targetX] of the "magnet" case. *)
Definition magnetTargetX (env : Env) (b : Ball) : R :=
  if team_is (team b) "white" then (width env * 0.75)%R else (width env * 0.25)%R.

Definition magnetEffect (env : Env) (b : Ball) : Ball :=
  let targetX := magnetTargetX env b in
  let dx := (targetX - x b)%R in
  let dy := (height env / 2 - y b)%R in
  let dist := sqrt (dx * dx + dy * dy) in
  if decide (0 < dist)%R
  then set_vy (dy / dist * BASE_SPEED * 0.5)%R
              (set_vx (dx / dist * BASE_SPEED * 1.5)%R b)
  else b.

(** The [switch] on the power-up type.  The ball being processed is the
    local [b]; it is written back to [objs] when its processing ends.  The
    freeze loop never writes to it, because [other.team !== ball.team] is
    false for the ball itself. *)
Definition applyPowerUp (env : Env) (p : PowerUp) (b : Ball) (L : Loop) : Ball * Loop :=
  match pu_type p with
  | Some Split =>
      (b, bump_nextBallId (push_newBalls (Fresh (makeClone (nextBallId L) b)) L))
  | Some Giant =>
      (set_radius (baseRadius b * 2.5)%R (set_giant POWERUP_DURATION b), L)
  | Some Speed => (set_speed POWERUP_DURATION b, L)
  | Some Freeze => (b, set_objs (freezeEnemies b (objs L)) L)
  | Some Magnet => (magnetEffect env b, L)
  | None => (b, L)
  end.

Definition dist (b : Ball) (p : PowerUp) : R :=
  let dx := (x b - pu_x p)%R in
  let dy := (y b - pu_y p)%R in
  sqrt (dx * dx + dy * dy).

Definition touches (b : Ball) (p : PowerUp) : bool :=
  bool_decide (dist b p < radius b + 14)%R.

(** One iteration of the power-up collision loop; the third component is
    [powerUpsToRemove]. *)
Definition pickupStep (env : Env) (st : Ball * Loop * list nat) (p : PowerUp)
  : Ball * Loop * list nat :=
  let '(b, L, toRemove) := st in
  if touches b p then
    let '(b', L') := applyPowerUp env p b (log (EvPickup (ball_id b) (team b) p) L) in
    (b', L', toRemove ++ [pu_id p])
  else st.

(** The collision loop followed by the [filter] on the registry. *)
Definition pickup (env : Env) (b : Ball) (L : Loop) : Ball * Loop * list nat :=
  let '(b', L', toRemove) := foldl (pickupStep env) (b, L, []) (registry L) in
  (b', set_registry (filter (fun p => pu_id p ∉ toRemove) (registry L')) L', toRemove).

(** One cell of the conversion loops. *)
Definition convertCell (b : Ball) (r c : Z) (L : Loop) : option Loop :=
  if inGrid r c then
    currentTile ← getTile (newTiles L) r c;
    if negb (team_eqb (tile_team currentTile) (team b))
    then Some (log (EvConvert (ball_id b) r c) (write_newTiles r c (mkTile (team b)) L))
    else Some L
  else Some L.

(** [dr] and [dc] range over [-convertRadius + 1 .. convertRadius - 1]. *)
Definition offsets (convertRadius : Z) : list Z :=
  seqZ (- convertRadius + 1) (2 * convertRadius - 1).

Definition convertTiles (b : Ball) (row col : Z) (L : Loop) : option Loop :=
  let convertRadius := if 0 <? giant b then 2 else 1 in
  forM (fun L1 dr =>
          forM (fun L2 dc => convertCell b (row + dr) (col + dc) L2)
               L1 (offsets convertRadius))
       L (offsets convertRadius).

(** Random direction change; [tilesRef] is [tilesRef.current], which is
    only replaced after the ball loop. *)
Definition redirect (env : Env) (tilesRef : Grid) (b : Ball) (row col : Z) (L : Loop)
  : option (Ball * Loop) :=
  if inGrid row col then
    t ← getTile tilesRef row col;
    if negb (team_eqb (tile_team t) (team b)) then
      let angle := (random env (randomCalls L) * PI * 2)%R in
      let currentSpeed := sqrt (vx b * vx b + vy b * vy b) in
      let b1 := set_vx (cos angle * currentSpeed)%R b in
      Some (set_vy (sin angle * currentSpeed)%R b1,
            log (EvRedirect (ball_id b)) (bump_randomCalls L))
    else Some (b, L)
  else Some (b, L).

(** Tile conversion and redirection.  A row or column that is not a
    finite number fails every bounds check. *)
Definition tilePhase (env : Env) (tilesRef : Grid) (b : Ball) (L : Loop)
  : option (Ball * Loop) :=
  match cellIndex (y b) (tileHeight env), cellIndex (x b) (tileWidth env) with
  | Some row, Some col =>
      L1 ← convertTiles b row col L;
      redirect env tilesRef b row col L1
  | _, _ => Some (b, L)
  end.

(** The body of [for (const ball of ballsRef.current)] for the ball at
    index [i].  The loop only visits indices of the array, so the first
    line never yields [None] there.  [continue] is the early [Some]. *)
Definition processBall (env : Env) (tilesRef : Grid) (L : Loop) (i : nat) : option Loop :=
  b0 ← objs L !! i;
  let expiring := isClone b0 && (0 <? cloneExpires b0) in
  let b1 := if expiring then set_cloneExpires (cloneExpires b0 - 1) b0 else b0 in
  if expiring && (cloneExpires b1 <=? 0) then
    Some (set_objs (<[i := b1]> (objs L)) L)
  else
    let b2 := updateTrail (decayTimers b1) in
    if 0 <? frozen b2 then
      Some (push_newBalls (Old i) (set_objs (<[i := b2]> (objs L)) L))
    else
      let b3 := boundary env (move env b2) in
      let '(b4, L1, _) := pickup env b3 L in
      '(b5, L2) ← tilePhase env tilesRef b4 L1;
      Some (push_newBalls (Old i) (set_objs (<[i := b5]> (objs L2)) L2)).

(** Reading an entry of [newBalls] once the loop is over. *)
Definition deref (store : list Ball) (r : Ref) : option Ball :=
  match r with
  | Old i => store !! i
  | Fresh b => Some b
  end.

(** High-score update, on [(left, right)] pairs. *)
Definition updateHighScores (fc : Z) (counts high : Z * Z) : Z * Z :=
  if HIGHSCORE_DELAY <? fc then
    (if fst high <? fst counts then fst counts else fst high,
     if snd high <? snd counts then snd counts else snd high)
  else high.

(** ** One frame

    [frameCountRef.current++], the spawn, the ball loop,
    [ballsRef.current = newBalls], the publication of [newTiles] when
    [hasChanges], [countTiles] and the high-score update, in source order.
    The second component is the log of the frame. *)
Definition gameLoop (env : Env) (g : Game) : option (Game * list Event) :=
  let fc := frameCount g + 1 in
  let spawn := spawnDue fc (powerUps g) in
  let p := spawnPowerUp env (powerUpIdCounter g) 0 in
  let L0 := mkLoop (balls g) []
                   (if spawn then powerUps g ++ [p] else powerUps g)
                   (tiles g) false (ballIdCounter g)
                   (if spawn then 3%nat else 0%nat)
                   (if spawn then [EvSpawn p] else []) in
  L ← forM (processBall env (tiles g)) L0 (seq 0 (length (balls g)));
  bs ← mapM (deref (objs L)) (newBalls L);
  let tiles' := if hasChanges L then newTiles L else tiles g in
  counts ← countTiles tiles';
  Some (mkGame bs (registry L) tiles' fc
               (updateHighScores fc counts (highScores g))
               (nextBallId L)
               (if spawn then S (powerUpIdCounter g) else powerUpIdCounter g),
        trace L).

(** Frames in sequence, one [Env] per frame, with the concatenated log. *)
Fixpoint run (envs : list Env) (g : Game) : option (Game * list Event) :=
  match envs with
  | [] => Some (g, [])
  | env :: envs' =>
      '(g1, tr1) ← gameLoop env g;
      '(g2, tr2) ← run envs' g1;
      Some (g2, tr1 ++ tr2)
  end.

(** ** Colours *)

Record TeamColors : Type := mkTeamColors {
  tc_tile : string;
  tc_ball : string;
  tc_trailRgb : string
}.

Record Palette : Type := mkPalette {
  pal_left : TeamColors;
  pal_right : TeamColors
}.

Definition COLOR_PALETTES : list Palette :=
  [ mkPalette (mkTeamColors "#e8e8e8" "#ffffff" "255, 255, 255")
              (mkTeamColors "#1a3d2e" "#3d8b6a" "61, 139, 106");
    mkPalette (mkTeamColors "#4a1f1f" "#e87070" "232, 112, 112")
              (mkTeamColors "#1a3d3d" "#4ecdc4" "78, 205, 196");
    mkPalette (mkTeamColors "#2d1f4a" "#9b7beb" "155, 123, 235")
              (mkTeamColors "#3d3520" "#f0c850" "240, 200, 80");
    mkPalette (mkTeamColors "#1a2d4a" "#5b9bd5" "91, 155, 213")
              (mkTeamColors "#4a2d1a" "#e8914f" "232, 145, 79");
    mkPalette (mkTeamColors "#3d1f35" "#e880b0" "232, 128, 176")
              (mkTeamColors "#1f3d2d" "#70e8a0" "112, 232, 160");
    mkPalette (mkTeamColors "#4a1a1a" "#dc3545" "220, 53, 69")
              (mkTeamColors "#2a2d35" "#8895a7" "136, 149, 167") ].

(** [getRandomPalette]; [r] is the result of [Math.random()].  [None] is
    [undefined], an index out of range. *)
Definition getRandomPalette (r : R) : option Palette :=
  let i := Math_floor (r * INR (length COLOR_PALETTES)) in
  if i <? 0 then None else COLOR_PALETTES !! Z.to_nat i.

(** [colors[team]]. *)
Definition teamColors (p : Palette) (t : Team) : TeamColors :=
  match t with Left => pal_left p | Right => pal_right p end.

Definition POWERUP_COLORS (t : PowerUpType) : string :=
  match t with
  | Split => "#f59e0b"
  | Giant => "#ec4899"
  | Speed => "#3b82f6"
  | Freeze => "#06b6d4"
  | Magnet => "#8b5cf6"
  end.

(** ** The effect that creates the balls

    It runs when the component mounts and again whenever the tile size
    changes; [w] and [h] are [dimensions.width] and [dimensions.height]. *)
Definition mountEffect (w h : R) (rnd : nat -> R) (g : Game) : Game :=
  let tw := (w / IZR COLS)%R in
  let th := (h / IZR ROWS)%R in
  if bool_decide (0 < tw)%R && bool_decide (0 < th)%R && (length (balls g) =? 0)%nat
  then mkGame (createInitialBalls tw th (ballIdCounter g) rnd) (powerUps g) (tiles g)
              (frameCount g) (highScores g) (S (S (ballIdCounter g))) (powerUpIdCounter g)
  else g.

(** ** What the frame draws *)

(** [Math.ceil]. *)
Definition Math_ceil (r : R) : Z := - Int_part (- r).

(** The rectangle [fillRect] paints for the tile at [(row, col)]: left, top,
    width, height. *)
Definition tileRect (env : Env) (row col : Z) : Z * Z * Z * Z :=
  let x := (IZR col * tileWidth env)%R in
  let y := (IZR row * tileHeight env)%R in
  (Math_floor x, Math_floor y, Math_ceil (tileWidth env) + 1, Math_ceil (tileHeight env) + 1).

(** [isAtHighScore] for a ball of team [t]: [fc] is the frame counter,
    [preCounts] the result of [countTiles()] before the grid of the frame is
    published, [high] the high scores before the frame updates them. *)
Definition isAtHighScore (fc : Z) (preCounts high : Z * Z) (t : Team) : bool :=
  (HIGHSCORE_DELAY <? fc) &&
  (if team_is t "left" then fst high <=? fst preCounts else snd high <=? snd preCounts).

Definition rainbowColors : list string :=
  ["#ff0000"; "#ff7f00"; "#ffff00"; "#00ff00"; "#0000ff"; "#4b0082"; "#9400d3"]%string.

(** [Math.floor(frameCountRef.current / step)]. *)
Definition framePhase (fc step : Z) : Z := Math_floor (IZR fc / IZR step).

(** The colour indices of the rainbow effect. *)
Definition trailColorIndex (fc : Z) (i : nat) : Z :=
  Z.rem (framePhase fc 3 + Z.of_nat i) (Z.of_nat (length rainbowColors)).
Definition glowColorIndex (fc : Z) : Z :=
  Z.rem (framePhase fc 4) (Z.of_nat (length rainbowColors)).
Definition innerGlowColorIndex (fc : Z) : Z :=
  Z.rem (glowColorIndex fc + 2) (Z.of_nat (length rainbowColors)).
Definition ballColorIndex (fc : Z) : Z :=
  Z.rem (framePhase fc 5) (Z.of_nat (length rainbowColors)).

(** [rainbowColors[i]]. *)
Definition rainbowColor (i : Z) : option string :=
  if i <? 0 then None else rainbowColors !! Z.to_nat i.

(** The score bar: geometry of the bar and of the two high score marks. *)
Record ScoreBar : Type := mkScoreBar {
  barX : R;
  barY : R;
  barWidth : R;
  barHeight : R;
  leftWidth : R;                  (* width of the left team's part *)
  leftHighX : R;
  rightHighX : R
}.

Definition scoreBar (env : Env) (counts high : Z * Z) : ScoreBar :=
  let total := COLS * ROWS in
  let barWidth := 160%R in
  let barHeight := 6%R in
  let barX := (width env / 2 - barWidth / 2)%R in
  let barY := 20%R in
  let leftHighX := (barX + IZR (fst high) / IZR total * barWidth)%R in
  let rightHighX := (barX + IZR (total - snd high) / IZR total * barWidth)%R in
  mkScoreBar barX barY barWidth barHeight
             (IZR (fst counts) / IZR total * barWidth)%R leftHighX rightHighX.

(** * Properties *)

#[global] Instance Team_eq_dec : EqDecision Team.
Proof. solve_decision. Defined.

#[global] Instance PowerUpType_eq_dec : EqDecision PowerUpType.
Proof. solve_decision. Defined.

Lemma team_eqb_eq (a b : Team) : team_eqb a b = true <-> a = b.
Proof. destruct a, b; compute; split; congruence. Qed.

Lemma team_eqb_refl (a : Team) : team_eqb a a = true.
Proof. by apply team_eqb_eq. Qed.

Lemma team_eqb_neq (a b : Team) : team_eqb a b = false <-> a <> b.
Proof. destruct a, b; compute; split; congruence. Qed.

(** ** Loops that may fault *)

Lemma forM_app {S A : Type} (body : S -> A -> option S) (s : S) (l1 l2 : list A) :
  forM body s (l1 ++ l2) = (s' ← forM body s l1; forM body s' l2).
Proof.
  revert s. induction l1 as [|a l1 IH]; intros s; simpl; [done|].
  destruct (body s a) as [s1|]; simpl; [apply IH | done].
Qed.

Lemma forM_cons_Some {S A : Type} (body : S -> A -> option S) (s s1 : S) (a : A) (l : list A) :
  body s a = Some s1 -> forM body s (a :: l) = forM body s1 l.
Proof. intros H. simpl. by rewrite H. Qed.

(** An invariant that every iteration re-establishes holds at the end, and
    the loop does not fault. *)
Lemma forM_invariant {S A : Type} (body : S -> A -> option S) (Inv : list A -> S -> Prop)
    (l : list A) (s : S) :
  Inv [] s ->
  (forall done a s1, done ++ [a] `prefix_of` l -> Inv done s1 ->
     exists s2, body s1 a = Some s2 /\ Inv (done ++ [a]) s2) ->
  exists s', forM body s l = Some s' /\ Inv l s'.
Proof.
  intros H0 Hstep.
  assert (forall rest done s1, done ++ rest = l -> Inv done s1 ->
            exists s', forM body s1 rest = Some s' /\ Inv l s') as Hgen.
  { induction rest as [|a rest IH]; intros done s1 Heq Hinv.
    - rewrite app_nil_r in Heq. subst. by exists s1.
    - destruct (Hstep done a s1) as (s2 & Hb & Hi).
      + exists rest. by rewrite <- app_assoc.
      + done.
      + simpl. rewrite Hb. simpl. apply (IH (done ++ [a])); [|done].
        by rewrite <- app_assoc. }
  by apply (Hgen l []).
Qed.

(** ** The grid keeps its shape *)

Definition gridShape (g : Grid) : Prop :=
  length g = Z.to_nat ROWS /\ Forall (fun row => length row = Z.to_nat COLS) g.

(** Number of cells a team owns. *)
Definition ownedBy (t : Team) (g : Grid) : Z :=
  Z.of_nat (length (filter (fun c => tile_team c = t) (concat g))).

Lemma createInitialTiles_shape : gridShape createInitialTiles.
Proof. split; [reflexivity|]. vm_compute. repeat constructor. Qed.

Lemma getTile_is_Some (g : Grid) (r c : Z) :
  gridShape g -> inGrid r c = true -> is_Some (getTile g r c).
Proof.
  intros [Hlen Hrows] Hin. unfold inGrid, ROWS, COLS in *.
  unfold ROWS in Hlen. unfold COLS in Hrows. unfold getTile.
  destruct (lookup_lt_is_Some_2 g (Z.to_nat r)) as [row Hrow]; [lia|].
  rewrite Hrow. simpl. apply lookup_lt_is_Some_2.
  rewrite Forall_forall in Hrows. rewrite (Hrows row); [lia|].
  apply list_elem_of_In. eapply list_elem_of_lookup_2. exact Hrow.
Qed.

Lemma setTile_shape (g : Grid) (r c : Z) (t : Tile) :
  gridShape g -> gridShape (setTile g r c t).
Proof.
  intros [Hlen Hrows]. unfold setTile. split.
  - by rewrite length_alter.
  - apply Forall_alter; [done|]. intros row _ Hl. by rewrite length_insert.
Qed.

Lemma countRow (g : Grid) (r : Z) (cells suffix : list Tile) (k : nat) (acc : Z * Z) :
  g !! Z.to_nat r = Some cells ->
  drop k cells = suffix ->
  forM (countCell g r) acc (seqZ (Z.of_nat k) (Z.of_nat (length suffix)))
  = Some (fst acc + Z.of_nat (length (filter (fun c => tile_team c = Left) suffix)),
          snd acc + Z.of_nat (length (filter (fun c => tile_team c = Right) suffix))).
Proof.
  intros Hrow. revert k acc. induction suffix as [|c s IH]; intros k acc Hdrop.
  - simpl. destruct acc. simpl. f_equal. f_equal; lia.
  - rewrite (seqZ_cons (Z.of_nat k)) by (cbn [length]; lia).
    assert (cells !! k = Some c) as Hc.
    { rewrite <- (Nat.add_0_r k), <- lookup_drop, Hdrop. done. }
    erewrite forM_cons_Some.
    2:{ unfold countCell, getTile. rewrite Hrow. simpl.
        rewrite Nat2Z.id, Hc. reflexivity. }
    replace (Z.pred (Z.of_nat (length (c :: s)))) with (Z.of_nat (length s))
      by (cbn [length]; lia).
    replace (Z.succ (Z.of_nat k)) with (Z.of_nat (S k)) by lia.
    rewrite IH.
    2:{ pose proof (drop_S _ _ _ Hc) as HS. rewrite Hdrop in HS. congruence. }
    rewrite !filter_cons. destruct c as [[|]]; simpl; f_equal; f_equal; lia.
Qed.

Lemma countRows (g suffix : Grid) (k : nat) (acc : Z * Z) :
  Forall (fun row => length row = Z.to_nat COLS) g ->
  drop k g = suffix ->
  forM (fun acc row => forM (countCell g row) acc (seqZ 0 COLS)) acc
       (seqZ (Z.of_nat k) (Z.of_nat (length suffix)))
  = Some (fst acc + ownedBy Left suffix, snd acc + ownedBy Right suffix).
Proof.
  intros Hrows. revert k acc. induction suffix as [|row s IH]; intros k acc Hdrop.
  - simpl. destruct acc. unfold ownedBy. simpl. f_equal. f_equal; lia.
  - rewrite (seqZ_cons (Z.of_nat k)) by (cbn [length]; lia).
    assert (g !! k = Some row) as Hrow.
    { rewrite <- (Nat.add_0_r k), <- lookup_drop, Hdrop. done. }
    assert (length row = Z.to_nat COLS) as Hlen.
    { rewrite Forall_forall in Hrows. apply Hrows, list_elem_of_In.
      eapply list_elem_of_lookup_2. exact Hrow. }
    pose proof (countRow g (Z.of_nat k) row row 0 acc) as Hr.
    rewrite Nat2Z.id in Hr. specialize (Hr Hrow eq_refl).
    rewrite Hlen in Hr. change (Z.of_nat 0) with 0 in Hr.
    rewrite Z2Nat.id in Hr by (unfold COLS; lia).
    erewrite forM_cons_Some by exact Hr.
    replace (Z.pred (Z.of_nat (length (row :: s)))) with (Z.of_nat (length s))
      by (cbn [length]; lia).
    replace (Z.succ (Z.of_nat k)) with (Z.of_nat (S k)) by lia.
    rewrite IH.
    2:{ pose proof (drop_S _ _ _ Hrow) as HS. rewrite Hdrop in HS. congruence. }
    unfold ownedBy. simpl concat. rewrite !list.filter_app, !length_app. simpl.
    f_equal. f_equal; lia.
Qed.

(** [countTiles] does not fault on a grid of the right shape and returns
    the number of cells of each team. *)
Lemma countTiles_spec (g : Grid) :
  gridShape g -> countTiles g = Some (ownedBy Left g, ownedBy Right g).
Proof.
  intros [Hlen Hrows]. unfold countTiles.
  pose proof (countRows g g 0 (0, 0) Hrows eq_refl) as H.
  rewrite Hlen in H. rewrite Z2Nat.id in H by (unfold ROWS; lia).
  exact H.
Qed.

Lemma ownedBy_total (g : Grid) :
  gridShape g -> ownedBy Left g + ownedBy Right g = ROWS * COLS.
Proof.
  intros [Hlen Hrows]. unfold ownedBy.
  assert (length (concat g) = Z.to_nat (ROWS * COLS)) as Hc.
  { assert (forall h : Grid, Forall (fun row => length row = Z.to_nat COLS) h ->
              length (concat h) = (length h * Z.to_nat COLS)%nat) as Hgen.
    { induction h as [|row h IH]; intros Hf; [done|].
      inversion Hf as [|? ? Hrow Hrest]; subst. cbn [concat length].
      rewrite length_app, IH, Hrow by done. lia. }
    rewrite Hgen, Hlen by done. unfold ROWS, COLS. lia. }
  assert (forall l : list Tile,
            (length (filter (fun c => tile_team c = Left) l)
             + length (filter (fun c => tile_team c = Right) l) = length l)%nat) as Hsplit.
  { induction l as [|[[|]] l IH]; [done| |]; rewrite !filter_cons; simpl; lia. }
  specialize (Hsplit (concat g)). rewrite Hc in Hsplit.
  unfold ROWS, COLS in *. lia.
Qed.

(** ** What the log records *)

(** The pickups of a log: picker id, picker team, power-up. *)
Definition pickups (tr : list Event) : list (nat * Team * PowerUp) :=
  omap (fun e => match e with EvPickup i t p => Some (i, t, p) | _ => None end) tr.

(** The ids of the power-ups consumed in a log, in order. *)
Definition pickIds (tr : list Event) : list nat :=
  (fun e => pu_id (snd e)) <$> pickups tr.

Lemma pickups_app (t1 t2 : list Event) : pickups (t1 ++ t2) = pickups t1 ++ pickups t2.
Proof. apply omap_app. Qed.

Lemma pickIds_app (t1 t2 : list Event) : pickIds (t1 ++ t2) = pickIds t1 ++ pickIds t2.
Proof. unfold pickIds. by rewrite pickups_app, fmap_app. Qed.

Lemma elem_of_pickups (tr : list Event) (i : nat) (t : Team) (p : PowerUp) :
  (i, t, p) ∈ pickups tr <-> EvPickup i t p ∈ tr.
Proof.
  unfold pickups. rewrite list_elem_of_omap. split.
  - intros (e & He & Hm). destruct e; simplify_eq. done.
  - intros He. by exists (EvPickup i t p).
Qed.

Lemma pickups_of_pickup_events (i : nat) (t : Team) (l : list PowerUp) :
  pickups (EvPickup i t <$> l) = (fun p => (i, t, p)) <$> l.
Proof.
  induction l as [|p l IH]; [done|].
  change (pickups (EvPickup i t <$> p :: l))
    with ((i, t, p) :: pickups (EvPickup i t <$> l)).
  by rewrite IH.
Qed.

(** ** Folding with an invariant over the part already visited *)

Lemma foldl_invariant {A B : Type} (f : B -> A -> B) (Inv : list A -> B -> Prop)
    (l : list A) (s : B) :
  Inv [] s ->
  (forall done a s1, Inv done s1 -> Inv (done ++ [a]) (f s1 a)) ->
  Inv l (foldl f s l).
Proof.
  intros H0 Hstep.
  assert (forall rest done s1, Inv done s1 -> Inv (done ++ rest) (foldl f s1 rest)) as Hgen.
  { induction rest as [|a rest IH]; intros done s1 Hinv; simpl.
    - by rewrite app_nil_r.
    - replace (done ++ a :: rest) with ((done ++ [a]) ++ rest)
        by (by rewrite <- app_assoc).
      apply IH, Hstep, Hinv. }
  apply (Hgen l [] s H0).
Qed.

(** ** The power-up collision loop *)

(** What the freeze loop can do to an object: nothing, or set [frozen]. *)
Definition frz (o o' : Ball) : Prop := o' = o \/ o' = set_frozen POWERUP_DURATION o.

Lemma frz_refl (o : Ball) : frz o o.
Proof. by left. Qed.

Lemma frz_trans (a b c : Ball) : frz a b -> frz b c -> frz a c.
Proof. intros [->| ->] [->| ->]; unfold frz; auto. Qed.

Lemma Forall2_frz_refl (l : list Ball) : Forall2 frz l l.
Proof. induction l; constructor; auto using frz_refl. Qed.

Lemma Forall2_frz_trans (l1 l2 l3 : list Ball) :
  Forall2 frz l1 l2 -> Forall2 frz l2 l3 -> Forall2 frz l1 l3.
Proof.
  intros H12. revert l3. induction H12; intros l3 H23; inversion H23; subst;
    constructor; eauto using frz_trans.
Qed.

Lemma freezeEnemies_frz (b : Ball) (l : list Ball) : Forall2 frz l (freezeEnemies b l).
Proof.
  unfold freezeEnemies. induction l as [|o l IH]; simpl; constructor; [|done].
  destruct (negb _); [by right | by left].
Qed.

(** The fields of the ball being processed that no pickup touches. *)
Definition pickKeeps (b b' : Ball) : Prop :=
  ball_id b' = ball_id b /\ x b' = x b /\ y b' = y b /\ team b' = team b /\
  baseRadius b' = baseRadius b /\ trail b' = trail b /\ frozen b' = frozen b /\
  isClone b' = isClone b /\ cloneExpires b' = cloneExpires b.

(** The clones pushed by a collision loop that started with [nextBallId = n]. *)
Definition clonesFrom (n : nat) (t : Team) (clones : list Ball) : Prop :=
  ball_id <$> clones = seq n (length clones) /\
  Forall (fun c => isClone c = true /\ cloneExpires c = POWERUP_DURATION * 2 /\
                   team c = t) clones.

(** Effect of the collision loop on the ball and on the loop state. *)
Record PickRel (b0 : Ball) (L0 : Loop) (b : Ball) (L : Loop) : Prop := {
  pr_keeps : pickKeeps b0 b;
  pr_objs : Forall2 frz (objs L0) (objs L);
  pr_clones : exists clones, newBalls L = newBalls L0 ++ (Fresh <$> clones) /\
                             nextBallId L = (nextBallId L0 + length clones)%nat /\
                             clonesFrom (nextBallId L0) (team b0) clones;
  pr_registry : registry L = registry L0;
  pr_newTiles : newTiles L = newTiles L0;
  pr_hasChanges : hasChanges L = hasChanges L0;
  pr_randomCalls : randomCalls L = randomCalls L0
}.

Lemma pickKeeps_refl (b : Ball) : pickKeeps b b.
Proof. by repeat split. Qed.

Lemma pickKeeps_trans (a b c : Ball) : pickKeeps a b -> pickKeeps b c -> pickKeeps a c.
Proof. unfold pickKeeps. intros H1 H2. destruct_and!. repeat split; congruence. Qed.

Lemma magnetEffect_keeps (env : Env) (b : Ball) : pickKeeps b (magnetEffect env b).
Proof. unfold magnetEffect. case_decide; by repeat split. Qed.

Lemma PickRel_refl (b : Ball) (L : Loop) : PickRel b L b L.
Proof.
  split; auto using pickKeeps_refl, Forall2_frz_refl.
  exists []. simpl. rewrite app_nil_r, Nat.add_0_r. repeat split; constructor.
Qed.

Lemma applyPowerUp_rel (env : Env) (p : PowerUp) (e : Event) (b0 b : Ball) (L0 L : Loop) :
  PickRel b0 L0 b L ->
  PickRel b0 L0 (applyPowerUp env p b (log e L)).1 (applyPowerUp env p b (log e L)).2.
Proof.
  intros [Hk Ho (clones & Hnb & Hid & Hseq & Hcl) Hr Ht Hh Hc].
  unfold applyPowerUp. destruct (pu_type p) as [[| | | |]|]; simpl.
  1:{ split; simpl; try done.
      exists (clones ++ [makeClone (nextBallId L) b]). rewrite Hnb. repeat split.
      - by rewrite fmap_app, app_assoc.
      - rewrite length_app. simpl. lia.
      - rewrite fmap_app, length_app, seq_app, Hseq. simpl. by rewrite Hid.
      - apply Forall_app. split; [done|]. constructor; [|done]. simpl.
        repeat split. by destruct Hk as (_ & _ & _ & -> & _). }
  all: split; simpl; try done; try (by exists clones);
    try (eapply pickKeeps_trans; [exact Hk|];
         first [by repeat split | apply magnetEffect_keeps]);
    try (eapply Forall2_frz_trans; [exact Ho|]; apply freezeEnemies_frz).
Qed.

Lemma pickupStep_rel (env : Env) (b0 : Ball) (L0 : Loop) (st : Ball * Loop * list nat)
    (p : PowerUp) :
  PickRel b0 L0 st.1.1 st.1.2 ->
  PickRel b0 L0 (pickupStep env st p).1.1 (pickupStep env st p).1.2.
Proof.
  destruct st as [[b L] tR]. simpl. intros H. destruct (touches b p); [|done].
  pose proof (applyPowerUp_rel env p (EvPickup (ball_id b) (team b) p) b0 b L0 L H) as H'.
  destruct (applyPowerUp env p b _) as [b' L']. done.
Qed.

Lemma pickup_rel (env : Env) (b : Ball) (L : Loop) :
  let '(b', L', _) := pickup env b L in
  PickRel b L b' (set_registry (registry L) L') /\
  exists toRemove : list nat, registry L' = filter (fun p => pu_id p ∉ toRemove) (registry L).
Proof.
  unfold pickup.
  pose proof (foldl_invariant (pickupStep env)
                (fun _ st => PickRel b L st.1.1 st.1.2) (registry L) (b, L, [])) as H.
  destruct (foldl (pickupStep env) (b, L, []) (registry L)) as [[b' L'] tR].
  simpl in H. destruct H as [Hk Ho Hc Hr Ht Hh Hrc].
  - apply PickRel_refl.
  - intros _ a s1. apply pickupStep_rel.
  - split; [by split|]. exists tR. simpl. by rewrite Hr.
Qed.

(** Every object of another team than [t] has a full freeze timer. *)
Definition allFrozen (t : Team) (os : list Ball) : Prop :=
  Forall (fun o => team o <> t -> frozen o = POWERUP_DURATION) os.

Lemma freezeEnemies_keeps_allFrozen (t : Team) (b : Ball) (os : list Ball) :
  allFrozen t os -> allFrozen t (freezeEnemies b os).
Proof.
  unfold allFrozen, freezeEnemies. rewrite Forall_fmap. apply Forall_impl.
  intros o Ho. simpl. destruct (negb _); [done | exact Ho].
Qed.

Lemma freezeEnemies_allFrozen (b : Ball) (os : list Ball) :
  allFrozen (team b) (freezeEnemies b os).
Proof.
  unfold allFrozen, freezeEnemies. rewrite Forall_fmap. apply Forall_true.
  intros o. simpl. destruct (team_eqb (team o) (team b)) eqn:E; simpl; [|done].
  apply team_eqb_eq in E. congruence.
Qed.

Lemma applyPowerUp_trace (env : Env) (p : PowerUp) (b : Ball) (L : Loop) :
  trace (applyPowerUp env p b L).2 = trace L.
Proof. unfold applyPowerUp. by destruct (pu_type p) as [[| | | |]|]. Qed.

Lemma applyPowerUp_allFrozen (env : Env) (p : PowerUp) (b : Ball) (L : Loop) (t : Team) :
  (allFrozen t (objs L) -> allFrozen t (objs (applyPowerUp env p b L).2)) /\
  (team b = t -> pu_type p = Some Freeze -> allFrozen t (objs (applyPowerUp env p b L).2)).
Proof.
  unfold applyPowerUp. split.
  - destruct (pu_type p) as [[| | | |]|]; simpl; try done.
    apply freezeEnemies_keeps_allFrozen.
  - intros <- ->. simpl. apply freezeEnemies_allFrozen.
Qed.

(** The log and [powerUpsToRemove] after the power-ups [done] were visited. *)
Definition PickLog (b0 : Ball) (L0 : Loop) (done : list PowerUp)
    (st : Ball * Loop * list nat) : Prop :=
  pickKeeps b0 st.1.1 /\
  exists picked : list PowerUp,
    picked `sublist_of` done /\
    st.2 = pu_id <$> picked /\
    trace st.1.2 = trace L0 ++ (EvPickup (ball_id b0) (team b0) <$> picked) /\
    forall t, allFrozen t (objs L0) \/
              (team b0 = t /\ Exists (fun p => pu_type p = Some Freeze) picked) ->
              allFrozen t (objs st.1.2).

Lemma pickupStep_log (env : Env) (b0 : Ball) (L0 : Loop) (done : list PowerUp)
    (st : Ball * Loop * list nat) (p : PowerUp) :
  PickLog b0 L0 done st -> PickLog b0 L0 (done ++ [p]) (pickupStep env st p).
Proof.
  destruct st as [[b L] tR]. intros (Hk & picked & Hsub & HtR & Htr & Hfr).
  simpl in *. destruct (touches b p) eqn:Htouch.
  - pose proof (applyPowerUp_trace env p b (log (EvPickup (ball_id b) (team b) p) L)) as Ht.
    pose proof (applyPowerUp_rel env p (EvPickup (ball_id b) (team b) p) b b L L
                  (PickRel_refl b L)) as [Hk' _ _ _ _ _ _].
    pose proof (fun t => applyPowerUp_allFrozen env p b
                  (log (EvPickup (ball_id b) (team b) p) L) t) as Hfr'.
    destruct (applyPowerUp env p b _) as [b' L']. simpl in *.
    split; [by eapply pickKeeps_trans|].
    exists (picked ++ [p]). simpl. repeat split.
    + by apply sublist_app.
    + by rewrite HtR, fmap_app.
    + rewrite Ht, Htr, fmap_app, <- app_assoc. simpl.
      destruct Hk as (-> & _ & _ & -> & _). done.
    + intros t H. destruct (Hfr' t) as [Hf1 Hf2].
      destruct H as [H0 | [Ht0 Hex]].
      * apply Hf1, Hfr. by left.
      * apply Exists_app in Hex. destruct Hex as [Hex | Hex].
        -- apply Hf1, Hfr. right. done.
        -- apply Exists_cons in Hex. destruct Hex as [Hp | Hex].
           2:{ by apply Exists_nil in Hex. }
           apply Hf2; [|done]. destruct Hk as (_ & _ & _ & -> & _). done.
  - split; [done|]. exists picked. repeat split; try done.
    by apply sublist_inserts_r.
Qed.

(** The collision loop of one ball: it consumes a sublist [picked] of the
    registry, logs one pickup for each, and the filter removes every
    power-up carrying a consumed id. *)
Lemma pickup_log (env : Env) (b : Ball) (L : Loop) :
  exists picked : list PowerUp,
    picked `sublist_of` registry L /\
    trace (pickup env b L).1.2 = trace L ++ (EvPickup (ball_id b) (team b) <$> picked) /\
    registry (pickup env b L).1.2
      = filter (fun p => pu_id p ∉ pu_id <$> picked) (registry L) /\
    forall t, allFrozen t (objs L) \/
              (team b = t /\ Exists (fun p => pu_type p = Some Freeze) picked) ->
              allFrozen t (objs (pickup env b L).1.2).
Proof.
  unfold pickup.
  pose proof (foldl_invariant (pickupStep env) (PickLog b L) (registry L) (b, L, [])) as H.
  pose proof (foldl_invariant (pickupStep env)
                (fun _ st => PickRel b L st.1.1 st.1.2) (registry L) (b, L, [])) as HR.
  destruct (foldl (pickupStep env) (b, L, []) (registry L)) as [[b' L'] tR].
  simpl in *. destruct H as (Hk & picked & Hsub & HtR & Htr & Hfr).
  - split; [apply pickKeeps_refl|]. exists []. simpl. rewrite app_nil_r.
    repeat split; try done. intros t [H|[_ H]]; [done|]. by apply Exists_nil in H.
  - intros done a s1. apply pickupStep_log.
  - destruct HR as [_ _ _ Hr _ _ _].
    + apply PickRel_refl.
    + intros _ a s1. apply pickupStep_rel.
    + simpl in *. exists picked. subst tR. rewrite Hr. done.
Qed.

(** Number of "split" power-ups among a list of power-ups. *)
Definition splitsIn (l : list PowerUp) : nat :=
  length (filter (fun p => pu_type p = Some Split) l).

Lemma splitsIn_app (l k : list PowerUp) : splitsIn (l ++ k) = (splitsIn l + splitsIn k)%nat.
Proof. unfold splitsIn. by rewrite list.filter_app, length_app. Qed.

(** Number of "split" pickups in a log. *)
Definition splitPicks (tr : list Event) : nat := splitsIn (snd <$> pickups tr).

Lemma splitPicks_app (t1 t2 : list Event) :
  splitPicks (t1 ++ t2) = (splitPicks t1 + splitPicks t2)%nat.
Proof. unfold splitPicks. by rewrite pickups_app, fmap_app, splitsIn_app. Qed.

Lemma splitPicks_pickup (i : nat) (t : Team) (p : PowerUp) :
  splitPicks [EvPickup i t p] = if decide (pu_type p = Some Split) then 1%nat else 0%nat.
Proof.
  unfold splitPicks, splitsIn. simpl. rewrite filter_cons, filter_nil.
  by case_decide.
Qed.

(** Every "split" consumed pushes one entry and takes one id; nothing else
    pushes or takes any. *)
Definition PickCount (L0 : Loop) (L : Loop) : Prop :=
  (nextBallId L + splitPicks (trace L0) = nextBallId L0 + splitPicks (trace L))%nat /\
  (length (newBalls L) + splitPicks (trace L0)
   = length (newBalls L0) + splitPicks (trace L))%nat.

Lemma pickupStep_count (env : Env) (L0 : Loop) (st : Ball * Loop * list nat) (p : PowerUp) :
  PickCount L0 st.1.2 -> PickCount L0 (pickupStep env st p).1.2.
Proof.
  destruct st as [[b L] tR]. intros [Hid Hlen]. simpl in *.
  destruct (touches b p) eqn:Htouch; [|done].
  pose proof (splitPicks_pickup (ball_id b) (team b) p) as Hs.
  unfold applyPowerUp, PickCount.
  destruct (pu_type p) as [[| | | |]|] eqn:E; simpl;
    rewrite splitPicks_app, Hs, ?length_app; simpl; lia.
Qed.

Lemma pickup_count (env : Env) (b : Ball) (L : Loop) : PickCount L (pickup env b L).1.2.
Proof.
  unfold pickup.
  pose proof (foldl_invariant (pickupStep env) (fun _ st => PickCount L st.1.2)
                (registry L) (b, L, [])) as H.
  destruct (foldl (pickupStep env) (b, L, []) (registry L)) as [[b' L'] tR].
  simpl in *. apply H.
  - split; lia.
  - intros _ a s1. apply pickupStep_count.
Qed.

(** ** Tile conversion and redirection *)

Definition isTileEvent (e : Event) : Prop :=
  match e with EvConvert _ _ _ | EvRedirect _ => True | _ => False end.

(** What the tile phase may change in the loop state: the new grid (which
    keeps its shape), [hasChanges], the number of random calls and the log. *)
Record TileRel (L L' : Loop) : Prop := {
  tr_shape : gridShape (newTiles L');
  tr_objs : objs L' = objs L;
  tr_newBalls : newBalls L' = newBalls L;
  tr_registry : registry L' = registry L;
  tr_nextBallId : nextBallId L' = nextBallId L;
  tr_trace : exists evs, trace L' = trace L ++ evs /\ Forall isTileEvent evs
}.

Lemma TileRel_refl (L : Loop) : gridShape (newTiles L) -> TileRel L L.
Proof. intros H. split; try done. exists []. by rewrite app_nil_r. Qed.

Lemma TileRel_trans (L1 L2 L3 : Loop) : TileRel L1 L2 -> TileRel L2 L3 -> TileRel L1 L3.
Proof.
  intros [_ Ho Hn Hr Hi (e1 & He1 & Hf1)] [Hs Ho' Hn' Hr' Hi' (e2 & He2 & Hf2)].
  split; try congruence. exists (e1 ++ e2). split.
  - by rewrite He2, He1, app_assoc.
  - by apply Forall_app.
Qed.

Lemma convertCell_rel (b : Ball) (r c : Z) (L : Loop) :
  gridShape (newTiles L) -> exists L', convertCell b r c L = Some L' /\ TileRel L L'.
Proof.
  intros Hs. unfold convertCell. destruct (inGrid r c) eqn:Hin.
  2:{ exists L. split; [done|]. by apply TileRel_refl. }
  destruct (getTile_is_Some _ r c Hs Hin) as [t Ht]. rewrite Ht. simpl.
  destruct (negb _).
  - eexists. split; [done|]. split; simpl; try done.
    + by apply setTile_shape.
    + exists [EvConvert (ball_id b) r c]. split; [done|]. by repeat constructor.
  - exists L. split; [done|]. by apply TileRel_refl.
Qed.

Lemma convertTiles_rel (b : Ball) (row col : Z) (L : Loop) :
  gridShape (newTiles L) -> exists L', convertTiles b row col L = Some L' /\ TileRel L L'.
Proof.
  intros Hs. unfold convertTiles.
  apply (forM_invariant _ (fun _ L1 => TileRel L L1)); [by apply TileRel_refl|].
  intros _ dr L1 _ H1.
  destruct (forM_invariant
              (fun L2 dc => convertCell b (row + dr) (col + dc) L2)
              (fun _ L2 => TileRel L L2)
              (offsets (if 0 <? giant b then 2 else 1)) L1 H1) as (L2 & HL2 & H2).
  - intros _ dc L2 _ H2.
    destruct (convertCell_rel b (row + dr) (col + dc) L2) as (L3 & HL3 & H3).
    + by destruct H2.
    + exists L3. split; [done|]. by eapply TileRel_trans.
  - by exists L2.
Qed.

(** The tile phase only ever assigns [vx] and [vy] of the ball. *)
Definition tileKeeps (b b' : Ball) : Prop :=
  exists vx' vy', b' = set_vy vy' (set_vx vx' b).

Lemma tileKeeps_refl (b : Ball) : tileKeeps b b.
Proof. exists (vx b), (vy b). by destruct b. Qed.

Lemma redirect_rel (env : Env) (tilesRef : Grid) (b : Ball) (row col : Z) (L : Loop) :
  gridShape tilesRef -> gridShape (newTiles L) ->
  exists b' L', redirect env tilesRef b row col L = Some (b', L') /\
                TileRel L L' /\ tileKeeps b b'.
Proof.
  intros Ht Hs. unfold redirect. destruct (inGrid row col) eqn:Hin.
  2:{ exists b, L. auto using TileRel_refl, tileKeeps_refl. }
  destruct (getTile_is_Some _ row col Ht Hin) as [t Hget]. rewrite Hget. simpl.
  destruct (negb _).
  - eexists _, _. split; [done|]. split.
    + split; simpl; try done.
      exists [EvRedirect (ball_id b)]. split; [done|]. by repeat constructor.
    + eexists _, _. reflexivity.
  - exists b, L. auto using TileRel_refl, tileKeeps_refl.
Qed.

Lemma tilePhase_rel (env : Env) (tilesRef : Grid) (b : Ball) (L : Loop) :
  gridShape tilesRef -> gridShape (newTiles L) ->
  exists b' L', tilePhase env tilesRef b L = Some (b', L') /\
                TileRel L L' /\ tileKeeps b b'.
Proof.
  intros Ht Hs. unfold tilePhase.
  destruct (cellIndex (y b) (tileHeight env)) as [row|];
    [destruct (cellIndex (x b) (tileWidth env)) as [col|]|].
  2,3: exists b, L; auto using TileRel_refl, tileKeeps_refl.
  destruct (convertTiles_rel b row col L Hs) as (L1 & HL1 & H1). rewrite HL1. simpl.
  destruct (redirect_rel env tilesRef b row col L1 Ht) as (b' & L2 & HL2 & H2 & Hk).
  { by destruct H1. }
  exists b', L2. split; [done|]. split; [|done]. by eapply TileRel_trans.
Qed.

Lemma tile_events_no_pickups (evs : list Event) : Forall isTileEvent evs -> pickups evs = [].
Proof.
  induction 1 as [|e evs He _ IH]; [done|]. unfold pickups in *. simpl.
  destruct e; simpl in *; try done.
Qed.

(** ** One ball *)

(** The clone reaches the end of its life in this frame. *)
Definition expires (b : Ball) : bool :=
  isClone b && (0 <? cloneExpires b) && (cloneExpires b - 1 <=? 0).

Definition decExpires (b : Ball) : Z :=
  if isClone b && (0 <? cloneExpires b) then cloneExpires b - 1 else cloneExpires b.

Definition decFrozen (b : Ball) : Z :=
  if expires b then frozen b
  else if 0 <? frozen b then frozen b - 1 else frozen b.

(** How the processing of a ball relates the object before and after. *)
Record BallStep (b0 b' : Ball) : Prop := {
  bs_id : ball_id b' = ball_id b0;
  bs_team : team b' = team b0;
  bs_isClone : isClone b' = isClone b0;
  bs_baseRadius : baseRadius b' = baseRadius b0;
  bs_cloneExpires : cloneExpires b' = decExpires b0;
  bs_frozen : frozen b' = decFrozen b0;
  bs_still : expires b0 = true \/ 1 < frozen b0 ->
             x b' = x b0 /\ y b' = y b0 /\ vx b' = vx b0 /\ vy b' = vy b0
}.

Lemma decayTimers_fields (b : Ball) :
  ball_id (decayTimers b) = ball_id b /\ team (decayTimers b) = team b /\
  isClone (decayTimers b) = isClone b /\ baseRadius (decayTimers b) = baseRadius b /\
  cloneExpires (decayTimers b) = cloneExpires b /\
  x (decayTimers b) = x b /\ y (decayTimers b) = y b /\
  vx (decayTimers b) = vx b /\ vy (decayTimers b) = vy b /\
  frozen (decayTimers b) = (if 0 <? frozen b then frozen b - 1 else frozen b).
Proof. unfold decayTimers. repeat case_match; simpl in *; repeat split; congruence. Qed.

Lemma updateTrail_fields (b : Ball) :
  ball_id (updateTrail b) = ball_id b /\ team (updateTrail b) = team b /\
  isClone (updateTrail b) = isClone b /\ baseRadius (updateTrail b) = baseRadius b /\
  cloneExpires (updateTrail b) = cloneExpires b /\
  x (updateTrail b) = x b /\ y (updateTrail b) = y b /\
  vx (updateTrail b) = vx b /\ vy (updateTrail b) = vy b /\
  frozen (updateTrail b) = frozen b.
Proof. by repeat split. Qed.

Lemma move_fields (env : Env) (b : Ball) :
  ball_id (move env b) = ball_id b /\ team (move env b) = team b /\
  isClone (move env b) = isClone b /\ baseRadius (move env b) = baseRadius b /\
  cloneExpires (move env b) = cloneExpires b /\ frozen (move env b) = frozen b /\
  radius (move env b) = radius b.
Proof. by repeat split. Qed.

Lemma boundary_fields (env : Env) (b : Ball) :
  ball_id (boundary env b) = ball_id b /\ team (boundary env b) = team b /\
  isClone (boundary env b) = isClone b /\ baseRadius (boundary env b) = baseRadius b /\
  cloneExpires (boundary env b) = cloneExpires b /\ frozen (boundary env b) = frozen b /\
  radius (boundary env b) = radius b.
Proof. unfold boundary. repeat case_decide; by repeat split. Qed.

Lemma filter_none_removed (l : list PowerUp) :
  filter (fun p => pu_id p ∉ @nil nat) l = l.
Proof.
  induction l as [|p l IH]; [done|]. rewrite filter_cons.
  rewrite decide_True by apply not_elem_of_nil. by rewrite IH.
Qed.

(** A ball at the end of its life is dropped and nothing else happens: the
    only write is the decrement of [cloneExpires]. *)
Lemma processBall_expired (env : Env) (tilesRef : Grid) (L : Loop) (i : nat) (b0 : Ball) :
  objs L !! i = Some b0 -> expires b0 = true ->
  processBall env tilesRef L i
  = Some (set_objs (<[i := set_cloneExpires (cloneExpires b0 - 1) b0]> (objs L)) L).
Proof.
  intros Hi He. unfold processBall. rewrite Hi. simpl. unfold expires in He.
  apply andb_true_iff in He. destruct He as [He1 He2]. rewrite He1. simpl.
  by rewrite He2.
Qed.

Lemma splitPicks_of_pickup_events (i : nat) (t : Team) (l : list PowerUp) :
  splitPicks (EvPickup i t <$> l) = splitsIn l.
Proof.
  unfold splitPicks. rewrite pickups_of_pickup_events, <- list_fmap_compose.
  by rewrite list_fmap_id.
Qed.

Lemma processBall_spec (env : Env) (tilesRef : Grid) (L : Loop) (i : nat) (b0 : Ball) :
  objs L !! i = Some b0 -> gridShape tilesRef -> gridShape (newTiles L) ->
  exists L' b' mid clones picked evs,
    processBall env tilesRef L i = Some L' /\
    gridShape (newTiles L') /\
    Forall2 frz (objs L) mid /\ objs L' = <[i := b']> mid /\ BallStep b0 b' /\
    newBalls L' = newBalls L ++ (Fresh <$> clones) ++ (if expires b0 then [] else [Old i]) /\
    nextBallId L' = (nextBallId L + length clones)%nat /\
    clonesFrom (nextBallId L) (team b0) clones /\
    picked `sublist_of` registry L /\
    registry L' = filter (fun p => pu_id p ∉ pu_id <$> picked) (registry L) /\
    trace L' = trace L ++ (EvPickup (ball_id b0) (team b0) <$> picked) ++ evs /\
    Forall isTileEvent evs /\
    (Exists (fun p => pu_type p = Some Freeze) picked -> allFrozen (team b0) mid) /\
    length clones = splitsIn picked.
Proof.
  intros Hi Ht Hs. destruct (expires b0) eqn:Hexp.
  { rewrite (processBall_expired env tilesRef L i b0 Hi Hexp).
    eexists _, _, (objs L), [], [], []. simpl. rewrite !app_nil_r, Nat.add_0_r.
    assert (BallStep b0 (set_cloneExpires (cloneExpires b0 - 1) b0)) as Hstep.
    { split; try done; simpl.
      - unfold decExpires. unfold expires in Hexp.
        apply andb_true_iff in Hexp. destruct Hexp as [-> _]. done.
      - unfold decFrozen. by rewrite Hexp. }
    split_and!; try done.
    - apply Forall2_frz_refl.
    - apply sublist_nil_l.
    - simpl. by rewrite filter_none_removed.
    - intros H. by apply Exists_nil in H. }
  unfold processBall. rewrite Hi. cbn [mbind option_bind].
  set (b1 := if isClone b0 && (0 <? cloneExpires b0)
             then set_cloneExpires (cloneExpires b0 - 1) b0 else b0).
  assert (isClone b0 && (0 <? cloneExpires b0) && (cloneExpires b1 <=? 0) = false) as Hne.
  { unfold expires in Hexp. subst b1.
    destruct (isClone b0 && (0 <? cloneExpires b0)) eqn:E; [|done]. simpl in *. done. }
  rewrite Hne.
  assert (ball_id b1 = ball_id b0 /\ team b1 = team b0 /\ isClone b1 = isClone b0 /\
          baseRadius b1 = baseRadius b0 /\ cloneExpires b1 = decExpires b0 /\
          frozen b1 = frozen b0 /\ x b1 = x b0 /\ y b1 = y b0 /\
          vx b1 = vx b0 /\ vy b1 = vy b0) as Hb1.
  { subst b1. unfold decExpires. by destruct (isClone b0 && (0 <? cloneExpires b0)). }
  clearbody b1.
  set (b2 := updateTrail (decayTimers b1)).
  assert (ball_id b2 = ball_id b0 /\ team b2 = team b0 /\ isClone b2 = isClone b0 /\
          baseRadius b2 = baseRadius b0 /\ cloneExpires b2 = decExpires b0 /\
          frozen b2 = decFrozen b0 /\ x b2 = x b0 /\ y b2 = y b0 /\
          vx b2 = vx b0 /\ vy b2 = vy b0) as Hb2.
  { pose proof (decayTimers_fields b1) as Hd.
    pose proof (updateTrail_fields (decayTimers b1)) as Hu. fold b2 in Hu.
    unfold decFrozen. rewrite Hexp.
    destruct Hb1 as (? & ? & ? & ? & ? & Hf1 & ?). rewrite Hf1 in Hd.
    destruct_and!. split_and!; congruence. }
  clearbody b2. destruct Hb2 as (Hid & Hteam & Hcl & Hbr & Hce & Hfz & Hx & Hy & Hvx & Hvy).
  destruct (0 <? frozen b2) eqn:Hfrozen.
  { eexists _, b2, (objs L), [], [], []. simpl. rewrite !app_nil_r, Nat.add_0_r.
    split_and!; try done.
    - apply Forall2_frz_refl.
    - apply sublist_nil_l.
    - simpl. by rewrite filter_none_removed.
    - intros H. by apply Exists_nil in H. }
  assert (~ (expires b0 = true \/ 1 < frozen b0)) as Hactive.
  { intros [H|H]; [congruence|]. rewrite Hfz in Hfrozen. unfold decFrozen in Hfrozen.
    rewrite Hexp in Hfrozen. destruct (0 <? frozen b0) eqn:E; lia. }
  set (b3 := boundary env (move env b2)).
  assert (ball_id b3 = ball_id b0 /\ team b3 = team b0 /\ isClone b3 = isClone b0 /\
          baseRadius b3 = baseRadius b0 /\ cloneExpires b3 = decExpires b0 /\
          frozen b3 = decFrozen b0) as Hb3.
  { pose proof (move_fields env b2) as Hm.
    pose proof (boundary_fields env (move env b2)) as Hbd. fold b3 in Hbd.
    destruct_and!. split_and!; congruence. }
  clearbody b3. destruct Hb3 as (Hid3 & Hteam3 & Hcl3 & Hbr3 & Hce3 & Hfz3).
  pose proof (pickup_rel env b3 L) as Hrel.
  pose proof (pickup_count env b3 L) as [Hcount _].
  pose proof (pickup_log env b3 L) as (picked & Hsub & Htr & Hreg & Hfr).
  destruct (pickup env b3 L) as [[b4 L1] tR]. simpl in *.
  destruct Hrel as [[Hk Ho (clones & Hnb & Hnid & Hclones) _ Htiles _ _] _]. simpl in *.
  destruct (tilePhase_rel env tilesRef b4 L1 Ht) as (b5 & L2 & HL2 & HT & (vx' & vy' & Hb5)).
  { by rewrite Htiles. }
  rewrite HL2. simpl.
  destruct HT as [Hshape Hobjs Hnew Hregs Hnext (evs & Htrace & Hevs)].
  exists (push_newBalls (Old i) (set_objs (<[i := b5]> (objs L2)) L2)),
         b5, (objs L1), clones, picked, evs. simpl.
  destruct Hk as (Hk1 & Hk2 & Hk3 & Hk4 & Hk5 & Hk6 & Hk7 & Hk8 & Hk9).
  assert (BallStep b0 b5) as Hstep.
  { subst b5. split; simpl; try congruence; try (intros H; by destruct Hactive). }
  split_and!; try done.
  - by rewrite Hobjs.
  - by rewrite Hnew, Hnb, <- app_assoc.
  - by rewrite Hnext.
  - by rewrite <- Hteam3.
  - by rewrite Hregs, Hreg.
  - by rewrite Htrace, Htr, <- app_assoc, Hid3, Hteam3.
  - intros Hex. rewrite <- Hteam3. apply Hfr. right. done.
  - rewrite Htr, splitPicks_app, splitPicks_of_pickup_events in Hcount. lia.
Qed.

(** ** The ball loop *)

(** How a whole frame relates an object of [ballsRef.current] at the start
    of the frame to the same object at the end: its own processing, plus
    freezes by balls processed before and after it. *)
Record Evolved (o0 o : Ball) : Prop := {
  ev_id : ball_id o = ball_id o0;
  ev_team : team o = team o0;
  ev_isClone : isClone o = isClone o0;
  ev_baseRadius : baseRadius o = baseRadius o0;
  ev_cloneExpires : cloneExpires o = decExpires o0;
  ev_still : expires o0 = true \/ 1 < frozen o0 ->
             x o = x o0 /\ y o = y o0 /\ vx o = vx o0 /\ vy o = vy o0;
  ev_frozen : 1 < frozen o0 -> Z.min (frozen o0 - 1) (POWERUP_DURATION - 1) <= frozen o
}.

Lemma frz_fields (o o' : Ball) :
  frz o o' ->
  ball_id o' = ball_id o /\ team o' = team o /\ isClone o' = isClone o /\
  baseRadius o' = baseRadius o /\ cloneExpires o' = cloneExpires o /\
  x o' = x o /\ y o' = y o /\ vx o' = vx o /\ vy o' = vy o /\
  (frozen o' = frozen o \/ frozen o' = POWERUP_DURATION).
Proof. intros [->| ->]; simpl; split_and!; auto. Qed.

Lemma evolved_intro (o0 o1 b' : Ball) : frz o0 o1 -> BallStep o1 b' -> Evolved o0 b'.
Proof.
  intros Hf [Hid Ht Hc Hb Hce Hfz Hst].
  destruct (frz_fields _ _ Hf) as (F1 & F2 & F3 & F4 & F5 & F6 & F7 & F8 & F9 & F10).
  assert (expires o1 = expires o0) as He by (unfold expires; by rewrite F3, F5).
  assert (decExpires o1 = decExpires o0) as Hd by (unfold decExpires; by rewrite F3, F5).
  unfold POWERUP_DURATION in *.
  split; try congruence.
  - intros H. destruct Hst as (S1 & S2 & S3 & S4).
    + rewrite He. destruct H as [H|H]; [by left | right]. lia.
    + split_and!; congruence.
  - intros H. rewrite Hfz. unfold decFrozen. rewrite He. unfold POWERUP_DURATION.
    destruct (expires o0); [lia|]. destruct (0 <? frozen o1) eqn:E; lia.
Qed.

Lemma evolved_frz (o0 o o' : Ball) : Evolved o0 o -> frz o o' -> Evolved o0 o'.
Proof.
  intros [Hid Ht Hc Hb Hce Hst Hfz] Hf.
  destruct (frz_fields _ _ Hf) as (F1 & F2 & F3 & F4 & F5 & F6 & F7 & F8 & F9 & F10).
  unfold POWERUP_DURATION in *.
  split; try congruence.
  - intros H. destruct (Hst H) as (S1 & S2 & S3 & S4). split_and!; congruence.
  - intros H. specialize (Hfz H). unfold POWERUP_DURATION in *. lia.
Qed.

(** The id an entry of [newBalls] carries; [store] is [ballsRef.current]. *)
Definition refId (store : list Ball) (r : Ref) : nat :=
  match r with
  | Old j => from_option ball_id 0%nat (store !! j)
  | Fresh c => ball_id c
  end.

Definition isSpawn (e : Event) : Prop :=
  match e with EvSpawn _ => True | _ => False end.

Lemma prefix_of_seq (done : list nat) (a n : nat) :
  done ++ [a] `prefix_of` seq 0 n -> a = length done /\ (a < n)%nat.
Proof.
  intros [rest Heq].
  assert (seq 0 n !! length done = Some a) as Hl.
  { rewrite Heq, <- app_assoc. rewrite lookup_app_r by lia.
    by rewrite Nat.sub_diag. }
  apply lookup_seq in Hl. lia.
Qed.

Lemma sublist_filter_mono {A : Type} (P : A -> Prop) `{!forall a, Decision (P a)}
    (l k : list A) :
  l `sublist_of` k -> filter P l `sublist_of` filter P k.
Proof.
  induction 1 as [|a l k _ IH|a l k _ IH]; [done| |]; rewrite ?filter_cons.
  - case_decide; [by apply sublist_skip | done].
  - case_decide; [by apply sublist_cons | done].
Qed.

Lemma submseteq_NoDup {A : Type} (l k : list A) : l ⊆+ k -> NoDup k -> NoDup l.
Proof.
  intros Hs Hk. apply submseteq_Permutation in Hs. destruct Hs as [k' Hp].
  rewrite Hp in Hk. by apply list.NoDup_app in Hk as [? _].
Qed.

(** A consumed sublist together with what the filter leaves is contained in
    the registry, as multisets. *)
Lemma picked_and_rest (picked regs : list PowerUp) :
  picked `sublist_of` regs ->
  picked ++ filter (fun p => pu_id p ∉ pu_id <$> picked) regs ⊆+ regs.
Proof.
  intros Hsub.
  set (P := fun p : PowerUp => pu_id p ∉ pu_id <$> picked).
  rewrite <- (filter_app_complement P regs) at 2.
  rewrite (comm (++) (filter P regs)).
  apply submseteq_app; [|done].
  apply sublist_submseteq.
  assert (forall l : list PowerUp, (forall p, p ∈ l -> pu_id p ∈ pu_id <$> picked) ->
            filter (fun p => ~ P p) l = l) as Hgen.
  { subst P. induction l as [|p l IH]; intros Hl; [done|]. rewrite filter_cons.
    rewrite decide_True.
    - rewrite IH; [done|]. intros q Hq. apply Hl. by right.
    - intros Hn. apply Hn, Hl. by left. }
  pose proof (sublist_filter_mono (fun p => ~ P p) _ _ Hsub) as Hf.
  rewrite Hgen in Hf; [done|]. intros p Hp. by apply list_elem_of_fmap_2.
Qed.

Section BallLoop.

Variable env : Env.
Variable tilesRef : Grid.            (* tilesRef.current during the loop *)
Variable objs0 : list Ball.          (* ballsRef.current when the loop starts *)
Variable c0 : nat.                   (* ballIdCounter when the loop starts *)
Variable regs0 : list PowerUp.       (* the registry when the loop starts *)
Variable tr0 : list Event.           (* the log when the loop starts *)
Hypothesis tilesRef_shape : gridShape tilesRef.

(** What the log holds once the balls of index below [k] are processed. *)
Record LogInv (k : nat) (L : Loop) (evs : list Event) : Prop := {
  lg_trace : trace L = tr0 ++ evs;
  lg_nospawn : Forall (fun e => ~ isSpawn e) evs;
  lg_consumed : (snd <$> pickups evs) ++ registry L ⊆+ regs0;
  lg_pickers : forall i t p, (i, t, p) ∈ pickups evs ->
                 exists j o0, (j < k)%nat /\ objs0 !! j = Some o0 /\
                              ball_id o0 = i /\ team o0 = t;
  lg_freeze : forall i t p, (i, t, p) ∈ pickups evs -> pu_type p = Some Freeze ->
                forall j o, objs L !! j = Some o -> team o <> t ->
                  frozen o = POWERUP_DURATION \/
                  ((j < k)%nat /\ frozen o = POWERUP_DURATION - 1)
}.

(** Invariant of the ball loop once the balls of index below [k] are
    processed. *)
Record LoopInv (k : nat) (L : Loop) : Prop := {
  li_shape : gridShape (newTiles L);
  li_len : length (objs L) = length objs0;
  li_objs : forall j o0, objs0 !! j = Some o0 ->
              exists o, objs L !! j = Some o /\
                        if decide (j < k)%nat then Evolved o0 o else frz o0 o;
  li_next : (c0 <= nextBallId L)%nat;
  li_refs : forall r, r ∈ newBalls L ->
              match r with
              | Old j => (j < k)%nat /\ exists o0, objs0 !! j = Some o0 /\ expires o0 = false
              | Fresh c => (c0 <= ball_id c < nextBallId L)%nat /\ isClone c = true /\
                           cloneExpires c = POWERUP_DURATION * 2
              end;
  li_kept : forall j o0, (j < k)%nat -> objs0 !! j = Some o0 -> expires o0 = false ->
              Old j ∈ newBalls L;
  li_nodup : NoDup (ball_id <$> objs0) -> Forall (fun o => (ball_id o < c0)%nat) objs0 ->
             NoDup (refId objs0 <$> newBalls L);
  li_log : exists evs, LogInv k L evs;
  li_count : (length (newBalls L) + splitPicks tr0
              = length (filter (fun o => expires o = false) (take k objs0))
                + splitPicks (trace L))%nat
}.

Lemma frz_expires (o o' : Ball) : frz o o' -> expires o' = expires o.
Proof. intros [->| ->]; done. Qed.

Lemma refId_bound (k : nat) (L : Loop) (r : Ref) :
  LoopInv k L -> Forall (fun o => (ball_id o < c0)%nat) objs0 -> r ∈ newBalls L ->
  match r with
  | Old j => (j < k)%nat /\ (refId objs0 r < c0)%nat /\
             (ball_id <$> objs0) !! j = Some (refId objs0 r)
  | Fresh _ => (c0 <= refId objs0 r < nextBallId L)%nat
  end.
Proof.
  intros HI Hb Hr. pose proof (li_refs k L HI r Hr) as H. destruct r as [j|c]; simpl.
  - destruct H as (Hj & o0 & Ho & _). rewrite Ho. simpl. split_and!; [done| |].
    + rewrite Forall_forall in Hb. apply Hb, list_elem_of_In.
      eapply list_elem_of_lookup_2. exact Ho.
    + by rewrite list_lookup_fmap, Ho.
  - by destruct H.
Qed.

Lemma processBall_invariant (k : nat) (L : Loop) :
  LoopInv k L -> (k < length objs0)%nat ->
  exists L', processBall env tilesRef L k = Some L' /\ LoopInv (S k) L'.
Proof.
  intros HI Hk.
  destruct (lookup_lt_is_Some_2 objs0 k Hk) as [o0 Ho0].
  destruct (li_objs k L HI k o0 Ho0) as (b1 & Hb1 & Hfrz).
  rewrite decide_False in Hfrz by lia.
  destruct (processBall_spec env tilesRef L k b1 Hb1 tilesRef_shape (li_shape k L HI))
    as (L' & b' & mid & clones & picked & tevs & HL' & Hshape & Hmid & Hobjs & Hstep &
        Hnew & Hnext & [Hcids Hcl] & Hsub & Hreg & Htrace & Htevs & Hfreeze & Hsplits).
  exists L'. split; [done|].
  pose proof (frz_fields _ _ Hfrz) as (F1 & F2 & F3 & F4 & F5 & _).
  pose proof (frz_expires _ _ Hfrz) as Hexp.
  assert (length (objs L) = length mid) as Hlen by (by eapply Forall2_length).
  assert (forall j o, objs L !! j = Some o ->
            exists m, mid !! j = Some m /\ frz o m /\
                      objs L' !! j = Some (if decide (j = k) then b' else m)) as Hlook.
  { intros j o Hj. destruct (Forall2_lookup_l _ _ _ _ _ Hmid Hj) as (m & Hm & Hom).
    exists m. split_and!; [done..|]. rewrite Hobjs. case_decide as Hjk.
    - subst j. apply list_lookup_insert_eq. apply lookup_lt_Some in Hm. lia.
    - by rewrite list_lookup_insert_ne. }
  split.
  - done.
  - by rewrite Hobjs, length_insert, <- Hlen, (li_len k L HI).
  - intros j o0j Hj. destruct (li_objs k L HI j o0j Hj) as (o & Ho & Hrel).
    destruct (Hlook j o Ho) as (m & Hm & Hom & HL). eexists. split; [exact HL|].
    case_decide as Hjk.
    + subst j. rewrite decide_True by lia. simplify_eq.
      by eapply evolved_intro.
    + destruct (decide (j < k)%nat) as [Hlt|Hge].
      * rewrite decide_True by lia. by eapply evolved_frz.
      * rewrite decide_False by lia. by eapply frz_trans.
  - rewrite Hnext. pose proof (li_next k L HI). lia.
  - intros r Hr. rewrite Hnew in Hr.
    apply elem_of_app in Hr as [Hr|Hr]; [|apply elem_of_app in Hr as [Hr|Hr]].
    + pose proof (li_refs k L HI r Hr) as H. destruct r as [j|c].
      * destruct H as [H1 H2]. split; [lia | done].
      * destruct H as [H1 H2]. split; [lia | done].
    + apply list_elem_of_fmap in Hr as (c & -> & Hc).
      rewrite Forall_forall in Hcl. destruct (Hcl c) as (Hc1 & Hc2 & _).
      { by apply list_elem_of_In. }
      split; [|done].
      assert (ball_id c ∈ seq (nextBallId L) (length clones)) as Hin.
      { rewrite <- Hcids. by apply list_elem_of_fmap_2. }
      apply elem_of_seq in Hin. pose proof (li_next k L HI). lia.
    + destruct (expires b1) eqn:E; [by apply elem_of_nil in Hr|].
      apply list_elem_of_singleton in Hr as ->. split; [lia|].
      exists o0. split; [done|]. congruence.
  - intros j o0j Hj Hoj He. rewrite Hnew.
    destruct (decide (j = k)) as [->|Hne].
    + simplify_eq. rewrite Hexp, He.
      apply elem_of_app; right; apply elem_of_app; right.
      by apply list_elem_of_singleton.
    + apply elem_of_app. left. apply (li_kept k L HI j o0j); [lia|done..].
  - intros Hnd Hbound. rewrite Hnew, !fmap_app.
    assert (refId objs0 <$> (Fresh <$> clones) = seq (nextBallId L) (length clones)) as ->.
    { rewrite <- Hcids, <- list_fmap_compose. done. }
    pose proof (li_next k L HI) as Hc0.
    assert (refId objs0 (Old k) = ball_id o0 /\ (ball_id o0 < c0)%nat) as [Hk1 Hk2].
    { simpl. rewrite Ho0. split; [done|]. rewrite Forall_forall in Hbound.
      apply Hbound, list_elem_of_In. eapply list_elem_of_lookup_2. exact Ho0. }
    apply list.NoDup_app. split_and!.
    + by apply (li_nodup k L HI).
    + intros i Hi. apply list_elem_of_fmap in Hi as (r & -> & Hr).
      pose proof (refId_bound k L r HI Hbound Hr) as Hb.
      rewrite elem_of_app, elem_of_seq. intros [Hin|Hin].
      * destruct r as [j|c]; [destruct Hb as (_ & Hb & _)|]; lia.
      * destruct (expires b1); [by apply elem_of_nil in Hin|].
        apply list_elem_of_singleton in Hin. rewrite Hk1 in Hin.
        destruct r as [j|c]; [|lia]. destruct Hb as (Hjk & _ & Hlj).
        rewrite Hin in Hlj.
        assert ((ball_id <$> objs0) !! k = Some (ball_id o0)) as Hlk
          by (by rewrite list_lookup_fmap, Ho0).
        pose proof (NoDup_lookup _ _ _ _ Hnd Hlj Hlk). lia.
    + apply list.NoDup_app. split_and!; [apply NoDup_seq| |].
      * intros i Hi Hin. apply elem_of_seq in Hi.
        destruct (expires b1); [by apply elem_of_nil in Hin|].
        apply list_elem_of_singleton in Hin. rewrite Hk1 in Hin. lia.
      * destruct (expires b1); simpl; [constructor|apply NoDup_singleton].
  - destruct (li_log k L HI) as [evs [Ht Hns Hcons Hpk Hfz]].
    exists (evs ++ (EvPickup (ball_id b1) (team b1) <$> picked) ++ tevs).
    assert (pickups (evs ++ (EvPickup (ball_id b1) (team b1) <$> picked) ++ tevs)
            = pickups evs ++ ((fun p => (ball_id b1, team b1, p)) <$> picked)) as Hpick.
    { rewrite !pickups_app, pickups_of_pickup_events.
      rewrite (tile_events_no_pickups tevs) by done. by rewrite app_nil_r. }
    split.
    + by rewrite Htrace, Ht, <- app_assoc.
    + apply Forall_app. split; [done|]. apply Forall_app. split.
      * apply Forall_fmap, Forall_true. intros p. simpl. tauto.
      * eapply List.Forall_impl; [|exact Htevs]. intros [] He; simpl in *; tauto.
    + rewrite Hpick, fmap_app, <- list_fmap_compose. simpl.
      rewrite list_fmap_id, <- app_assoc, Hreg.
      etrans; [|exact Hcons]. apply submseteq_app; [done|].
      by apply picked_and_rest.
    + intros i t p Hin. rewrite Hpick in Hin. apply elem_of_app in Hin as [Hin|Hin].
      * destruct (Hpk i t p Hin) as (j & oj & Hj & Hoj & Hid).
        exists j, oj. split_and!; (lia || done || tauto).
      * apply list_elem_of_fmap in Hin as (q & Heq & _). simplify_eq.
        exists k, o0. split_and!; (lia || done || congruence).
    + intros i t p Hin Hty j o Hj Hteam. rewrite Hpick in Hin.
      assert (exists oL m, objs L !! j = Some oL /\ mid !! j = Some m /\ frz oL m /\
                           o = if decide (j = k) then b' else m) as (oL & m & HoL & Hm & HoLm & Ho).
      { destruct (lookup_lt_is_Some_2 (objs L) j) as [oL HoL].
        { apply lookup_lt_Some in Hj. rewrite Hobjs, length_insert in Hj. lia. }
        destruct (Hlook j oL HoL) as (m & Hm & Hom & HL). exists oL, m.
        split_and!; try done. congruence. }
      pose proof (frz_fields _ _ HoLm) as (_ & G2 & _ & _ & _ & _ & _ & _ & _ & G10).
      apply elem_of_app in Hin as [Hin|Hin].
      * (* frozen by an earlier ball of this frame *)
        case_decide as Hjk.
        -- subst j o. simplify_eq. destruct Hstep as [_ St _ _ _ Sf _].
           rewrite St in Hteam.
           destruct (Hfz i t p Hin Hty k b1 Hb1 Hteam) as [H180|[Hlt _]]; [|lia].
           rewrite Sf. unfold decFrozen. rewrite H180. unfold POWERUP_DURATION.
           destruct (expires b1); simpl; [by left|]. right. split; lia.
        -- subst o. rewrite G2 in Hteam.
           destruct (Hfz i t p Hin Hty j oL HoL Hteam) as [H180|[Hlt H179]].
           ++ left. destruct G10; congruence.
           ++ destruct G10 as [G|G]; [right; split; [lia|congruence] | by left].
      * (* frozen by this ball *)
        apply list_elem_of_fmap in Hin as (q & Heq & Hq). simplify_eq.
        assert (allFrozen (team b1) mid) as Hall.
        { apply Hfreeze. apply list.Exists_exists. by exists q. }
        case_decide as Hjk.
        -- subst j. destruct Hstep as [_ St _ _ _ _ _]. simplify_eq.
        -- left. unfold allFrozen in Hall. rewrite Forall_forall in Hall.
           apply Hall; [|done]. apply list_elem_of_In.
           eapply list_elem_of_lookup_2. exact Hm.
  - pose proof (li_count k L HI) as Hc.
    rewrite (take_S_r objs0 k o0 Ho0), list.filter_app, !length_app.
    rewrite Hnew, !length_app, length_fmap, Hsplits.
    rewrite Htrace, !splitPicks_app, splitPicks_of_pickup_events.
    assert (splitPicks tevs = 0%nat) as ->.
    { unfold splitPicks. by rewrite (tile_events_no_pickups tevs). }
    rewrite filter_cons, filter_nil, <- Hexp.
    destruct (expires b1); simpl; lia.
Qed.

End BallLoop.

(** The ball loop does not fault and establishes its invariant for the
    whole of [ballsRef.current]. *)
Lemma ballLoop_spec (env : Env) (tilesRef : Grid) (L0 : Loop) :
  gridShape tilesRef -> gridShape (newTiles L0) -> newBalls L0 = [] ->
  exists L, forM (processBall env tilesRef) L0 (seq 0 (length (objs L0))) = Some L /\
            LoopInv (objs L0) (nextBallId L0) (registry L0) (trace L0)
                    (length (objs L0)) L.
Proof.
  intros Ht Hs Hnb.
  destruct (forM_invariant (processBall env tilesRef)
              (fun done L => LoopInv (objs L0) (nextBallId L0) (registry L0) (trace L0)
                                     (length done) L)
              (seq 0 (length (objs L0))) L0) as (L & HL & HI).
  - split; try done.
    + intros j o0 Hj. exists o0. split; [done|]. rewrite decide_False by (simpl; lia).
      apply frz_refl.
    + intros r Hr. rewrite Hnb in Hr. by apply elem_of_nil in Hr.
    + simpl. intros; lia.
    + intros _ _. rewrite Hnb. constructor.
    + exists []. split; simpl.
      * by rewrite app_nil_r.
      * constructor.
      * done.
      * intros i t p Hin. by apply elem_of_nil in Hin.
      * intros i t p Hin. by apply elem_of_nil in Hin.
    + rewrite Hnb. simpl. lia.
  - intros done a L1 Hpre HI. apply prefix_of_seq in Hpre as [-> Hlt].
    rewrite length_app. simpl. rewrite Nat.add_1_r.
    by apply processBall_invariant.
  - exists L. split; [done|]. by rewrite length_seq in HI.
Qed.

(** The pieces of a frame, as [gameLoop] computes them. *)
Definition frameRegistry (env : Env) (g : Game) : list PowerUp :=
  if spawnDue (frameCount g + 1) (powerUps g)
  then powerUps g ++ [spawnPowerUp env (powerUpIdCounter g) 0] else powerUps g.

Definition frameLog (env : Env) (g : Game) : list Event :=
  if spawnDue (frameCount g + 1) (powerUps g)
  then [EvSpawn (spawnPowerUp env (powerUpIdCounter g) 0)] else [].

(** A frame on a well-shaped grid does not fault; its result is built from
    the final state [L] of the ball loop. *)
Lemma gameLoop_spec (env : Env) (g : Game) :
  gridShape (tiles g) ->
  exists L bs,
    LoopInv (balls g) (ballIdCounter g) (frameRegistry env g) (frameLog env g)
            (length (balls g)) L /\
    Forall2 (fun r b => deref (objs L) r = Some b) (newBalls L) bs /\
    let tiles' := if hasChanges L then newTiles L else tiles g in
    gridShape tiles' /\
    gameLoop env g
    = Some (mkGame bs (registry L) tiles' (frameCount g + 1)
                   (updateHighScores (frameCount g + 1)
                      (ownedBy Left tiles', ownedBy Right tiles') (highScores g))
                   (nextBallId L)
                   (if spawnDue (frameCount g + 1) (powerUps g)
                    then S (powerUpIdCounter g) else powerUpIdCounter g),
            trace L).
Proof.
  intros Hg. unfold gameLoop.
  set (L0 := mkLoop (balls g) [] _ (tiles g) false (ballIdCounter g) _ _).
  destruct (ballLoop_spec env (tiles g) L0 Hg Hg eq_refl) as (L & HL & HI).
  simpl in HL, HI. rewrite HL. cbn [mbind option_bind].
  assert (is_Some (mapM (deref (objs L)) (newBalls L))) as [bs Hbs].
  { apply mapM_is_Some, Forall_forall. intros r Hr.
    apply list_elem_of_In in Hr.
    pose proof (li_refs _ _ _ _ _ _ HI r Hr) as H. destruct r as [j|c]; simpl; [|done].
    apply lookup_lt_is_Some_2. rewrite (li_len _ _ _ _ _ _ HI). lia. }
  rewrite Hbs. cbn [mbind option_bind].
  assert (gridShape (if hasChanges L then newTiles L else tiles g)) as Hshape.
  { destruct (hasChanges L); [|done]. apply (li_shape _ _ _ _ _ _ HI). }
  rewrite (countTiles_spec _ Hshape). cbn [mbind option_bind].
  exists L, bs. split_and!; try done.
  by apply mapM_Some_1.
Qed.

(** ** Facts about one frame, on the game state *)

Lemma Forall2_fmap_eq {A B C : Type} (R : A -> B -> Prop) (f : B -> C) (h : A -> C)
    (l : list A) (k : list B) :
  Forall2 R l k -> (forall a b, a ∈ l -> R a b -> f b = h a) -> f <$> k = h <$> l.
Proof.
  induction 1 as [|a b l k Hab _ IH]; intros Hfh; [done|]. simpl. f_equal.
  - apply Hfh; [by left | done].
  - apply IH. intros a' b' Ha'. apply Hfh. by right.
Qed.

Lemma gameLoop_total (env : Env) (g : Game) :
  gridShape (tiles g) -> exists g' tr, gameLoop env g = Some (g', tr).
Proof.
  intros Hg. destruct (gameLoop_spec env g Hg) as (L & bs & _ & _ & _ & Heq). eauto.
Qed.

Lemma frame_grid (env : Env) (g g' : Game) (tr : list Event) :
  gridShape (tiles g) -> gameLoop env g = Some (g', tr) ->
  gridShape (tiles g') /\ frameCount g' = frameCount g + 1 /\
  highScores g' = updateHighScores (frameCount g')
                    (ownedBy Left (tiles g'), ownedBy Right (tiles g')) (highScores g).
Proof.
  intros Hg H. destruct (gameLoop_spec env g Hg) as (L & bs & _ & _ & Hsh & Heq).
  rewrite Heq in H. by simplify_eq.
Qed.

(** Power-ups: the log of a frame starts with the spawn, if any; what was
    consumed and what is left fit in the registry after the spawn. *)
Lemma frame_registry (env : Env) (g g' : Game) (tr : list Event) :
  gridShape (tiles g) -> gameLoop env g = Some (g', tr) ->
  exists evs,
    tr = frameLog env g ++ evs /\ Forall (fun e => ~ isSpawn e) evs /\
    pickups tr = pickups evs /\
    (snd <$> pickups tr) ++ powerUps g' ⊆+ frameRegistry env g /\
    powerUpIdCounter g' = (if spawnDue (frameCount g + 1) (powerUps g)
                           then S (powerUpIdCounter g) else powerUpIdCounter g).
Proof.
  intros Hg H. destruct (gameLoop_spec env g Hg) as (L & bs & HI & _ & _ & Heq).
  rewrite Heq in H. simplify_eq. simpl.
  destruct (li_log _ _ _ _ _ _ HI) as [evs [Ht Hns Hcons _ _]].
  exists evs.
  assert (pickups (trace L) = pickups evs) as Hp.
  { rewrite Ht, pickups_app. unfold frameLog. by destruct (spawnDue _ _). }
  split_and!; try done. by rewrite Hp.
Qed.

(** Ids are unique and below the counter. *)
Definition wfBalls (g : Game) : Prop :=
  NoDup (ball_id <$> balls g) /\
  Forall (fun b => (ball_id b < ballIdCounter g)%nat) (balls g).

(** A clone made in the frame that led from [g] to [g']. *)
Definition freshClone (g g' : Game) (b : Ball) : Prop :=
  (ballIdCounter g <= ball_id b < ballIdCounter g')%nat /\
  isClone b = true /\ cloneExpires b = POWERUP_DURATION * 2.

Lemma frame_balls (env : Env) (g g' : Game) (tr : list Event) :
  gridShape (tiles g) -> gameLoop env g = Some (g', tr) ->
  (ballIdCounter g <= ballIdCounter g')%nat /\
  (forall b', b' ∈ balls g' ->
     (exists j o0, balls g !! j = Some o0 /\ expires o0 = false /\ Evolved o0 b') \/
     freshClone g g' b') /\
  (forall j o0, balls g !! j = Some o0 -> expires o0 = false ->
     exists b', b' ∈ balls g' /\ Evolved o0 b') /\
  (wfBalls g -> wfBalls g').
Proof.
  intros Hg H. destruct (gameLoop_spec env g Hg) as (L & bs & HI & Hbs & _ & Heq).
  rewrite Heq in H. simplify_eq. simpl.
  assert (forall r b, r ∈ newBalls L -> deref (objs L) r = Some b ->
            match r with
            | Old j => exists o0, balls g !! j = Some o0 /\ expires o0 = false /\ Evolved o0 b
            | Fresh c => b = c
            end) as Hderef.
  { intros r b Hr Hd. pose proof (li_refs _ _ _ _ _ _ HI r Hr) as Href.
    destruct r as [j|c]; simpl in Hd; [|congruence].
    destruct Href as (Hj & o0 & Ho0 & Hexp). exists o0. split_and!; [done..|].
    destruct (li_objs _ _ _ _ _ _ HI j o0 Ho0) as (o & Ho & Hev).
    rewrite decide_True in Hev by done. congruence. }
  split_and!.
  - apply (li_next _ _ _ _ _ _ HI).
  - intros b' Hb'. apply list_elem_of_lookup in Hb' as [n Hn].
    destruct (Forall2_lookup_r _ _ _ _ _ Hbs Hn) as (r & Hr & Hd).
    assert (r ∈ newBalls L) as Hin by (by eapply list_elem_of_lookup_2).
    pose proof (Hderef r b' Hin Hd) as Hc.
    pose proof (li_refs _ _ _ _ _ _ HI r Hin) as Href.
    destruct r as [j|c].
    + left. destruct Hc as (o0 & ? & ? & ?). by exists j, o0.
    + right. subst c. done.
  - intros j o0 Hj Hexp.
    assert (Old j ∈ newBalls L) as Hin.
    { apply (li_kept _ _ _ _ _ _ HI j o0); [|done..]. by eapply lookup_lt_Some. }
    apply list_elem_of_lookup in Hin as [n Hn].
    destruct (Forall2_lookup_l _ _ _ _ _ Hbs Hn) as (b' & Hb' & Hd).
    exists b'. split; [by eapply list_elem_of_lookup_2|].
    destruct (Hderef (Old j) b') as (o0' & Ho0' & _ & Hev); [|done|].
    { by eapply list_elem_of_lookup_2. }
    congruence.
  - intros [Hnd Hbound]. unfold wfBalls. simpl.
    assert (ball_id <$> bs = refId (balls g) <$> newBalls L) as Hids.
    { eapply Forall2_fmap_eq; [exact Hbs|]. intros r b Hr Hd.
      pose proof (Hderef r b Hr Hd) as Hc. destruct r as [j|c]; simpl; [|congruence].
      destruct Hc as (o0 & -> & _ & Hev). simpl. by destruct Hev. }
    split.
    + rewrite Hids. by apply (li_nodup _ _ _ _ _ _ HI).
    + assert (Forall (fun i => (i < nextBallId L)%nat) (ball_id <$> bs)) as HF;
        [|by rewrite Forall_fmap in HF].
      rewrite Hids. apply Forall_fmap, Forall_forall. intros r Hr.
      apply list_elem_of_In in Hr.
      pose proof (refId_bound _ _ _ _ _ _ r HI Hbound Hr) as Hb.
      pose proof (li_next _ _ _ _ _ _ HI).
      destruct r as [j|c]; simpl in *; [destruct Hb as (_ & Hb & _)|]; lia.
Qed.


Lemma mountGame_wf (w h : R) (rnd : nat -> R) : wfBalls (mountGame w h rnd).
Proof.
  split; simpl.
  - apply NoDup_cons_2; [|apply NoDup_singleton].
    intros H. apply list_elem_of_singleton in H. discriminate.
  - repeat constructor; simpl; lia.
Qed.

(** After a freeze pickup by team [t], every object of the other team that
    was in [ballsRef.current] at the start of the frame ends the frame with
    a freeze timer of 180 (processed before the picker, or about to be
    removed) or 179 (processed after it). *)
Lemma frame_freeze (env : Env) (g g' : Game) (tr : list Event) (i : nat) (t : Team)
    (p : PowerUp) :
  gridShape (tiles g) -> gameLoop env g = Some (g', tr) ->
  EvPickup i t p ∈ tr -> pu_type p = Some Freeze ->
  forall b', b' ∈ balls g' -> team b' <> t -> (ball_id b' < ballIdCounter g)%nat ->
    frozen b' = POWERUP_DURATION \/ frozen b' = POWERUP_DURATION - 1.
Proof.
  intros Hg H Hev Hty b' Hb' Hteam Hold.
  destruct (gameLoop_spec env g Hg) as (L & bs & HI & Hbs & _ & Heq).
  rewrite Heq in H. simplify_eq. simpl in *.
  destruct (li_log _ _ _ _ _ _ HI) as [evs [Ht _ _ _ Hfz]].
  assert ((i, t, p) ∈ pickups evs) as Hin.
  { apply elem_of_pickups. rewrite Ht in Hev. apply elem_of_app in Hev as [Hev|Hev]; [|done].
    unfold frameLog in Hev. destruct (spawnDue _ _).
    - apply list_elem_of_singleton in Hev. done.
    - by apply elem_of_nil in Hev. }
  apply list_elem_of_lookup in Hb' as [n Hn].
  destruct (Forall2_lookup_r _ _ _ _ _ Hbs Hn) as (r & Hr & Hd).
  assert (r ∈ newBalls L) as Hrin by (by eapply list_elem_of_lookup_2).
  pose proof (li_refs _ _ _ _ _ _ HI r Hrin) as Href.
  destruct r as [j|c]; simpl in Hd.
  - destruct (Hfz i t p Hin Hty j b' Hd Hteam) as [?|[_ ?]]; auto.
  - simplify_eq. lia.
Qed.

(** ** Runs of several frames *)

Lemma run_cons (env : Env) (envs : list Env) (g g1 g2 : Game) (tr1 tr2 : list Event) :
  gameLoop env g = Some (g1, tr1) -> run envs g1 = Some (g2, tr2) ->
  run (env :: envs) g = Some (g2, tr1 ++ tr2).
Proof. intros H1 H2. simpl. rewrite H1. simpl. by rewrite H2. Qed.

Lemma run_cons_inv (env : Env) (envs : list Env) (g g2 : Game) (tr : list Event) :
  run (env :: envs) g = Some (g2, tr) ->
  exists g1 tr1 tr2, gameLoop env g = Some (g1, tr1) /\ run envs g1 = Some (g2, tr2) /\
                     tr = tr1 ++ tr2.
Proof.
  simpl. destruct (gameLoop env g) as [[g1 tr1]|] eqn:E1; simpl; [|done].
  destruct (run envs g1) as [[g2' tr2]|] eqn:E2; simpl; [|done].
  intros H. simplify_eq. by exists g1, tr1, tr2.
Qed.

(** A run from a well-shaped grid never faults, keeps the shape, and counts
    its frames. *)
Lemma run_total (envs : list Env) (g : Game) :
  gridShape (tiles g) ->
  exists g' tr, run envs g = Some (g', tr) /\ gridShape (tiles g') /\
                frameCount g' = frameCount g + Z.of_nat (length envs).
Proof.
  revert g. induction envs as [|env envs IH]; intros g Hg.
  - exists g, []. simpl. split_and!; try done; lia.
  - destruct (gameLoop_total env g Hg) as (g1 & tr1 & H1).
    destruct (frame_grid env g g1 tr1 Hg H1) as (Hg1 & Hfc & _).
    destruct (IH g1 Hg1) as (g2 & tr2 & H2 & Hg2 & Hfc2).
    exists g2, (tr1 ++ tr2). split_and!; [by eapply run_cons | done |].
    rewrite Hfc2, Hfc. simpl length. lia.
Qed.

Lemma run_snoc (envs : list Env) (env : Env) (g g1 g2 : Game) (tr1 tr2 : list Event) :
  run envs g = Some (g1, tr1) -> gameLoop env g1 = Some (g2, tr2) ->
  run (envs ++ [env]) g = Some (g2, tr1 ++ tr2).
Proof.
  revert g tr1. induction envs as [|e envs IH]; intros g tr1 H1 H2.
  - simpl in H1. simplify_eq. simpl. rewrite H2. simpl. by rewrite app_nil_r.
  - apply run_cons_inv in H1 as (ga & tra & trb & Ha & Hb & ->).
    rewrite <- app_assoc. eapply run_cons; [done|]. by eapply IH.
Qed.

Lemma updateHighScores_max (fc : Z) (counts high : Z * Z) :
  HIGHSCORE_DELAY < fc ->
  updateHighScores fc counts high = (Z.max (fst high) (fst counts), Z.max (snd high) (snd counts)).
Proof.
  intros H. unfold updateHighScores. apply Z.ltb_lt in H. rewrite H.
  f_equal; case_match; lia.
Qed.

Lemma updateHighScores_frozen (fc : Z) (counts high : Z * Z) :
  fc <= HIGHSCORE_DELAY -> updateHighScores fc counts high = high.
Proof.
  intros H. unfold updateHighScores. apply Z.ltb_ge in H. by rewrite H.
Qed.

Lemma updateHighScores_mono (fc : Z) (counts high : Z * Z) :
  fst high <= fst (updateHighScores fc counts high) /\
  snd high <= snd (updateHighScores fc counts high).
Proof. unfold updateHighScores. repeat case_match; simpl; lia. Qed.

(** * The claims *)

(** ** Tile ownership and counts *)

(** C6: at every frame (after any number of frames from start-up, for any
    balls and any inputs) the frame has run without fault, every cell of the
    12 x 20 grid exists and has one owner, Left or Right, [countTiles]
    returns the number of cells of each team, and the two counts add up to
    ROWS * COLS = 240. *)
Theorem tiles_always_partitioned (envs : list Env) (bs : list Ball) (idc : nat) :
  exists g tr,
    run envs (initialGame bs idc) = Some (g, tr) /\
    gridShape (tiles g) /\
    (forall r c, inGrid r c = true ->
       exists t, getTile (tiles g) r c = Some t /\
                 (tile_team t = Left \/ tile_team t = Right)) /\
    countTiles (tiles g) = Some (ownedBy Left (tiles g), ownedBy Right (tiles g)) /\
    ownedBy Left (tiles g) + ownedBy Right (tiles g) = ROWS * COLS /\
    ROWS * COLS = 240.
Proof.
  destruct (run_total envs (initialGame bs idc) createInitialTiles_shape)
    as (g & tr & Hrun & Hshape & _).
  exists g, tr. split_and!; try done.
  - intros r c Hin. destruct (getTile_is_Some _ r c Hshape Hin) as [t Ht].
    exists t. split; [done|]. destruct (tile_team t); auto.
  - by apply countTiles_spec.
  - by apply ownedBy_total.
Qed.

(** ** High scores *)

Lemma run_initial_scores (envs : list Env) (g g' : Game) (tr : list Event) :
  gridShape (tiles g) -> run envs g = Some (g', tr) ->
  frameCount g' <= HIGHSCORE_DELAY -> 0 <= frameCount g ->
  highScores g' = highScores g.
Proof.
  revert g tr. induction envs as [|env envs IH]; intros g tr Hg Hrun Hfc H0.
  - simpl in Hrun. by simplify_eq.
  - apply run_cons_inv in Hrun as (g1 & tr1 & tr2 & H1 & H2 & ->).
    destruct (frame_grid env g g1 tr1 Hg H1) as (Hg1 & Hfc1 & Hhs).
    destruct (run_total envs g1 Hg1) as (g2 & tr2' & H2' & _ & Hfc2).
    rewrite H2 in H2'. simplify_eq.
    rewrite (IH g1 tr2' Hg1 H2 Hfc) by lia.
    rewrite Hhs. apply updateHighScores_frozen. lia.
Qed.

(** C4: after any number of frames from start-up the frame index is the
    number of frames run; while it is at most 600 both high scores are the
    even split ROWS * COLS / 2 = 120; and the next frame, whatever its
    inputs, sets each high score to max(currentHigh, currentCount) if its
    index exceeds 600, and never lowers a high score. *)
Theorem high_scores_policy (envs : list Env) (bs : list Ball) (idc : nat) :
  exists g tr,
    run envs (initialGame bs idc) = Some (g, tr) /\
    frameCount g = Z.of_nat (length envs) /\
    (frameCount g <= HIGHSCORE_DELAY ->
       highScores g = (COLS * ROWS / 2, COLS * ROWS / 2) /\ COLS * ROWS / 2 = 120) /\
    forall env, exists g' tr' left right,
      gameLoop env g = Some (g', tr') /\
      frameCount g' = frameCount g + 1 /\
      countTiles (tiles g') = Some (left, right) /\
      (frameCount g' <= HIGHSCORE_DELAY -> highScores g' = highScores g) /\
      (HIGHSCORE_DELAY < frameCount g' ->
         highScores g' = (Z.max (fst (highScores g)) left,
                          Z.max (snd (highScores g)) right)) /\
      fst (highScores g) <= fst (highScores g') /\
      snd (highScores g) <= snd (highScores g').
Proof.
  destruct (run_total envs (initialGame bs idc) createInitialTiles_shape)
    as (g & tr & Hrun & Hshape & Hfc).
  exists g, tr. split_and!; try done.
  - intros Hle. split; [|done].
    by rewrite (run_initial_scores envs (initialGame bs idc) g tr
                  createInitialTiles_shape Hrun Hle).
  - intros env. destruct (gameLoop_total env g Hshape) as (g' & tr' & Hstep).
    destruct (frame_grid env g g' tr' Hshape Hstep) as (Hg' & Hfc' & Hhs).
    exists g', tr', (ownedBy Left (tiles g')), (ownedBy Right (tiles g')).
    split_and!; try done.
    + by apply countTiles_spec.
    + intros Hle. rewrite Hhs. by apply updateHighScores_frozen.
    + intros Hgt. rewrite Hhs. by apply updateHighScores_max.
    + rewrite Hhs. apply updateHighScores_mono.
    + rewrite Hhs. apply updateHighScores_mono.
Qed.

(** ** Following one ball through frames *)

Lemma same_id_same_ball (l : list Ball) (a b : Ball) :
  NoDup (ball_id <$> l) -> a ∈ l -> b ∈ l -> ball_id a = ball_id b -> a = b.
Proof.
  intros Hnd Ha Hb Hid.
  apply list_elem_of_lookup in Ha as [i Hi]. apply list_elem_of_lookup in Hb as [j Hj].
  assert ((ball_id <$> l) !! i = Some (ball_id a)) as Hi' by (by rewrite list_lookup_fmap, Hi).
  assert ((ball_id <$> l) !! j = Some (ball_id a)) as Hj'
    by (by rewrite list_lookup_fmap, Hj, Hid).
  pose proof (NoDup_lookup _ _ _ _ Hnd Hi' Hj'). subst. congruence.
Qed.

(** The ball of [g'] that carries the id of [b], if any, is [b] evolved. *)
Lemma frame_same_id (env : Env) (g g' : Game) (tr : list Event) (b b' : Ball) :
  gridShape (tiles g) -> wfBalls g -> gameLoop env g = Some (g', tr) ->
  b ∈ balls g -> b' ∈ balls g' -> ball_id b' = ball_id b ->
  expires b = false /\ Evolved b b'.
Proof.
  intros Hg [Hnd Hbound] H Hb Hb' Hid.
  destruct (frame_balls env g g' tr Hg H) as (_ & Horigin & _ & _).
  destruct (Horigin b' Hb') as [(j & o0 & Hj & Hexp & Hev)|[Hfresh _]].
  - assert (o0 = b) as ->; [|done].
    apply (same_id_same_ball (balls g)); try done.
    + by eapply list_elem_of_lookup_2.
    + destruct Hev. congruence.
  - rewrite Forall_forall in Hbound. apply list_elem_of_In, Hbound in Hb. lia.
Qed.

(** An id below the counter that no live ball carries is never used again. *)
Lemma absent_stays_absent (envs : list Env) (g g' : Game) (tr : list Event) (i : nat) :
  gridShape (tiles g) -> run envs g = Some (g', tr) ->
  (i < ballIdCounter g)%nat -> (forall b, b ∈ balls g -> ball_id b <> i) ->
  forall b', b' ∈ balls g' -> ball_id b' <> i.
Proof.
  revert g tr. induction envs as [|env envs IH]; intros g tr Hg Hrun Hi Habs.
  - simpl in Hrun. by simplify_eq.
  - apply run_cons_inv in Hrun as (g1 & tr1 & tr2 & H1 & H2 & ->).
    destruct (frame_grid env g g1 tr1 Hg H1) as (Hg1 & _).
    destruct (frame_balls env g g1 tr1 Hg H1) as (Hc & Horigin & _ & _).
    apply (IH g1 tr2 Hg1 H2); [lia|].
    intros b Hb. destruct (Horigin b Hb) as [(j & o0 & Hj & _ & Hev)|[Hfresh _]].
    + destruct Hev as [-> _ _ _ _ _ _]. apply Habs. by eapply list_elem_of_lookup_2.
    + lia.
Qed.

Lemma run_wf (envs : list Env) (g g' : Game) (tr : list Event) :
  gridShape (tiles g) -> wfBalls g -> run envs g = Some (g', tr) -> wfBalls g'.
Proof.
  revert g tr. induction envs as [|env envs IH]; intros g tr Hg Hwf Hrun.
  - simpl in Hrun. by simplify_eq.
  - apply run_cons_inv in Hrun as (g1 & tr1 & tr2 & H1 & H2 & ->).
    destruct (frame_grid env g g1 tr1 Hg H1) as (Hg1 & _).
    destruct (frame_balls env g g1 tr1 Hg H1) as (_ & _ & _ & Hwf1).
    eapply IH; eauto.
Qed.

(** A ball that leaves the live set in a frame is gone for good. *)
Lemma expired_is_gone (env : Env) (envs : list Env) (g g1 g' : Game)
    (tr1 tr : list Event) (b : Ball) :
  gridShape (tiles g) -> wfBalls g -> b ∈ balls g -> expires b = true ->
  gameLoop env g = Some (g1, tr1) -> run envs g1 = Some (g', tr) ->
  forall b', b' ∈ balls g' -> ball_id b' <> ball_id b.
Proof.
  intros Hg Hwf Hb Hexp H1 H2.
  destruct (frame_grid env g g1 tr1 Hg H1) as (Hg1 & _).
  destruct (frame_balls env g g1 tr1 Hg H1) as (Hc & _ & _ & _).
  apply (absent_stays_absent envs g1 g' tr _ Hg1 H2).
  - destruct Hwf as [_ Hbound]. rewrite Forall_forall in Hbound.
    apply list_elem_of_In, Hbound in Hb. lia.
  - intros b1 Hb1 Hid.
    destruct (frame_same_id env g g1 tr1 b b1 Hg Hwf H1 Hb Hb1 Hid) as [He _]. congruence.
Qed.

(** A frozen ball stays where it is for as long as its timer, capped at
    180, exceeds the number of frames run. *)
Lemma frozen_stays_put (envs : list Env) (g : Game) (b : Ball) :
  gridShape (tiles g) -> wfBalls g -> b ∈ balls g ->
  Z.of_nat (length envs) < Z.min (frozen b) POWERUP_DURATION ->
  exists g' tr, run envs g = Some (g', tr) /\
    (forall b', b' ∈ balls g' -> ball_id b' = ball_id b -> x b' = x b /\ y b' = y b) /\
    (isClone b = false -> exists b', b' ∈ balls g' /\ ball_id b' = ball_id b).
Proof.
  revert g b. induction envs as [|env envs IH]; intros g b Hg Hwf Hb Hlen.
  - exists g, []. split_and!; [done| |by exists b].
    intros b' Hb' Hid. destruct Hwf as [Hnd _].
    by rewrite (same_id_same_ball (balls g) b' b Hnd Hb' Hb Hid).
  - destruct (gameLoop_total env g Hg) as (g1 & tr1 & H1).
    destruct (frame_grid env g g1 tr1 Hg H1) as (Hg1 & _).
    destruct (frame_balls env g g1 tr1 Hg H1) as (_ & _ & Hsurv & Hwf1).
    specialize (Hwf1 Hwf). simpl length in Hlen.
    destruct (expires b) eqn:Hexp.
    + destruct (run_total envs g1 Hg1) as (g' & tr & H2 & _).
      exists g', (tr1 ++ tr). split_and!; [by eapply run_cons| |].
      * intros b' Hb' Hid. exfalso.
        by eapply (expired_is_gone env envs g g1 g' tr1 tr b).
      * intros Hcl. unfold expires in Hexp. rewrite Hcl in Hexp. done.
    + apply list_elem_of_lookup in Hb as Hlook. destruct Hlook as [j Hj].
      destruct (Hsurv j b Hj Hexp) as (b1 & Hb1 & Hev).
      destruct Hev as [Eid _ Ecl _ _ Est Efz].
      destruct Est as (Ex & Ey & _); [right; lia|].
      specialize (Efz ltac:(lia)).
      destruct (IH g1 b1 Hg1 Hwf1 Hb1) as (g' & tr & H2 & Hsame & Hstay).
      { unfold POWERUP_DURATION in *. lia. }
      exists g', (tr1 ++ tr). split_and!; [by eapply run_cons| |].
      * intros b' Hb' Hid. rewrite <- Ex, <- Ey. apply Hsame; [done|congruence].
      * intros Hcl. destruct Hstay as (b' & ? & ?); [congruence|].
        exists b'. split; [done|congruence].
Qed.

(** ** Clones *)

Lemma clone_countdown (envs : list Env) (g : Game) (b : Ball) (k : Z) :
  gridShape (tiles g) -> wfBalls g -> b ∈ balls g ->
  isClone b = true -> cloneExpires b = k -> 0 < k ->
  exists g' tr, run envs g = Some (g', tr) /\
    (Z.of_nat (length envs) < k ->
       exists b', b' ∈ balls g' /\ ball_id b' = ball_id b /\ isClone b' = true /\
                  cloneExpires b' = k - Z.of_nat (length envs)) /\
    (k <= Z.of_nat (length envs) ->
       forall b', b' ∈ balls g' -> ball_id b' <> ball_id b).
Proof.
  revert g b k. induction envs as [|env envs IH]; intros g b k Hg Hwf Hb Hcl Hk Hpos.
  - exists g, []. split_and!; [done| |simpl; lia].
    intros _. exists b. simpl. split_and!; try done. lia.
  - destruct (gameLoop_total env g Hg) as (g1 & tr1 & H1).
    destruct (frame_grid env g g1 tr1 Hg H1) as (Hg1 & _).
    destruct (frame_balls env g g1 tr1 Hg H1) as (_ & _ & Hsurv & Hwf1).
    specialize (Hwf1 Hwf). simpl length.
    destruct (expires b) eqn:Hexp.
    + assert (k = 1) as ->.
      { unfold expires in Hexp. rewrite Hcl, Hk in Hexp.
        apply andb_true_iff in Hexp as [_ Hexp]. lia. }
      destruct (run_total envs g1 Hg1) as (g' & tr & H2 & _).
      exists g', (tr1 ++ tr). split_and!; [by eapply run_cons|lia|].
      intros _. by eapply (expired_is_gone env envs g g1 g' tr1 tr b).
    + assert (1 < k) as Hk1.
      { unfold expires in Hexp. rewrite Hcl, Hk in Hexp.
        apply andb_false_iff in Hexp as [Hexp|Hexp]; [|lia].
        apply andb_false_iff in Hexp as [?|?]; [done|lia]. }
      apply list_elem_of_lookup in Hb as Hlook. destruct Hlook as [j Hj].
      destruct (Hsurv j b Hj Hexp) as (b1 & Hb1 & Hev).
      destruct Hev as [Eid _ Ecl _ Ece _ _].
      assert (cloneExpires b1 = k - 1) as Hk'.
      { rewrite Ece. unfold decExpires. rewrite Hcl, Hk.
        replace (0 <? k) with true by (symmetry; apply Z.ltb_lt; lia). done. }
      destruct (IH g1 b1 (k - 1) Hg1 Hwf1 Hb1) as (g' & tr & H2 & Hlive & Hgone);
        [congruence|done|lia|].
      exists g', (tr1 ++ tr). split_and!; [by eapply run_cons| |].
      * intros Hlt. destruct Hlive as (b' & ? & ? & ? & ?); [lia|].
        exists b'. split_and!; try done; [congruence|lia].
      * intros Hge b' Hb'. rewrite <- Eid. apply Hgone; [lia|done].
Qed.

(** C8: a clone in the live set with [cloneExpires] = 360, as [makeClone]
    creates it, is still live (with the counter decreased by the number of
    frames) after fewer than 360 further frames, and is in no live set after
    360 frames or more, whatever the frames' inputs.  In the frame that
    removes it (the counter is 1 when the frame starts) the only write is the
    decrement of the counter: the ball is not pushed to [newBalls], and the
    registry, the grid, the log and every other field stay as they were. *)
Theorem clone_removed_after_360_frames (g : Game) (b : Ball) (envs : list Env) :
  gridShape (tiles g) -> wfBalls g -> b ∈ balls g ->
  isClone b = true -> cloneExpires b = POWERUP_DURATION * 2 ->
  POWERUP_DURATION * 2 = 360 /\
  (exists g' tr, run envs g = Some (g', tr) /\
     (Z.of_nat (length envs) < 360 ->
        exists b', b' ∈ balls g' /\ ball_id b' = ball_id b /\ isClone b' = true /\
                   cloneExpires b' = 360 - Z.of_nat (length envs)) /\
     (360 <= Z.of_nat (length envs) ->
        forall b', b' ∈ balls g' -> ball_id b' <> ball_id b)) /\
  (forall env tilesRef L i o,
     objs L !! i = Some o -> isClone o = true -> cloneExpires o = 1 ->
     processBall env tilesRef L i
     = Some (set_objs (<[i := set_cloneExpires 0 o]> (objs L)) L)).
Proof.
  intros Hg Hwf Hb Hcl Hk. split_and!; [done| |].
  - by apply (clone_countdown envs g b 360).
  - intros env tilesRef L i o Hi Hc H1.
    rewrite (processBall_expired env tilesRef L i o Hi).
    + by rewrite H1.
    + unfold expires. by rewrite Hc, H1.
Qed.

(** ** Freeze *)

(** C3, as the code has it: when a ball of team [t] picks up a "freeze"
    power-up in a frame, every ball of the other team that was already live
    when the frame started and is live when it ends has a freeze timer of
    180 or 179 at the end of that frame (179 when it was processed after the
    pickup), and its position is unchanged over any number of further frames
    smaller than that timer; if it is not a clone it is still live then. *)
Theorem freeze_pickup_effect (env : Env) (g g' : Game) (tr : list Event)
    (picker : nat) (t : Team) (p : PowerUp) (b : Ball) :
  gridShape (tiles g) -> wfBalls g -> gameLoop env g = Some (g', tr) ->
  EvPickup picker t p ∈ tr -> pu_type p = Some Freeze ->
  b ∈ balls g' -> team b <> t -> (ball_id b < ballIdCounter g)%nat ->
  (frozen b = 180 \/ frozen b = 179) /\
  forall envs, Z.of_nat (length envs) < frozen b ->
    exists g'' tr', run envs g' = Some (g'', tr') /\
      (forall b', b' ∈ balls g'' -> ball_id b' = ball_id b -> x b' = x b /\ y b' = y b) /\
      (isClone b = false -> exists b', b' ∈ balls g'' /\ ball_id b' = ball_id b).
Proof.
  intros Hg Hwf H Hev Hty Hb Hteam Hold.
  pose proof (frame_freeze env g g' tr picker t p Hg H Hev Hty b Hb Hteam Hold) as Hfz.
  unfold POWERUP_DURATION in Hfz. split; [lia|].
  intros envs Hlen.
  destruct (frame_grid env g g' tr Hg H) as (Hg' & _).
  destruct (frame_balls env g g' tr Hg H) as (_ & _ & _ & Hwf').
  apply frozen_stays_put; auto. unfold POWERUP_DURATION. lia.
Qed.

(** ** Power-ups are consumed once *)

(** The ids in the registry and the ids consumed so far are pairwise
    distinct and below the id counter. *)
Definition regInv (g : Game) (consumed : list nat) : Prop :=
  NoDup ((pu_id <$> powerUps g) ++ consumed) /\
  Forall (fun i => (i < powerUpIdCounter g)%nat) ((pu_id <$> powerUps g) ++ consumed).

Lemma pickIds_fmap (tr : list Event) : pickIds tr = pu_id <$> (snd <$> pickups tr).
Proof. unfold pickIds. by rewrite <- list_fmap_compose. Qed.

Lemma frame_regInv (env : Env) (g g' : Game) (tr : list Event) (consumed : list nat) :
  gridShape (tiles g) -> gameLoop env g = Some (g', tr) ->
  regInv g consumed -> regInv g' (consumed ++ pickIds tr).
Proof.
  intros Hg H [Hnd Hbound].
  destruct (frame_registry env g g' tr Hg H) as (evs & _ & _ & _ & Hsub & Hctr).
  apply (fmap_submseteq pu_id) in Hsub. rewrite fmap_app, <- pickIds_fmap in Hsub.
  assert (NoDup ((pu_id <$> frameRegistry env g) ++ consumed) /\
          Forall (fun i => (i < powerUpIdCounter g')%nat)
                 ((pu_id <$> frameRegistry env g) ++ consumed))
    as [Hnd' Hbound'].
  { unfold frameRegistry. rewrite Hctr.
    destruct (spawnDue _ _); [|done].
    rewrite fmap_app. simpl. split.
    - rewrite <- app_assoc. rewrite (comm (++) [powerUpIdCounter g]), app_assoc.
      apply list.NoDup_app. split_and!; [done| |apply NoDup_singleton].
      intros i Hi Hin. apply list_elem_of_singleton in Hin. subst.
      rewrite Forall_forall in Hbound. apply list_elem_of_In, Hbound in Hi. lia.
    - rewrite <- app_assoc. rewrite (comm (++) [powerUpIdCounter g]), app_assoc.
      apply Forall_app. split; [|repeat constructor; lia].
      eapply List.Forall_impl; [|exact Hbound]. simpl. intros; lia. }
  assert ((pu_id <$> powerUps g') ++ consumed ++ pickIds tr
          ⊆+ (pu_id <$> frameRegistry env g) ++ consumed) as Hall.
  { rewrite (comm (++) consumed), app_assoc.
    apply submseteq_app; [|done]. by rewrite (comm (++) (pu_id <$> powerUps g')). }
  split.
  - by eapply submseteq_NoDup.
  - apply Forall_forall. intros i Hi. rewrite Forall_forall in Hbound'.
    apply Hbound'. apply list_elem_of_In.
    eapply elem_of_submseteq; [|exact Hall]. by apply list_elem_of_In.
Qed.

Lemma run_regInv (envs : list Env) (g g' : Game) (tr : list Event) (consumed : list nat) :
  gridShape (tiles g) -> run envs g = Some (g', tr) ->
  regInv g consumed -> regInv g' (consumed ++ pickIds tr).
Proof.
  revert g tr consumed. induction envs as [|env envs IH]; intros g tr consumed Hg Hrun HI.
  - simpl in Hrun. simplify_eq. by rewrite app_nil_r.
  - apply run_cons_inv in Hrun as (g1 & tr1 & tr2 & H1 & H2 & ->).
    destruct (frame_grid env g g1 tr1 Hg H1) as (Hg1 & _).
    rewrite pickIds_app, app_assoc. apply (IH g1 tr2); [done..|].
    by apply (frame_regInv env g).
Qed.

(** C10: over any run from start-up the ids of the consumed power-ups are
    pairwise distinct (each instance is consumed at most once, across all
    balls and frames) and none of them is in the registry any more; and the
    processing of one ball consumes a sublist of the registry (each power-up
    visited once), logs one pickup per consumed power-up and leaves to the
    balls processed after it a registry without any consumed id. *)
Theorem powerup_consumed_at_most_once (envs : list Env) (bs : list Ball) (idc : nat) :
  (exists g tr,
     run envs (initialGame bs idc) = Some (g, tr) /\
     NoDup (pickIds tr) /\
     (forall i, i ∈ pickIds tr -> i ∉ pu_id <$> powerUps g)) /\
  (forall env tilesRef L i b0,
     objs L !! i = Some b0 -> gridShape tilesRef -> gridShape (newTiles L) ->
     exists L' picked evs,
       processBall env tilesRef L i = Some L' /\
       trace L' = trace L ++ (EvPickup (ball_id b0) (team b0) <$> picked) ++ evs /\
       Forall isTileEvent evs /\
       picked `sublist_of` registry L /\
       registry L' = filter (fun p => pu_id p ∉ pu_id <$> picked) (registry L) /\
       (forall p, p ∈ picked -> pu_id p ∉ pu_id <$> registry L')).
Proof.
  split.
  - destruct (run_total envs (initialGame bs idc) createInitialTiles_shape)
      as (g & tr & Hrun & _ & _).
    exists g, tr. split; [done|].
    destruct (run_regInv envs (initialGame bs idc) g tr [] createInitialTiles_shape Hrun)
      as [Hnd _].
    { split; simpl; constructor. }
    simpl in Hnd. apply list.NoDup_app in Hnd as (_ & Hdisj & Hnd). split; [done|].
    intros i Hi Hin. by apply (Hdisj i).
  - intros env tilesRef L i b0 Hi Ht Hs.
    destruct (processBall_spec env tilesRef L i b0 Hi Ht Hs)
      as (L' & b' & mid & clones & picked & evs & HL' & _ & _ & _ & _ & _ & _ & _ &
          Hsub & Hreg & Htrace & Hevs & _).
    exists L', picked, evs. split_and!; try done.
    intros p Hp Hin. rewrite Hreg in Hin.
    apply list_elem_of_fmap in Hin as (q & Hq & Hqin).
    apply list_elem_of_filter in Hqin as [Hq' _]. apply Hq'. rewrite <- Hq.
    by apply list_elem_of_fmap_2.
Qed.

(** ** Boundary reflection *)


(** ** The "split" pickup *)


(** ** The "magnet" pickup *)

(** C1: the magnet's target abscissa does not depend on the team of the
    picker: the test compares the team with "white", which no team is, so
    the target is always 25% of the width.  A Left ball in the middle of a
    2000 x 1200 world that picks up a magnet is sent towards x = 500, in its
    own half: its velocity becomes (-6, 0). *)
Theorem magnet_target_ignores_team :
  (forall env b, magnetTargetX env b = (width env * 0.25)%R) /\
  (forall env b1 b2, magnetTargetX env b1 = magnetTargetX env b2) /\
  let env := mkEnv 2000 1200 1 (fun _ => 0%R) 0 in
  let b := mkBall 0 1000 600 4 0 Left 40 40 [] 0 0 0 false 0 in
  vx (magnetEffect env b) = (-6)%R /\ vy (magnetEffect env b) = 0%R.
Proof.
  assert (forall env b, magnetTargetX env b = (width env * 0.25)%R) as Ht.
  { intros env b. unfold magnetTargetX. by destruct (team b). }
  split_and!; try done.
  - intros env b1 b2. by rewrite !Ht.
  - assert (sqrt ((2000 * 0.25 - 1000) * (2000 * 0.25 - 1000)
                  + (1200 / 2 - 600) * (1200 / 2 - 600)) = 500)%R as Hd.
    { replace ((2000 * 0.25 - 1000) * (2000 * 0.25 - 1000)
               + (1200 / 2 - 600) * (1200 / 2 - 600))%R with (Rsqr 500)
        by (unfold Rsqr; lra).
      apply sqrt_Rsqr. lra. }
    cbv zeta. unfold magnetEffect. rewrite Ht. simpl. rewrite Hd.
    rewrite decide_True by lra. simpl. unfold BASE_SPEED. split; lra.
Qed.

(** ** Power-up spawning *)

(** The power-ups spawned in a log. *)
Definition spawns (tr : list Event) : list PowerUp :=
  omap (fun e => match e with EvSpawn p => Some p | _ => None end) tr.

Lemma spawns_none (evs : list Event) : Forall (fun e => ~ isSpawn e) evs -> spawns evs = [].
Proof.
  induction 1 as [|e evs He _ IH]; [done|]. unfold spawns in *. simpl.
  destruct e; simpl in *; try done; tauto.
Qed.

Lemma frame_spawns (env : Env) (g g' : Game) (tr : list Event) :
  gridShape (tiles g) -> gameLoop env g = Some (g', tr) ->
  spawns tr = (if spawnDue (frameCount g') (powerUps g)
               then [spawnPowerUp env (powerUpIdCounter g) 0] else []) /\
  (length (powerUps g) <= 3 -> length (powerUps g') <= 3)%nat /\
  (spawnDue (frameCount g') (powerUps g) = false -> powerUps g = [] -> powerUps g' = []).
Proof.
  intros Hg H. destruct (frame_grid env g g' tr Hg H) as (_ & Hfc & _).
  destruct (frame_registry env g g' tr Hg H) as (evs & Htr & Hns & _ & Hsub & _).
  rewrite Hfc. split_and!.
  - rewrite Htr. unfold spawns. rewrite omap_app. fold (spawns evs).
    rewrite (spawns_none evs Hns), app_nil_r. unfold frameLog.
    by destruct (spawnDue _ _).
  - intros Hlen. apply submseteq_length in Hsub. rewrite length_app in Hsub.
    unfold frameRegistry in Hsub. destruct (spawnDue _ _) eqn:E; [|lia].
    rewrite length_app in Hsub. simpl in Hsub. unfold spawnDue in E.
    apply andb_true_iff in E as [_ E]. apply Nat.ltb_lt in E. lia.
  - intros Hno Hempty. unfold frameRegistry in Hsub. rewrite Hno, Hempty in Hsub.
    apply submseteq_length in Hsub. rewrite length_app in Hsub. simpl in Hsub.
    destruct (powerUps g'); [done|simpl in Hsub; lia].
Qed.

Lemma run_powerUps_bound (envs : list Env) (g g' : Game) (tr : list Event) :
  gridShape (tiles g) -> run envs g = Some (g', tr) ->
  (length (powerUps g) <= 3 -> length (powerUps g') <= 3)%nat.
Proof.
  revert g tr. induction envs as [|env envs IH]; intros g tr Hg Hrun Hlen.
  - simpl in Hrun. by simplify_eq.
  - apply run_cons_inv in Hrun as (g1 & tr1 & tr2 & H1 & H2 & ->).
    destruct (frame_grid env g g1 tr1 Hg H1) as (Hg1 & _).
    destruct (frame_spawns env g g1 tr1 Hg H1) as (_ & Hb & _).
    eapply IH; eauto.
Qed.

(** Before the first multiple of 300 nothing is spawned. *)
Lemma run_before_first_spawn (envs : list Env) (g g' : Game) (tr : list Event) :
  gridShape (tiles g) -> run envs g = Some (g', tr) ->
  powerUps g = [] -> 0 <= frameCount g ->
  frameCount g + Z.of_nat (length envs) < POWERUP_SPAWN_INTERVAL ->
  powerUps g' = [].
Proof.
  revert g tr. induction envs as [|env envs IH]; intros g tr Hg Hrun Hempty H0 Hlt.
  - simpl in Hrun. by simplify_eq.
  - apply run_cons_inv in Hrun as (g1 & tr1 & tr2 & H1 & H2 & ->).
    destruct (frame_grid env g g1 tr1 Hg H1) as (Hg1 & Hfc & _).
    destruct (frame_spawns env g g1 tr1 Hg H1) as (_ & _ & Hb).
    simpl length in Hlt. unfold POWERUP_SPAWN_INTERVAL in *.
    apply (IH g1 tr2); try done; try lia.
    apply Hb; [|done]. unfold spawnDue, POWERUP_SPAWN_INTERVAL.
    rewrite Z.rem_small by lia. replace (frameCount g1 =? 0) with false; [done|].
    symmetry. apply Z.eqb_neq. lia.
Qed.

(** C9 as stated fails in a world narrower than 60: in a 40 x 40 viewport,
    frame 300 after mounting spawns a power-up at x = 20 when
    [Math.random()] returns 0.5, outside [30, width - 30]. *)
Lemma spawn_outside_narrow_world :
  let env := mkEnv 40 40 1 (fun _ => 0.5%R) 0 in
  exists g tr g' tr' p,
    run (replicate 299 env) (mountGame 40 40 (fun _ => 0.5%R)) = Some (g, tr) /\
    gameLoop env g = Some (g', tr') /\
    (0 <= random env 0%nat < 1)%R /\
    spawns tr' = [p] /\ pu_x p = 20%R /\
    ~ (30 <= pu_x p <= width env - 30)%R.
Proof.
  intros env.
  destruct (run_total (replicate 299 env) (mountGame 40 40 (fun _ => 0.5%R))
              createInitialTiles_shape) as (g & tr & Hrun & Hg & Hfc).
  rewrite length_replicate in Hfc. simpl in Hfc.
  assert (powerUps g = []) as Hempty.
  { apply (run_before_first_spawn (replicate 299 env) (mountGame 40 40 (fun _ => 0.5%R))
             g tr createInitialTiles_shape Hrun); done. }
  destruct (gameLoop_total env g Hg) as (g' & tr' & Hstep).
  destruct (frame_grid env g g' tr' Hg Hstep) as (_ & Hfc' & _).
  destruct (frame_spawns env g g' tr' Hg Hstep) as (Hsp & _ & _).
  rewrite Hfc', Hfc, Hempty in Hsp. change (spawnDue (299 + 1) []) with true in Hsp.
  exists g, tr, g', tr', (spawnPowerUp env (powerUpIdCounter g) 0).
  split_and!; try done; simpl; lra.
Qed.

(** ** Evaluating frames on concrete inputs *)

Lemma ball_ext (a b : Ball) :
  ball_id a = ball_id b -> x a = x b -> y a = y b -> vx a = vx b -> vy a = vy b ->
  team a = team b -> radius a = radius b -> baseRadius a = baseRadius b ->
  trail a = trail b -> frozen a = frozen b -> giant a = giant b -> speed a = speed b ->
  isClone a = isClone b -> cloneExpires a = cloneExpires b -> a = b.
Proof. destruct a, b. simpl. intros. by subst. Qed.

Ltac ball_eq := apply ball_ext; simpl; try reflexivity; try lra.

(** The ball after clone countdown, timer decay and trail update. *)
Definition tick (b0 : Ball) : Ball :=
  updateTrail (decayTimers (if isClone b0 && (0 <? cloneExpires b0)
                            then set_cloneExpires (cloneExpires b0 - 1) b0 else b0)).

Lemma processBall_frozen (env : Env) (tilesRef : Grid) (L : Loop) (i : nat) (b0 : Ball) :
  objs L !! i = Some b0 -> expires b0 = false -> (0 <? frozen (tick b0)) = true ->
  processBall env tilesRef L i
  = Some (push_newBalls (Old i) (set_objs (<[i := tick b0]> (objs L)) L)).
Proof.
  intros Hi He Hf. unfold processBall. rewrite Hi. cbn [mbind option_bind].
  unfold expires in He. unfold tick in *.
  destruct (isClone b0 && (0 <? cloneExpires b0)) eqn:E.
  - rewrite andb_true_l in He |- *.
    change (cloneExpires (set_cloneExpires (cloneExpires b0 - 1) b0))
      with (cloneExpires b0 - 1).
    by rewrite He, Hf.
  - rewrite andb_false_l. by rewrite Hf.
Qed.

Lemma processBall_active (env : Env) (tilesRef : Grid) (L L1 L2 : Loop) (i : nat)
    (b0 b4 b5 : Ball) (rm : list nat) :
  objs L !! i = Some b0 -> expires b0 = false -> (0 <? frozen (tick b0)) = false ->
  pickup env (boundary env (move env (tick b0))) L = (b4, L1, rm) ->
  tilePhase env tilesRef b4 L1 = Some (b5, L2) ->
  processBall env tilesRef L i
  = Some (push_newBalls (Old i) (set_objs (<[i := b5]> (objs L2)) L2)).
Proof.
  intros Hi He Hf Hp Ht. unfold processBall. rewrite Hi. cbn [mbind option_bind].
  unfold expires in He. unfold tick in *.
  destruct (isClone b0 && (0 <? cloneExpires b0)) eqn:E.
  - rewrite andb_true_l in He |- *.
    change (cloneExpires (set_cloneExpires (cloneExpires b0 - 1) b0))
      with (cloneExpires b0 - 1).
    rewrite He, Hf, Hp, Ht. done.
  - rewrite andb_false_l. rewrite Hf, Hp, Ht. done.
Qed.

Lemma boundary_inside (env : Env) (b : Ball) :
  (radius b <= x b)%R -> (x b + radius b <= width env)%R ->
  (radius b <= y b)%R -> (y b + radius b <= height env)%R ->
  boundary env b = b.
Proof.
  intros H1 H2 H3 H4. unfold boundary.
  rewrite (decide_False (P := (x b - radius b < 0)%R)) by lra.
  rewrite (decide_False (P := (width env < x b + radius b)%R)) by lra.
  rewrite (decide_False (P := (y b - radius b < 0)%R)) by lra.
  rewrite (decide_False (P := (height env < y b + radius b)%R)) by lra.
  done.
Qed.

Lemma pickup_no_powerups (env : Env) (b : Ball) (L : Loop) :
  registry L = [] -> pickup env b L = (b, L, []).
Proof. intros H. unfold pickup. rewrite H. simpl. destruct L. simpl in *. by subst. Qed.

Lemma cellIndex_eq (v pitch : R) (z : Z) :
  (0 < pitch)%R -> (IZR z * pitch <= v < (IZR z + 1) * pitch)%R ->
  cellIndex v pitch = Some z.
Proof.
  intros Hp [H1 H2]. unfold cellIndex. rewrite decide_False by lra. f_equal.
  unfold Math_floor. symmetry. apply Int_part_spec.
  assert (v / pitch * pitch = v)%R as Hv by (field; lra).
  assert (IZR z <= v / pitch)%R by (apply Rmult_le_reg_r with pitch; lra).
  assert (v / pitch < IZR z + 1)%R by (apply Rmult_lt_reg_r with pitch; lra).
  lra.
Qed.

Lemma convertTiles_single (b : Ball) (row col : Z) (L : Loop) :
  (0 <? giant b) = false ->
  convertTiles b row col L = convertCell b row col L.
Proof.
  intros H. unfold convertTiles. rewrite H. unfold offsets. simpl.
  rewrite !Z.add_0_r. by destruct (convertCell b row col L).
Qed.

Lemma touches_at_center (b : Ball) (p : PowerUp) :
  x b = pu_x p -> y b = pu_y p -> (0 <= radius b)%R -> touches b p = true.
Proof.
  intros Hx Hy Hr. unfold touches, dist. apply bool_decide_eq_true.
  rewrite Hx, Hy. replace ((pu_x p - pu_x p) * (pu_x p - pu_x p)
                           + (pu_y p - pu_y p) * (pu_y p - pu_y p))%R with 0%R by lra.
  rewrite sqrt_0. lra.
Qed.

(** [gameLoop] from the result of its ball loop. *)
Lemma gameLoop_eval (env : Env) (g : Game) (L : Loop) (bs : list Ball) (counts : Z * Z) :
  forM (processBall env (tiles g))
       (mkLoop (balls g) [] (frameRegistry env g) (tiles g) false (ballIdCounter g)
               (if spawnDue (frameCount g + 1) (powerUps g) then 3%nat else 0%nat)
               (frameLog env g))
       (seq 0 (length (balls g))) = Some L ->
  mapM (deref (objs L)) (newBalls L) = Some bs ->
  countTiles (if hasChanges L then newTiles L else tiles g) = Some counts ->
  gameLoop env g
  = Some (mkGame bs (registry L) (if hasChanges L then newTiles L else tiles g)
                 (frameCount g + 1)
                 (updateHighScores (frameCount g + 1) counts (highScores g))
                 (nextBallId L)
                 (if spawnDue (frameCount g + 1) (powerUps g)
                  then S (powerUpIdCounter g) else powerUpIdCounter g),
          trace L).
Proof.
  intros HL Hbs Hc. unfold gameLoop. unfold frameRegistry, frameLog in HL.
  rewrite HL. cbn [mbind option_bind]. rewrite Hbs. cbn [mbind option_bind].
  rewrite Hc. done.
Qed.

(** *** Two balls of one team over the same enemy cell *)

Definition env2 : Env := mkEnv 2000 1200 1 (fun _ => 0.5%R) 0.
Definition ballA : Ball := mkBall 0 1046 550 4 0 Left 40 40 [] 0 0 0 false 0.
Definition ballB : Ball := mkBall 1 1056 560 0 (-4) Left 28 28 [] 0 0 0 true 100.
Definition g2 : Game := mkGame [ballA; ballB] [] createInitialTiles 0 (120, 120) 2 0.

(** The balls after motion. *)
Definition ballA3 : Ball :=
  mkBall 0 1050 550 4 0 Left 40 40 [(1046%R, 550%R)] 0 0 0 false 0.
Definition ballB3 : Ball :=
  mkBall 1 1056 556 0 (-4) Left 28 28 [(1056%R, 560%R)] 0 0 0 true 99.

(** The balls after redirection. *)
Definition ballA5 : Ball :=
  set_vy (sin (0.5 * PI * 2) * sqrt (4 * 4 + 0 * 0))%R
         (set_vx (cos (0.5 * PI * 2) * sqrt (4 * 4 + 0 * 0))%R ballA3).
Definition ballB5 : Ball :=
  set_vy (sin (0.5 * PI * 2) * sqrt (0 * 0 + -4 * -4))%R
         (set_vx (cos (0.5 * PI * 2) * sqrt (0 * 0 + -4 * -4))%R ballB3).

Definition tiles2 : Grid := setTile createInitialTiles 5 10 (mkTile Left).

Definition L2_0 : Loop := mkLoop [ballA; ballB] [] [] createInitialTiles false 2 0 [].
Definition L2_1 : Loop :=
  mkLoop [ballA5; ballB] [Old 0%nat] [] tiles2 true 2 1 [EvConvert 0 5 10; EvRedirect 0].
Definition L2_2 : Loop :=
  mkLoop [ballA5; ballB5] [Old 0%nat; Old 1%nat] [] tiles2 true 2 2
         [EvConvert 0 5 10; EvRedirect 0; EvRedirect 1].

Lemma frame2_ball0 : processBall env2 createInitialTiles L2_0 0 = Some L2_1.
Proof.
  assert (boundary env2 (move env2 (tick ballA)) = ballA3) as Hm.
  { assert (move env2 (tick ballA) = ballA3) as -> by ball_eq.
    apply boundary_inside; simpl; lra. }
  assert (cellIndex (y ballA3) (tileHeight env2) = Some 5) as Hrow
    by (apply cellIndex_eq; unfold tileHeight, ROWS; simpl; lra).
  assert (cellIndex (x ballA3) (tileWidth env2) = Some 10) as Hcol
    by (apply cellIndex_eq; unfold tileWidth, COLS; simpl; lra).
  apply (processBall_active env2 createInitialTiles L2_0 L2_0
           (mkLoop [ballA; ballB] [] [] tiles2 true 2 1 [EvConvert 0 5 10; EvRedirect 0])
           0 ballA ballA3 ballA5 []); try reflexivity.
  - rewrite Hm. by apply pickup_no_powerups.
  - unfold tilePhase. rewrite Hrow, Hcol.
    rewrite convertTiles_single by reflexivity. reflexivity.
Qed.

Lemma frame2_ball1 : processBall env2 createInitialTiles L2_1 1 = Some L2_2.
Proof.
  assert (boundary env2 (move env2 (tick ballB)) = ballB3) as Hm.
  { assert (move env2 (tick ballB) = ballB3) as -> by ball_eq.
    apply boundary_inside; simpl; lra. }
  assert (cellIndex (y ballB3) (tileHeight env2) = Some 5) as Hrow
    by (apply cellIndex_eq; unfold tileHeight, ROWS; simpl; lra).
  assert (cellIndex (x ballB3) (tileWidth env2) = Some 10) as Hcol
    by (apply cellIndex_eq; unfold tileWidth, COLS; simpl; lra).
  apply (processBall_active env2 createInitialTiles L2_1 L2_1
           (mkLoop [ballA5; ballB] [Old 0%nat] [] tiles2 true 2 2
                   [EvConvert 0 5 10; EvRedirect 0; EvRedirect 1])
           1 ballB ballB3 ballB5 []); try reflexivity.
  - rewrite Hm. by apply pickup_no_powerups.
  - unfold tilePhase. rewrite Hrow, Hcol.
    rewrite convertTiles_single by reflexivity. reflexivity.
Qed.

Definition g2' : Game :=
  mkGame [ballA5; ballB5] [] tiles2 1 (120, 120) 2 0.

Lemma frame2_eval :
  gameLoop env2 g2 = Some (g2', [EvConvert 0 5 10; EvRedirect 0; EvRedirect 1]).
Proof.
  apply (gameLoop_eval env2 g2 L2_2 [ballA5; ballB5] (121, 119)).
  - change (forM (processBall env2 createInitialTiles) L2_0 [0%nat; 1%nat] = Some L2_2).
    rewrite (forM_cons_Some _ _ _ _ _ frame2_ball0).
    rewrite (forM_cons_Some _ _ _ _ _ frame2_ball1). reflexivity.
  - reflexivity.
  - reflexivity.
Qed.

(** *** A freeze pickup with the enemy processed after the picker *)

Definition env3 : Env := mkEnv 2000 1200 1 (fun _ => 0.5%R) 0.
Definition picker : Ball := mkBall 0 500 600 4 0 Left 40 40 [] 0 0 0 false 0.
Definition enemy : Ball := mkBall 1 1500 600 (-4) 0 Right 40 40 [] 0 0 0 false 0.
Definition p3 : PowerUp := mkPowerUp 0 504 600 (Some Freeze) 0.
Definition g3 : Game := mkGame [picker; enemy] [p3] createInitialTiles 0 (120, 120) 2 1.

Definition picker3 : Ball :=
  mkBall 0 504 600 4 0 Left 40 40 [(500%R, 600%R)] 0 0 0 false 0.
Definition enemy' : Ball :=
  mkBall 1 1500 600 (-4) 0 Right 40 40 [(1500%R, 600%R)] 179 0 0 false 0.

Definition L3_0 : Loop := mkLoop [picker; enemy] [] [p3] createInitialTiles false 2 0 [].
Definition L3_p : Loop :=
  mkLoop [picker; set_frozen 180 enemy] [] [] createInitialTiles false 2 0
         [EvPickup 0 Left p3].
Definition L3_1 : Loop :=
  mkLoop [picker3; set_frozen 180 enemy] [Old 0%nat] [] createInitialTiles false 2 0
         [EvPickup 0 Left p3].
Definition L3_2 : Loop :=
  mkLoop [picker3; enemy'] [Old 0%nat; Old 1%nat] [] createInitialTiles false 2 0
         [EvPickup 0 Left p3].

Lemma frame3_ball0 : processBall env3 createInitialTiles L3_0 0 = Some L3_1.
Proof.
  assert (boundary env3 (move env3 (tick picker)) = picker3) as Hm.
  { assert (move env3 (tick picker) = picker3) as -> by ball_eq.
    apply boundary_inside; simpl; lra. }
  assert (cellIndex (y picker3) (tileHeight env3) = Some 6) as Hrow
    by (apply cellIndex_eq; unfold tileHeight, ROWS; simpl; lra).
  assert (cellIndex (x picker3) (tileWidth env3) = Some 5) as Hcol
    by (apply cellIndex_eq; unfold tileWidth, COLS; simpl; lra).
  assert (touches picker3 p3 = true) as Htouch
    by (apply touches_at_center; simpl; (reflexivity || lra)).
  apply (processBall_active env3 createInitialTiles L3_0 L3_p L3_p
           0 picker picker3 picker3 [0%nat]); try reflexivity.
  - rewrite Hm. unfold pickup. change (registry L3_0) with [p3].
    cbn [foldl]. unfold pickupStep. rewrite Htouch. reflexivity.
  - unfold tilePhase. rewrite Hrow, Hcol.
    rewrite convertTiles_single by reflexivity. reflexivity.
Qed.

Lemma frame3_ball1 : processBall env3 createInitialTiles L3_1 1 = Some L3_2.
Proof.
  apply (processBall_frozen env3 createInitialTiles L3_1 1 (set_frozen 180 enemy));
    reflexivity.
Qed.

Definition g3' : Game :=
  mkGame [picker3; enemy'] [] createInitialTiles 1 (120, 120) 2 1.

Lemma frame3_eval : gameLoop env3 g3 = Some (g3', [EvPickup 0 Left p3]).
Proof.
  apply (gameLoop_eval env3 g3 L3_2 [picker3; enemy'] (120, 120)).
  - change (forM (processBall env3 createInitialTiles) L3_0 [0%nat; 1%nat] = Some L3_2).
    rewrite (forM_cons_Some _ _ _ _ _ frame3_ball0).
    rewrite (forM_cons_Some _ _ _ _ _ frame3_ball1). reflexivity.
  - reflexivity.
  - reflexivity.
Qed.

(** C2: the random heading change is decided by the grid of the frame's
    start ([tilesRef.current]), not by what the ball's own conversion step
    did.  In this frame two Left balls are over the Right cell (5, 10): ball
    0 converts it and is redirected; ball 1 then finds the cell already Left
    in [newTiles], converts nothing (the log has no conversion by ball 1),
    and its heading is randomised all the same: its velocity goes from
    (0, -4) to (-4, 0). *)
Theorem redirect_without_conversion :
  gameLoop env2 g2 = Some (g2', [EvConvert 0 5 10; EvRedirect 0; EvRedirect 1]) /\
  getTile (tiles g2) 5 10 = Some (mkTile Right) /\
  getTile (tiles g2') 5 10 = Some (mkTile Left) /\
  team ballB = Left /\ (vx ballB, vy ballB) = (0%R, (-4)%R) /\
  balls g2' !! 1%nat = Some ballB5 /\ ball_id ballB5 = 1%nat /\
  vx ballB5 = (-4)%R /\ vy ballB5 = 0%R.
Proof.
  split_and!; try reflexivity; try apply frame2_eval.
  - simpl. replace (0.5 * PI * 2)%R with PI by lra. rewrite cos_PI.
    replace (0 * 0 + -4 * -4)%R with (Rsqr 4) by (unfold Rsqr; lra).
    rewrite sqrt_Rsqr by lra. lra.
  - simpl. replace (0.5 * PI * 2)%R with PI by lra. rewrite sin_PI. lra.
Qed.

(** A ball whose freeze timer is 1 when a frame starts is processed in full
    in that frame: the timer is decremented before it is tested. *)
Lemma timer_one_moves_again (b : Ball) :
  frozen b = 1 -> (0 <? frozen (tick b)) = false.
Proof.
  intros H. unfold tick.
  pose proof (updateTrail_fields (decayTimers (if isClone b && (0 <? cloneExpires b)
                then set_cloneExpires (cloneExpires b - 1) b else b))) as Hu.
  pose proof (decayTimers_fields (if isClone b && (0 <? cloneExpires b)
                then set_cloneExpires (cloneExpires b - 1) b else b)) as Hd.
  destruct Hu as (_ & _ & _ & _ & _ & _ & _ & _ & _ & ->).
  destruct Hd as (_ & _ & _ & _ & _ & _ & _ & _ & _ & ->).
  assert (frozen (if isClone b && (0 <? cloneExpires b)
                  then set_cloneExpires (cloneExpires b - 1) b else b) = 1) as ->
    by (by destruct (isClone b && (0 <? cloneExpires b))).
  reflexivity.
Qed.

(** C3 as stated fails: here the Left ball picks up a freeze and the Right
    ball, processed after it in the same frame, ends the frame with a
    freeze timer of 179, not 180. *)
Lemma freeze_timer_is_179_after_pickup :
  exists g' tr b,
    gameLoop env3 g3 = Some (g', tr) /\
    EvPickup 0 Left p3 ∈ tr /\ pu_type p3 = Some Freeze /\
    b ∈ balls g' /\ team b = Right /\ frozen b = 179 /\ frozen b <> 180.
Proof.
  exists g3', [EvPickup 0 Left p3], enemy'.
  split_and!; try reflexivity; try apply frame3_eval; try done.
  - by left.
  - right. by left.
Qed.

Lemma wfBalls_g3 : wfBalls g3.
Proof.
  split; simpl.
  - apply NoDup_cons_2; [|apply NoDup_singleton].
    intros H. apply list_elem_of_singleton in H. discriminate.
  - repeat constructor; simpl; lia.
Qed.

Lemma freeze_pickup_effect_witness :
  (frozen enemy' = 180 \/ frozen enemy' = 179) /\
  forall envs, Z.of_nat (length envs) < frozen enemy' ->
    exists g'' tr', run envs g3' = Some (g'', tr') /\
      (forall b', b' ∈ balls g'' -> ball_id b' = ball_id enemy' ->
                  x b' = x enemy' /\ y b' = y enemy') /\
      (isClone enemy' = false -> exists b', b' ∈ balls g'' /\ ball_id b' = ball_id enemy').
Proof.
  apply (freeze_pickup_effect env3 g3 g3' [EvPickup 0 Left p3] 0 Left p3 enemy').
  - apply createInitialTiles_shape.
  - apply wfBalls_g3.
  - apply frame3_eval.
  - by left.
  - reflexivity.
  - right. by left.
  - discriminate.
  - simpl. lia.
Defined.




Definition g8 : Game :=
  mkGame [makeClone 0 ballA3] [] createInitialTiles 0 (120, 120) 1 0.

Lemma clone_removed_after_360_frames_witness :
  exists g' tr,
    run (replicate 360 env2) g8 = Some (g', tr) /\
    forall b', b' ∈ balls g' -> ball_id b' <> 0%nat.
Proof.
  destruct (clone_removed_after_360_frames g8 (makeClone 0 ballA3) (replicate 360 env2))
    as (_ & (g' & tr & Hrun & _ & Hgone) & _).
  - apply createInitialTiles_shape.
  - split; simpl; [apply NoDup_singleton | repeat constructor; simpl; lia].
  - by left.
  - reflexivity.
  - reflexivity.
  - exists g', tr. split; [exact Hrun|]. apply Hgone.
    rewrite length_replicate. simpl. lia.
Defined.

(** * Further properties of the simulation *)

(** * Invariants of the live balls *)

(** ** Loops whose result is known *)

Lemma forM_preserves {S A : Type} (body : S -> A -> option S) (Inv : S -> Prop)
    (l : list A) (s s' : S) :
  (forall s1 a s2, Inv s1 -> body s1 a = Some s2 -> Inv s2) ->
  Inv s -> forM body s l = Some s' -> Inv s'.
Proof.
  intros Hstep. revert s. induction l as [|a l IH]; intros s Hs H; simpl in H.
  - by simplify_eq.
  - destruct (body s a) as [s1|] eqn:E; simpl in H; [|done].
    eapply IH; [|exact H]. by eapply Hstep.
Qed.

Lemma forM_seq_preserves {S : Type} (body : S -> nat -> option S) (Inv : nat -> S -> Prop)
    (n : nat) (s s' : S) :
  (forall k s1 s2, (k < n)%nat -> Inv k s1 -> body s1 k = Some s2 -> Inv (Datatypes.S k) s2) ->
  Inv 0%nat s -> forM body s (seq 0 n) = Some s' -> Inv n s'.
Proof.
  intros Hstep.
  assert (forall m a s1, (a + m = n)%nat -> Inv a s1 -> forM body s1 (seq a m) = Some s' ->
            Inv n s') as Hgen.
  { induction m as [|m IH]; intros a s1 Ha Hs H; simpl in H.
    - simplify_eq. by rewrite Nat.add_0_r.
    - destruct (body s1 a) as [s2|] eqn:E; simpl in H; [|done].
      apply (IH (Datatypes.S a) s2); [lia| |done]. apply (Hstep a s1); [lia|done..]. }
  intros H0 H. by apply (Hgen n 0%nat s).
Qed.

(** ** What the tile phase does to the ball and to the loop state *)

Lemma convertCell_frame (b : Ball) (r c : Z) (L L' : Loop) :
  convertCell b r c L = Some L' ->
  objs L' = objs L /\ newBalls L' = newBalls L /\ nextBallId L' = nextBallId L /\
  registry L' = registry L /\ randomCalls L' = randomCalls L.
Proof.
  unfold convertCell. destruct (inGrid r c); [|by intros; simplify_eq].
  destruct (getTile (newTiles L) r c) as [t|]; simpl; [|done].
  destruct (negb _); intros; by simplify_eq.
Qed.

Lemma convertTiles_frame (b : Ball) (row col : Z) (L L' : Loop) :
  convertTiles b row col L = Some L' ->
  objs L' = objs L /\ newBalls L' = newBalls L /\ nextBallId L' = nextBallId L /\
  registry L' = registry L /\ randomCalls L' = randomCalls L.
Proof.
  unfold convertTiles.
  apply (forM_preserves _ (fun L1 => objs L1 = objs L /\ newBalls L1 = newBalls L /\
                                      nextBallId L1 = nextBallId L /\
                                      registry L1 = registry L /\
                                      randomCalls L1 = randomCalls L)); [|done].
  intros L1 dr L2 H1.
  apply (forM_preserves _ (fun L3 => objs L3 = objs L /\ newBalls L3 = newBalls L /\
                                      nextBallId L3 = nextBallId L /\
                                      registry L3 = registry L /\
                                      randomCalls L3 = randomCalls L)); [|done].
  intros L3 dc L4 H3 Hc. apply convertCell_frame in Hc. destruct_and!.
  split_and!; congruence.
Qed.

(** The velocity after a random direction change by [angle]. *)
Definition redirected (angle : R) (b : Ball) : Ball :=
  set_vy (sin angle * sqrt (vx b * vx b + vy b * vy b))%R
         (set_vx (cos angle * sqrt (vx b * vx b + vy b * vy b))%R b).

Lemma redirect_cases (env : Env) (tilesRef : Grid) (b b' : Ball) (row col : Z) (L L' : Loop) :
  redirect env tilesRef b row col L = Some (b', L') ->
  objs L' = objs L /\ newBalls L' = newBalls L /\ nextBallId L' = nextBallId L /\
  registry L' = registry L /\
  ((b' = b /\ randomCalls L' = randomCalls L) \/
   (b' = redirected (random env (randomCalls L) * PI * 2) b /\
    randomCalls L' = S (randomCalls L))).
Proof.
  unfold redirect. destruct (inGrid row col); [|intros; simplify_eq; auto 10].
  destruct (getTile tilesRef row col) as [t|]; simpl; [|done].
  destruct (negb _); intros; simplify_eq; simpl; split_and!; auto.
Qed.

Lemma tilePhase_cases (env : Env) (tilesRef : Grid) (b b' : Ball) (L L' : Loop) :
  tilePhase env tilesRef b L = Some (b', L') ->
  objs L' = objs L /\ newBalls L' = newBalls L /\ nextBallId L' = nextBallId L /\
  registry L' = registry L /\
  (b' = b \/ exists angle, b' = redirected angle b).
Proof.
  unfold tilePhase. intros H.
  destruct (cellIndex (y b) (tileHeight env)) as [row|];
    [destruct (cellIndex (x b) (tileWidth env)) as [col|]|].
  2,3: by simplify_eq; auto 10.
  destruct (convertTiles b row col L) as [L1|] eqn:E1; simpl in H; [|done].
  apply convertTiles_frame in E1. apply redirect_cases in H.
  destruct E1 as (E1 & E2 & E3 & E4 & _). destruct H as (H1 & H2 & H3 & H4 & H5).
  split_and!; try congruence.
  destruct H5 as [[-> _]|[-> _]]; eauto.
Qed.

(** A direction change is logged. *)
Lemma tilePhase_redirects (env : Env) (tilesRef : Grid) (b b' : Ball) (L L' : Loop) :
  tilePhase env tilesRef b L = Some (b', L') ->
  b' = b \/ exists angle, b' = redirected angle b /\ EvRedirect (ball_id b) ∈ trace L'.
Proof.
  unfold tilePhase. intros H.
  destruct (cellIndex (y b) (tileHeight env)) as [row|];
    [destruct (cellIndex (x b) (tileWidth env)) as [col|]|].
  2,3: by simplify_eq; auto.
  destruct (convertTiles b row col L) as [L1|] eqn:E1; simpl in H; [|done].
  unfold redirect in H. destruct (inGrid row col); [|by simplify_eq; auto].
  destruct (getTile tilesRef row col) as [t|]; simpl in H; [|done].
  destruct (negb _); simplify_eq; [|by left].
  right. eexists. split; [reflexivity|]. simpl. apply elem_of_app. right. by left.
Qed.

(** [processBall] by cases, for the ball [b0] at index [i]. *)
Lemma processBall_unfold (env : Env) (tilesRef : Grid) (L : Loop) (i : nat) (b0 : Ball) :
  objs L !! i = Some b0 ->
  processBall env tilesRef L i
  = if expires b0 then
      Some (set_objs (<[i := set_cloneExpires (cloneExpires b0 - 1) b0]> (objs L)) L)
    else if 0 <? frozen (tick b0) then
      Some (push_newBalls (Old i) (set_objs (<[i := tick b0]> (objs L)) L))
    else
      let '(b4, L1, _) := pickup env (boundary env (move env (tick b0))) L in
      '(b5, L2) ← tilePhase env tilesRef b4 L1;
      Some (push_newBalls (Old i) (set_objs (<[i := b5]> (objs L2)) L2)).
Proof.
  intros Hi. destruct (expires b0) eqn:He.
  { by apply processBall_expired. }
  destruct (0 <? frozen (tick b0)) eqn:Hf.
  { by apply processBall_frozen. }
  destruct (pickup env (boundary env (move env (tick b0))) L) as [[b4 L1] rm] eqn:Hp.
  destruct (tilePhase env tilesRef b4 L1) as [[b5 L2]|] eqn:Ht.
  { by eapply processBall_active. }
  unfold processBall. rewrite Hi. cbn [mbind option_bind].
  unfold expires in He. unfold tick in *.
  destruct (isClone b0 && (0 <? cloneExpires b0)) eqn:E.
  - rewrite andb_true_l in He |- *.
    change (cloneExpires (set_cloneExpires (cloneExpires b0 - 1) b0))
      with (cloneExpires b0 - 1).
    rewrite He, Hf, Hp, Ht. done.
  - rewrite andb_false_l. rewrite Hf, Hp, Ht. done.
Qed.

(** ** The events of a ball *)

(** The ball an event is about. *)
Definition actor (e : Event) : option nat :=
  match e with
  | EvSpawn _ => None
  | EvPickup i _ _ | EvConvert i _ _ | EvRedirect i => Some i
  end.

Definition actsAs (i : nat) (evs : list Event) : Prop :=
  Forall (fun e => actor e = Some i) evs.

Lemma convertCell_actor (b : Ball) (r c : Z) (L L' : Loop) :
  convertCell b r c L = Some L' ->
  exists evs, trace L' = trace L ++ evs /\ actsAs (ball_id b) evs.
Proof.
  unfold convertCell. destruct (inGrid r c).
  2:{ intros. simplify_eq. exists []. split; [by rewrite app_nil_r | constructor]. }
  destruct (getTile (newTiles L) r c) as [t|]; simpl; [|done].
  destruct (negb _); intros; simplify_eq.
  - exists [EvConvert (ball_id b) r c]. split; [done|]. by repeat constructor.
  - exists []. split; [by rewrite app_nil_r | constructor].
Qed.

Lemma actsAs_trans (i : nat) (L L1 L2 : Loop) :
  (exists evs, trace L1 = trace L ++ evs /\ actsAs i evs) ->
  (exists evs, trace L2 = trace L1 ++ evs /\ actsAs i evs) ->
  exists evs, trace L2 = trace L ++ evs /\ actsAs i evs.
Proof.
  intros (e1 & H1 & A1) (e2 & H2 & A2). exists (e1 ++ e2). split.
  - by rewrite H2, H1, app_assoc.
  - by apply Forall_app.
Qed.

Lemma actsAs_refl (i : nat) (L : Loop) : exists evs, trace L = trace L ++ evs /\ actsAs i evs.
Proof. exists []. split; [by rewrite app_nil_r | constructor]. Qed.

Lemma convertTiles_actor (b : Ball) (row col : Z) (L L' : Loop) :
  convertTiles b row col L = Some L' ->
  exists evs, trace L' = trace L ++ evs /\ actsAs (ball_id b) evs.
Proof.
  unfold convertTiles.
  apply (forM_preserves _ (fun L1 => exists evs, trace L1 = trace L ++ evs /\
                                                 actsAs (ball_id b) evs));
    [|apply actsAs_refl].
  intros L1 dr L2 H1.
  apply (forM_preserves _ (fun L3 => exists evs, trace L3 = trace L ++ evs /\
                                                 actsAs (ball_id b) evs)); [|done].
  intros L3 dc L4 H3 Hc. eapply actsAs_trans; [exact H3|]. by eapply convertCell_actor.
Qed.

Lemma tilePhase_actor (env : Env) (tilesRef : Grid) (b b' : Ball) (L L' : Loop) :
  tilePhase env tilesRef b L = Some (b', L') ->
  exists evs, trace L' = trace L ++ evs /\ actsAs (ball_id b) evs.
Proof.
  unfold tilePhase. intros H.
  destruct (cellIndex (y b) (tileHeight env)) as [row|];
    [destruct (cellIndex (x b) (tileWidth env)) as [col|]|].
  2,3: simplify_eq; apply actsAs_refl.
  destruct (convertTiles b row col L) as [L1|] eqn:E1; simpl in H; [|done].
  eapply actsAs_trans; [by eapply convertTiles_actor|].
  unfold redirect in H. destruct (inGrid row col).
  2:{ simplify_eq. apply actsAs_refl. }
  destruct (getTile tilesRef row col) as [t|]; simpl in H; [|done].
  destruct (negb _); simplify_eq.
  - exists [EvRedirect (ball_id b)]. split; [done|]. by repeat constructor.
  - apply actsAs_refl.
Qed.

(** ** A predicate on balls through one frame

    [P] holds of the balls when the frame starts and [Q] is to hold of the
    balls when it ends; both may refer to the log written so far.  The
    hypotheses ask that every assignment the frame can make to a ball leads
    from [P] to [Q] or keeps [Q]; an assignment made by a pickup comes with
    the event of that pickup. *)

Section FrameInvariantLog.

Variable env : Env.
Variable c0 : nat.                   (* ballIdCounter when the frame starts *)
Variables P Q : list Event -> Ball -> Prop.

Hypothesis P_log : forall evs evs' b, P evs b -> P (evs ++ evs') b.
Hypothesis Q_log : forall evs evs' b, Q evs b -> Q (evs ++ evs') b.
Hypothesis P_frozen : forall evs a p b,
  EvPickup (ball_id a) (team a) p ∈ evs -> pu_type p = Some Freeze -> team b <> team a ->
  P evs b -> P evs (set_frozen POWERUP_DURATION b).
Hypothesis Q_frozen : forall evs a p b,
  EvPickup (ball_id a) (team a) p ∈ evs -> pu_type p = Some Freeze -> team b <> team a ->
  Q evs b -> Q evs (set_frozen POWERUP_DURATION b).
Hypothesis Q_tick : forall evs b, P evs b -> expires b = false -> Q evs (tick b).
Hypothesis Q_move : forall evs b, Q evs b -> frozen b <= 0 -> Q evs (boundary env (move env b)).
Hypothesis Q_giant : forall evs p b,
  EvPickup (ball_id b) (team b) p ∈ evs -> pu_type p = Some Giant ->
  Q evs b -> Q evs (set_radius (baseRadius b * 2.5)%R (set_giant POWERUP_DURATION b)).
Hypothesis Q_speed : forall evs p b,
  EvPickup (ball_id b) (team b) p ∈ evs -> pu_type p = Some Speed ->
  Q evs b -> Q evs (set_speed POWERUP_DURATION b).
Hypothesis Q_magnet : forall evs p b,
  EvPickup (ball_id b) (team b) p ∈ evs -> pu_type p = Some Magnet ->
  Q evs b -> Q evs (magnetEffect env b).
Hypothesis Q_clone : forall evs p n b,
  EvPickup (ball_id b) (team b) p ∈ evs -> pu_type p = Some Split ->
  (c0 <= n)%nat -> Q evs b -> Q evs (makeClone n b).
Hypothesis Q_redirect : forall evs angle b,
  EvRedirect (ball_id b) ∈ evs -> Q evs b -> Q evs (redirected angle b).

(** The store and [newBalls] once the balls of index below [k] are
    processed. *)
Record Store (k : nat) (L : Loop) : Prop := {
  st_todo : forall j o, objs L !! j = Some o -> (k <= j)%nat -> P (trace L) o;
  st_done : forall j o, objs L !! j = Some o -> Old j ∈ newBalls L -> Q (trace L) o;
  st_refs : forall j, Old j ∈ newBalls L -> (j < k)%nat;
  st_fresh : forall c, Fresh c ∈ newBalls L -> Q (trace L) c;
  st_next : (c0 <= nextBallId L)%nat
}.

(** A longer log with the same balls. *)
Lemma Store_log (k : nat) (L L' : Loop) (evs : list Event) :
  objs L' = objs L -> newBalls L' = newBalls L -> nextBallId L' = nextBallId L ->
  trace L' = trace L ++ evs -> Store k L -> Store k L'.
Proof.
  intros E1 E2 E3 E4 [Htodo Hdone Hrefs Hfresh Hnext].
  split; rewrite ?E1, ?E2, ?E3, ?E4; [| | done | | done].
  - intros j o Hj Hk. by apply P_log, (Htodo j).
  - intros j o Hj Hin. by apply Q_log, (Hdone j).
  - intros c Hin. by apply Q_log, Hfresh.
Qed.

Lemma freezeEnemies_lookup (b : Ball) (os : list Ball) (j : nat) (o' : Ball) :
  freezeEnemies b os !! j = Some o' ->
  exists o, os !! j = Some o /\
            (o' = o \/ (o' = set_frozen POWERUP_DURATION o /\ team o <> team b)).
Proof.
  unfold freezeEnemies. rewrite list_lookup_fmap.
  destruct (os !! j) as [o|]; simpl; [|done]. intros H. simplify_eq.
  exists o. split; [done|]. destruct (team_eqb (team o) (team b)) eqn:E; simpl; auto.
  right. split; [done|]. by apply team_eqb_neq.
Qed.

Lemma applyPowerUp_store (k : nat) (p : PowerUp) (b : Ball) (L : Loop) :
  Q (trace L) b -> Store k L ->
  let r := applyPowerUp env p b (log (EvPickup (ball_id b) (team b) p) L) in
  Q (trace r.2) r.1 /\ Store k r.2.
Proof.
  intros Hb0 HL0. set (e := EvPickup (ball_id b) (team b) p).
  assert (Q (trace (log e L)) b) as Hb by apply Q_log, Hb0.
  assert (Store k (log e L)) as HL by (by apply (Store_log k L _ [e])).
  assert (e ∈ trace (log e L)) as He.
  { simpl. apply elem_of_app. right. by left. }
  clear Hb0 HL0. destruct HL as [Htodo Hdone Hrefs Hfresh Hnext].
  unfold applyPowerUp. destruct (pu_type p) as [[| | | |]|] eqn:Hp; cbn zeta.
  - split; [done|]. split; try done.
    + intros j o Hj Hin. apply (Hdone j o Hj).
      apply elem_of_app in Hin as [Hin|Hin]; [done|].
      by apply list_elem_of_singleton in Hin.
    + intros j Hin. apply Hrefs.
      apply elem_of_app in Hin as [Hin|Hin]; [done|].
      by apply list_elem_of_singleton in Hin.
    + intros c Hin. apply elem_of_app in Hin as [Hin|Hin]; [by apply Hfresh|].
      apply list_elem_of_singleton in Hin. simplify_eq.
      by apply (Q_clone _ p).
    + simpl in *. lia.
  - split; [|by split]. by apply (Q_giant _ p).
  - split; [|by split]. by apply (Q_speed _ p).
  - split; [done|]. split; try done.
    + intros j o' Hj Hk. apply freezeEnemies_lookup in Hj as (o & Ho & [->|[-> Ht]]).
      * by apply (Htodo j).
      * apply (P_frozen _ b p); try done. by apply (Htodo j).
    + intros j o' Hj Hin. apply freezeEnemies_lookup in Hj as (o & Ho & [->|[-> Ht]]).
      * by apply (Hdone j).
      * apply (Q_frozen _ b p); try done. by apply (Hdone j).
  - split; [|by split]. by apply (Q_magnet _ p).
  - split; [done|]. by split.
Qed.

Lemma pickup_store (k : nat) (b : Ball) (L : Loop) :
  Q (trace L) b -> Store k L ->
  Q (trace (pickup env b L).1.2) (pickup env b L).1.1 /\ Store k (pickup env b L).1.2.
Proof.
  intros Hb HL. unfold pickup.
  pose proof (foldl_invariant (pickupStep env)
                (fun _ st => Q (trace st.1.2) st.1.1 /\ Store k st.1.2)
                (registry L) (b, L, [])) as H.
  destruct (foldl (pickupStep env) (b, L, []) (registry L)) as [[b' L'] tR].
  simpl in *. destruct H as [Hb' [Htodo Hdone Hrefs Hfresh Hnext]].
  - done.
  - intros _ p [[b1 L1] tR1] [Hb1 HL1]. simpl in *.
    destruct (touches b1 p); [|done].
    pose proof (applyPowerUp_store k p b1 L1 Hb1 HL1) as H. cbn zeta in H.
    by destruct (applyPowerUp env p b1 _) as [b2 L2].
  - split; [done|]. by split.
Qed.

Lemma processBall_store (tilesRef : Grid) (k : nat) (L L' : Loop) :
  Store k L -> processBall env tilesRef L k = Some L' -> Store (S k) L'.
Proof.
  intros HL H.
  destruct (objs L !! k) as [b0|] eqn:Hk.
  2:{ unfold processBall in H. by rewrite Hk in H. }
  assert (P (trace L) b0) as Hb0 by (by apply (st_todo k L HL k)).
  assert (forall (M : Loop) (b : Ball),
            Store k M -> Q (trace M) b ->
            Store (S k) (push_newBalls (Old k) (set_objs (<[k := b]> (objs M)) M))) as Hpush.
  { intros M b [Htodo Hdone Hrefs Hfresh Hnext] Hb. split; simpl; try done.
    - intros j o Hj Hle. rewrite list_lookup_insert_ne in Hj by lia.
      apply (Htodo j o Hj). lia.
    - intros j o Hj Hin. destruct (decide (j = k)) as [->|Hne].
      + assert (k < length (objs M))%nat as Hlen.
        { apply lookup_lt_Some in Hj. by rewrite length_insert in Hj. }
        rewrite list_lookup_insert_eq in Hj by done. by simplify_eq.
      + rewrite list_lookup_insert_ne in Hj by done. apply (Hdone j o Hj).
        apply elem_of_app in Hin as [Hin|Hin]; [done|].
        apply list_elem_of_singleton in Hin. congruence.
    - intros j Hin. apply elem_of_app in Hin as [Hin|Hin].
      + apply Hrefs in Hin. lia.
      + apply list_elem_of_singleton in Hin. simplify_eq. lia.
    - intros c Hin. apply elem_of_app in Hin as [Hin|Hin]; [by apply Hfresh|].
      by apply list_elem_of_singleton in Hin. }
  rewrite (processBall_unfold env tilesRef L k b0 Hk) in H.
  destruct (expires b0) eqn:Hexp.
  { simplify_eq. destruct HL as [Htodo Hdone Hrefs Hfresh Hnext]. split; simpl; try done.
    - intros j o Hj Hle. rewrite list_lookup_insert_ne in Hj by lia.
      apply (Htodo j o Hj). lia.
    - intros j o Hj Hin. pose proof (Hrefs j Hin).
      rewrite list_lookup_insert_ne in Hj by lia. by apply (Hdone j).
    - intros j Hin. apply Hrefs in Hin. lia. }
  assert (Q (trace L) (tick b0)) as Htick by (by apply Q_tick).
  destruct (0 <? frozen (tick b0)) eqn:Hfz.
  { simplify_eq. by apply Hpush. }
  assert (Q (trace L) (boundary env (move env (tick b0)))) as Hmove
    by (apply Q_move; [done|lia]).
  pose proof (pickup_store k _ L Hmove HL) as [Hb4 HL1].
  destruct (pickup env (boundary env (move env (tick b0))) L) as [[b4 L1] rm].
  simpl in Hb4, HL1.
  destruct (tilePhase env tilesRef b4 L1) as [[b5 L2]|] eqn:Ht; simpl in H; [|done].
  simplify_eq.
  pose proof (tilePhase_redirects env tilesRef b4 b5 L1 L2 Ht) as Hred.
  destruct (tilePhase_actor env tilesRef b4 b5 L1 L2 Ht) as (evs & Htr & _).
  apply tilePhase_cases in Ht as (E1 & E2 & E3 & _ & _).
  apply Hpush.
  - by apply (Store_log k L1 L2 evs).
  - rewrite Htr. destruct Hred as [->|(angle & -> & Hev)]; [by apply Q_log|].
    apply Q_redirect; [by rewrite <- Htr|]. by apply Q_log.
Qed.

(** The balls at the end of the frame. *)
Lemma frame_invariant_log (g g' : Game) (tr : list Event) :
  gameLoop env g = Some (g', tr) -> (c0 <= ballIdCounter g)%nat ->
  Forall (P []) (balls g) -> Forall (Q tr) (balls g').
Proof.
  intros H Hc HP. unfold gameLoop in H.
  set (L0 := mkLoop (balls g) [] _ (tiles g) false (ballIdCounter g) _ _) in H.
  destruct (forM (processBall env (tiles g)) L0 (seq 0 (length (balls g))))
    as [L|] eqn:HL; simpl in H; [|done].
  destruct (mapM (deref (objs L)) (newBalls L)) as [bs|] eqn:Hbs; simpl in H; [|done].
  destruct (countTiles _) as [counts|]; simpl in H; [|done]. simplify_eq. simpl.
  assert (Store (length (balls g)) L) as [Htodo Hdone Hrefs Hfresh Hnext].
  { eapply (forM_seq_preserves _ Store); [|
      |exact HL].
    - intros k L1 L2 _. apply processBall_store.
    - split; simpl; try done.
      + intros j o Hj _. apply (P_log [] _ o).
        apply (Forall_lookup_1 _ _ _ _ HP Hj).
      + intros j o _ Hin. by apply elem_of_nil in Hin.
      + intros j Hin. by apply elem_of_nil in Hin.
      + intros c Hin. by apply elem_of_nil in Hin. }
  apply mapM_Some_1 in Hbs. apply Forall_forall. intros b Hb.
  apply list_elem_of_In, list_elem_of_lookup in Hb as [n Hn].
  destruct (Forall2_lookup_r _ _ _ _ _ Hbs Hn) as (r & Hr & Hd).
  assert (r ∈ newBalls L) as Hin by (by eapply list_elem_of_lookup_2).
  destruct r as [j|c]; simpl in Hd.
  - by apply (Hdone j).
  - simplify_eq. by apply Hfresh.
Qed.

End FrameInvariantLog.

(** The same for predicates that do not look at the log. *)

Section FrameInvariant.

Variable env : Env.
Variable c0 : nat.
Variables P Q : Ball -> Prop.

Hypothesis P_frozen : forall b, P b -> P (set_frozen POWERUP_DURATION b).
Hypothesis Q_frozen : forall b, Q b -> Q (set_frozen POWERUP_DURATION b).
Hypothesis Q_tick : forall b, P b -> expires b = false -> Q (tick b).
Hypothesis Q_move : forall b, Q b -> frozen b <= 0 -> Q (boundary env (move env b)).
Hypothesis Q_giant : forall b,
  Q b -> Q (set_radius (baseRadius b * 2.5)%R (set_giant POWERUP_DURATION b)).
Hypothesis Q_speed : forall b, Q b -> Q (set_speed POWERUP_DURATION b).
Hypothesis Q_magnet : forall b, Q b -> Q (magnetEffect env b).
Hypothesis Q_clone : forall n b, (c0 <= n)%nat -> Q b -> Q (makeClone n b).
Hypothesis Q_redirect : forall angle b, Q b -> Q (redirected angle b).

Lemma frame_invariant (g g' : Game) (tr : list Event) :
  gameLoop env g = Some (g', tr) -> (c0 <= ballIdCounter g)%nat ->
  Forall P (balls g) -> Forall Q (balls g').
Proof.
  intros H Hc HP.
  apply (frame_invariant_log env c0 (fun _ => P) (fun _ => Q)) with (g := g) (tr := tr);
    auto.
Qed.

End FrameInvariant.

(** ** Predicates that every frame preserves *)

(** [P] is kept by every assignment a frame can make to a ball, in frames
    whose inputs satisfy [envOK]. *)
Record Preserved (envOK : Env -> Prop) (P : Ball -> Prop) : Prop := {
  pv_frozen : forall b, P b -> P (set_frozen POWERUP_DURATION b);
  pv_tick : forall b, P b -> expires b = false -> P (tick b);
  pv_move : forall env b, envOK env -> P b -> frozen b <= 0 -> P (boundary env (move env b));
  pv_giant : forall b, P b -> P (set_radius (baseRadius b * 2.5)%R (set_giant POWERUP_DURATION b));
  pv_speed : forall b, P b -> P (set_speed POWERUP_DURATION b);
  pv_magnet : forall env b, envOK env -> P b -> P (magnetEffect env b);
  pv_clone : forall n b, P b -> P (makeClone n b);
  pv_redirect : forall angle b, P b -> P (redirected angle b)
}.

Lemma frame_preserved (envOK : Env -> Prop) (P : Ball -> Prop) (env : Env) (g g' : Game)
    (tr : list Event) :
  Preserved envOK P -> envOK env -> gameLoop env g = Some (g', tr) ->
  Forall P (balls g) -> Forall P (balls g').
Proof.
  intros [H1 H2 H3 H4 H5 H6 H7 H8] He H.
  apply (frame_invariant env 0 P P) with (tr := tr); auto. lia.
Qed.

Lemma run_preserved (envOK : Env -> Prop) (P : Ball -> Prop) (envs : list Env) (g g' : Game)
    (tr : list Event) :
  Preserved envOK P -> Forall envOK envs -> run envs g = Some (g', tr) ->
  Forall P (balls g) -> Forall P (balls g').
Proof.
  intros HP. revert g tr. induction envs as [|env envs IH]; intros g tr He Hrun Hg.
  - simpl in Hrun. by simplify_eq.
  - apply run_cons_inv in Hrun as (g1 & tr1 & tr2 & H1 & H2 & ->).
    inversion He as [|? ? He1 He2]; subst.
    apply (IH g1 tr2 He2 H2). by eapply frame_preserved.
Qed.

Lemma Forall_elem_of {A : Type} (P : A -> Prop) (l : list A) (a : A) :
  Forall P l -> a ∈ l -> P a.
Proof. intros H Ha. rewrite Forall_forall in H. by apply H, list_elem_of_In. Qed.

Definition anyEnv (env : Env) : Prop := True.

Lemma Forall_anyEnv (envs : list Env) : Forall anyEnv envs.
Proof. by apply Forall_true. Qed.

(** *** Effect timers *)

Definition timersOK (b : Ball) : Prop :=
  0 <= frozen b <= POWERUP_DURATION /\ 0 <= giant b <= POWERUP_DURATION /\
  0 <= speed b <= POWERUP_DURATION /\
  if isClone b then 1 <= cloneExpires b <= POWERUP_DURATION * 2 else cloneExpires b = 0.

Lemma tick_fields (b : Ball) :
  ball_id (tick b) = ball_id b /\ team (tick b) = team b /\ isClone (tick b) = isClone b /\
  baseRadius (tick b) = baseRadius b /\
  x (tick b) = x b /\ y (tick b) = y b /\ vx (tick b) = vx b /\ vy (tick b) = vy b /\
  cloneExpires (tick b) = decExpires b /\
  frozen (tick b) = (if 0 <? frozen b then frozen b - 1 else frozen b) /\
  giant (tick b) = (if 0 <? giant b then giant b - 1 else giant b) /\
  speed (tick b) = (if 0 <? speed b then speed b - 1 else speed b) /\
  radius (tick b) = (if 0 <? giant b
                     then (if 0 <? giant b - 1 then baseRadius b * 2.5 else baseRadius b)%R
                     else radius b) /\
  trail (tick b) = (if (TRAIL_LENGTH <? length (trail b ++ [(x b, y b)]))%nat
                    then tail (trail b ++ [(x b, y b)]) else trail b ++ [(x b, y b)]).
Proof.
  unfold tick, decExpires, updateTrail, decayTimers.
  destruct (isClone b && (0 <? cloneExpires b)); simpl;
    destruct (0 <? frozen b); simpl; destruct (0 <? giant b); simpl;
    destruct (0 <? speed b); simpl; split_and!; reflexivity.
Qed.

Lemma boundary_more_fields (env : Env) (b : Ball) :
  giant (boundary env b) = giant b /\ speed (boundary env b) = speed b /\
  trail (boundary env b) = trail b.
Proof. unfold boundary. repeat case_decide; done. Qed.

Lemma timersOK_preserved : Preserved anyEnv timersOK.
Proof.
  unfold timersOK, POWERUP_DURATION. split.
  - intros b (F & G & S & C). simpl. split_and!; try done; lia.
  - intros b (F & G & S & C) Hexp.
    destruct (tick_fields b) as (_ & _ & -> & _ & _ & _ & _ & _ & -> & -> & -> & -> & _).
    unfold decExpires. unfold expires in Hexp.
    split_and!;
      try (match goal with |- context [0 <? ?z] => destruct (0 <? z) eqn:? end; lia).
    destruct (isClone b); simpl in *; [|exact C].
    destruct (0 <? cloneExpires b) eqn:E1; simpl in *; lia.
  - intros env b _ (F & G & S & C) _.
    destruct (move_fields env b) as (_ & _ & M3 & _ & M5 & M6 & _).
    destruct (boundary_fields env (move env b)) as (_ & _ & B3 & _ & B5 & B6 & _).
    destruct (boundary_more_fields env (move env b)) as (B8 & B9 & _).
    rewrite B3, B5, B6, B8, B9, M3, M5, M6. done.
  - intros b (F & G & S & C). simpl. split_and!; try done; lia.
  - intros b (F & G & S & C). simpl. split_and!; try done; lia.
  - intros env b _ H. unfold magnetEffect. case_decide; done.
  - intros n b H. simpl. unfold POWERUP_DURATION. lia.
  - intros angle b H. done.
Qed.

(** *** Radius and giant timer *)

Definition radiusOK (b : Ball) : Prop :=
  radius b = (if 0 <? giant b then baseRadius b * 2.5 else baseRadius b)%R.

Lemma radiusOK_preserved : Preserved anyEnv radiusOK.
Proof.
  unfold radiusOK. split.
  - intros b H. done.
  - intros b H Hexp.
    destruct (tick_fields b) as (_ & _ & _ & -> & _ & _ & _ & _ & _ & _ & -> & _ & -> & _).
    rewrite H. destruct (0 <? giant b) eqn:E; [|by rewrite E]. done.
  - intros env b _ H _.
    destruct (move_fields env b) as (_ & _ & _ & M4 & _ & _ & M7).
    destruct (boundary_fields env (move env b)) as (_ & _ & _ & B4 & _ & _ & B7).
    destruct (boundary_more_fields env (move env b)) as (G & _).
    rewrite B7, B4, G, M7, M4. exact H.
  - intros b H. done.
  - intros b H. done.
  - intros env b _ H. unfold magnetEffect. case_decide; done.
  - intros n b H. done.
  - intros angle b H. done.
Qed.

(** *** Trail length *)

Definition trailOK (b : Ball) : Prop := (length (trail b) <= TRAIL_LENGTH)%nat.

Lemma trailOK_preserved : Preserved anyEnv trailOK.
Proof.
  unfold trailOK, TRAIL_LENGTH. split.
  - intros b H. done.
  - intros b H Hexp.
    destruct (tick_fields b) as (_ & _ & _ & _ & _ & _ & _ & _ & _ & _ & _ & _ & _ & ->).
    unfold TRAIL_LENGTH. destruct (12 <? _)%nat eqn:E.
    + destruct (trail b) as [|pt l]; simpl in *; rewrite ?length_app; simpl; lia.
    + apply Nat.ltb_ge in E. done.
  - intros env b _ H _.
    destruct (boundary_more_fields env (move env b)) as (_ & _ & ->). done.
  - intros b H. done.
  - intros b H. done.
  - intros env b _ H. unfold magnetEffect. case_decide; done.
  - intros n b H. simpl. lia.
  - intros angle b H. done.
Qed.

(** *** Position *)





(** ** The balls of a running game *)

Lemma mountGame_run (w h : R) (rnd : nat -> R) (envs : list Env) :
  exists g tr, run envs (mountGame w h rnd) = Some (g, tr) /\ gridShape (tiles g) /\
               frameCount g = Z.of_nat (length envs).
Proof.
  destruct (run_total envs (mountGame w h rnd) createInitialTiles_shape)
    as (g & tr & Hrun & Hg & Hfc).
  exists g, tr. split_and!; done.
Qed.

(** X1: at every frame boundary of a game, whatever the inputs of the
    frames, every live ball has its three effect timers between 0 and
    POWERUP_DURATION = 180; a clone has between 1 and 360 frames left to
    live, and a ball that is not a clone has [cloneExpires] = 0. *)
Theorem effect_timers_stay_in_range (w h : R) (rnd : nat -> R) (envs : list Env) :
  exists g tr,
    run envs (mountGame w h rnd) = Some (g, tr) /\
    forall b, b ∈ balls g ->
      0 <= frozen b <= 180 /\ 0 <= giant b <= 180 /\ 0 <= speed b <= 180 /\
      (isClone b = true -> 1 <= cloneExpires b <= 360) /\
      (isClone b = false -> cloneExpires b = 0).
Proof.
  destruct (mountGame_run w h rnd envs) as (g & tr & Hrun & _).
  exists g, tr. split; [done|].
  pose proof (run_preserved anyEnv timersOK envs _ g tr timersOK_preserved
                (Forall_anyEnv envs) Hrun) as H.
  intros b Hb. destruct (Forall_elem_of _ _ b (H ltac:(
    unfold timersOK, POWERUP_DURATION;
    constructor; [|constructor; [|constructor]]; simpl; lia)) Hb) as (F & G & S & C).
  unfold POWERUP_DURATION in *. split_and!; try lia.
  - intros E. rewrite E in C. lia.
  - intros E. by rewrite E in C.
Qed.

(** X2: at every frame boundary the radius of every live ball is
    2.5 x its base radius while its giant timer is positive, and its base
    radius otherwise. *)
Theorem radius_follows_giant_timer (w h : R) (rnd : nat -> R) (envs : list Env) :
  exists g tr,
    run envs (mountGame w h rnd) = Some (g, tr) /\
    forall b, b ∈ balls g ->
      radius b = (if 0 <? giant b then baseRadius b * 2.5 else baseRadius b)%R.
Proof.
  destruct (mountGame_run w h rnd envs) as (g & tr & Hrun & _).
  exists g, tr. split; [done|].
  pose proof (run_preserved anyEnv radiusOK envs _ g tr radiusOK_preserved
                (Forall_anyEnv envs) Hrun) as H.
  intros b Hb. apply (Forall_elem_of _ _ b (H ltac:(
    constructor; [|constructor; [|constructor]]; reflexivity)) Hb).
Qed.

(** *** The trail *)

(** The number of frames a ball has been processed in: a clone counts them
    down from 360 in [cloneExpires]; the other balls are as old as the
    game. *)
Definition age (frames : Z) (b : Ball) : Z :=
  if isClone b then POWERUP_DURATION * 2 - cloneExpires b else frames.

Definition trailAge (frames : Z) (b : Ball) : Prop :=
  (isClone b = true -> 1 <= cloneExpires b <= POWERUP_DURATION * 2) /\
  Z.of_nat (length (trail b)) = Z.min (Z.of_nat TRAIL_LENGTH) (age frames b).

Lemma frame_trailAge (env : Env) (g g' : Game) (tr : list Event) :
  gameLoop env g = Some (g', tr) -> 0 <= frameCount g ->
  Forall (trailAge (frameCount g)) (balls g) ->
  Forall (trailAge (frameCount g + 1)) (balls g').
Proof.
  intros H Hfc. set (n := frameCount g) in *.
  apply (frame_invariant env 0 (trailAge n) (trailAge (n + 1))) with (tr := tr);
    try done; try lia; unfold trailAge, age, TRAIL_LENGTH, POWERUP_DURATION.
  - intros b [Hc Ht] Hexp.
    destruct (tick_fields b) as (_ & _ & -> & _ & _ & _ & _ & _ & -> & _ & _ & _ & _ & ->).
    unfold decExpires. unfold expires in Hexp. unfold TRAIL_LENGTH.
    assert (Z.of_nat (length (if (12 <? length (trail b ++ [(x b, y b)]))%nat
                              then tail (trail b ++ [(x b, y b)])
                              else trail b ++ [(x b, y b)]))
            = Z.min 12 (Z.of_nat (length (trail b)) + 1)) as ->.
    { destruct (12 <? _)%nat eqn:E.
      - apply Nat.ltb_lt in E. rewrite length_app in E. simpl in E.
        destruct (trail b) as [|pt l]; simpl in *; rewrite ?length_app; simpl; lia.
      - apply Nat.ltb_ge in E. rewrite length_app in *. simpl in *. lia. }
    destruct (isClone b); simpl in *.
    + specialize (Hc eq_refl).
      destruct (0 <? cloneExpires b) eqn:E1; simpl in *; split; try lia.
    + split; [done|]. lia.
  - intros b [Hc Ht] _.
    destruct (move_fields env b) as (_ & _ & M3 & _ & M5 & _).
    destruct (boundary_fields env (move env b)) as (_ & _ & B3 & _ & B5 & _).
    destruct (boundary_more_fields env (move env b)) as (_ & _ & B9).
    rewrite B3, B5, B9, M3, M5. done.
  - intros b H0. unfold magnetEffect. case_decide; done.
Qed.

Lemma run_trailAge (envs : list Env) (g g' : Game) (tr : list Event) :
  gridShape (tiles g) -> run envs g = Some (g', tr) -> 0 <= frameCount g ->
  Forall (trailAge (frameCount g)) (balls g) ->
  Forall (trailAge (frameCount g')) (balls g').
Proof.
  revert g tr. induction envs as [|env envs IH]; intros g tr Hg Hrun Hfc HP.
  - simpl in Hrun. by simplify_eq.
  - apply run_cons_inv in Hrun as (g1 & tr1 & tr2 & H1 & H2 & ->).
    destruct (frame_grid env g g1 tr1 Hg H1) as (Hg1 & Hfc1 & _).
    apply (IH g1 tr2 Hg1 H2); [lia|]. rewrite Hfc1. by eapply frame_trailAge.
Qed.

(** X3: the trail of a ball holds one point for every frame the ball has
    been processed in, up to TRAIL_LENGTH = 12: after [n] frames, each of the
    balls that are not clones has min(12, n) trail points, and a clone with
    [cloneExpires] = c has min(12, 360 - c); no trail is ever longer than
    12. *)
Theorem trail_length_is_age_capped_at_12 (w h : R) (rnd : nat -> R) (envs : list Env) :
  exists g tr,
    run envs (mountGame w h rnd) = Some (g, tr) /\
    forall b, b ∈ balls g ->
      Z.of_nat (length (trail b))
      = Z.min 12 (if isClone b then 360 - cloneExpires b else Z.of_nat (length envs)) /\
      (length (trail b) <= 12)%nat.
Proof.
  destruct (mountGame_run w h rnd envs) as (g & tr & Hrun & _ & Hfc).
  exists g, tr. split; [done|].
  pose proof (run_trailAge envs (mountGame w h rnd) g tr createInitialTiles_shape Hrun) as H.
  rewrite Hfc in H. intros b Hb.
  destruct (Forall_elem_of _ _ b (H ltac:(done) ltac:(
    constructor; [|constructor; [|constructor]]; split; simpl; done)) Hb) as [_ Ht].
  unfold age, TRAIL_LENGTH, POWERUP_DURATION in Ht. split; [exact Ht|]. lia.
Qed.

(** *** Position *)





(** ** Which balls are live *)

(** A ball that is not at the end of its life is live after the frame, with
    the same id, team, base radius and clone flag. *)
Lemma run_survivor (envs : list Env) (g g' : Game) (tr : list Event) (b : Ball) :
  gridShape (tiles g) -> run envs g = Some (g', tr) ->
  b ∈ balls g -> isClone b = false ->
  exists b', b' ∈ balls g' /\ ball_id b' = ball_id b /\ team b' = team b /\
             baseRadius b' = baseRadius b /\ isClone b' = false.
Proof.
  revert g tr b. induction envs as [|env envs IH]; intros g tr b Hg Hrun Hb Hc.
  - simpl in Hrun. simplify_eq. by exists b.
  - apply run_cons_inv in Hrun as (g1 & tr1 & tr2 & H1 & H2 & ->).
    destruct (frame_grid env g g1 tr1 Hg H1) as (Hg1 & _).
    destruct (frame_balls env g g1 tr1 Hg H1) as (_ & _ & Hsurv & _).
    apply list_elem_of_lookup in Hb as [j Hj].
    destruct (Hsurv j b Hj) as (b1 & Hb1 & [E1 E2 E3 E4 _ _ _]).
    { unfold expires. by rewrite Hc. }
    destruct (IH g1 tr2 b1 Hg1 H2 Hb1) as (b' & Hb' & F1 & F2 & F3 & F4); [congruence|].
    exists b'. split_and!; congruence.
Qed.

(** Every live ball with an id below the counter of the starting state is
    one of the starting balls, with its team, base radius and clone flag. *)
Lemma run_origin (envs : list Env) (g g' : Game) (tr : list Event) (b' : Ball) :
  gridShape (tiles g) -> run envs g = Some (g', tr) ->
  b' ∈ balls g' -> (ball_id b' < ballIdCounter g)%nat ->
  exists b, b ∈ balls g /\ ball_id b' = ball_id b /\ team b' = team b /\
            baseRadius b' = baseRadius b /\ isClone b' = isClone b.
Proof.
  revert g tr. induction envs as [|env envs IH]; intros g tr Hg Hrun Hb' Hid.
  - simpl in Hrun. simplify_eq. by exists b'.
  - apply run_cons_inv in Hrun as (g1 & tr1 & tr2 & H1 & H2 & ->).
    destruct (frame_grid env g g1 tr1 Hg H1) as (Hg1 & _).
    destruct (frame_balls env g g1 tr1 Hg H1) as (Hc & Horigin & _ & _).
    destruct (IH g1 tr2 Hg1 H2 Hb') as (b1 & Hb1 & F1 & F2 & F3 & F4); [lia|].
    destruct (Horigin b1 Hb1) as [(j & o0 & Hj & _ & [E1 E2 E3 E4 _ _ _])|[Hfresh _]].
    + exists o0. split_and!; try congruence. by eapply list_elem_of_lookup_2.
    + lia.
Qed.

(** Only the balls of the start are not clones. *)
Definition originalOK (b : Ball) : Prop := isClone b = false -> (ball_id b < 2)%nat.

Lemma originalOK_preserved : Preserved anyEnv originalOK.
Proof.
  unfold originalOK. split.
  - intros b H. done.
  - intros b H Hexp.
    destruct (tick_fields b) as (-> & _ & -> & _). done.
  - intros env b _ H _.
    destruct (move_fields env b) as (M1 & _ & M3 & _).
    destruct (boundary_fields env (move env b)) as (B1 & _ & B3 & _).
    rewrite B1, B3, M1, M3. done.
  - intros b H. done.
  - intros b H. done.
  - intros env b _ H. unfold magnetEffect. case_decide; done.
  - intros n b H. done.
  - intros angle b H. done.
Qed.

(** X6: the two balls created at start-up are never removed: at every frame
    boundary the live set holds a Left ball with id 0 and a Right ball with
    id 1, neither of them a clone and both with the base radius they were
    created with; every other live ball is a clone.  So there are always at
    least two live balls, one per team. *)
Theorem original_balls_are_never_removed (w h : R) (rnd : nat -> R) (envs : list Env) :
  exists g tr,
    run envs (mountGame w h rnd) = Some (g, tr) /\
    (exists b, b ∈ balls g /\ ball_id b = 0%nat /\ team b = Left /\ isClone b = false /\
               baseRadius b = (Rmin (w / 20) (h / 12) * 0.4)%R) /\
    (exists b, b ∈ balls g /\ ball_id b = 1%nat /\ team b = Right /\ isClone b = false /\
               baseRadius b = (Rmin (w / 20) (h / 12) * 0.4)%R) /\
    (forall b, b ∈ balls g -> isClone b = false -> ball_id b = 0%nat \/ ball_id b = 1%nat) /\
    (2 <= length (balls g))%nat.
Proof.
  destruct (mountGame_run w h rnd envs) as (g & tr & Hrun & _).
  exists g, tr.
  pose proof (run_survivor envs (mountGame w h rnd) g tr) as Hs.
  destruct (Hs (mkBall 0 (IZR COLS * 0.25 * (w / IZR COLS))%R (IZR ROWS / 2 * (h / IZR ROWS))%R
                  BASE_SPEED ((rnd 0%nat - 0.5) * 2)%R Left
                  (Rmin (w / IZR COLS) (h / IZR ROWS) * 0.4)%R
                  (Rmin (w / IZR COLS) (h / IZR ROWS) * 0.4)%R [] 0 0 0 false 0))
    as (bL & HbL & L1 & L2 & L3 & L4);
    [apply createInitialTiles_shape | done | by left | done |].
  destruct (Hs (mkBall 1 (IZR COLS * 0.75 * (w / IZR COLS))%R (IZR ROWS / 2 * (h / IZR ROWS))%R
                  (- BASE_SPEED)%R ((rnd 1%nat - 0.5) * 2)%R Right
                  (Rmin (w / IZR COLS) (h / IZR ROWS) * 0.4)%R
                  (Rmin (w / IZR COLS) (h / IZR ROWS) * 0.4)%R [] 0 0 0 false 0))
    as (bR & HbR & R1 & R2 & R3 & R4);
    [apply createInitialTiles_shape | done | right; by left | done |].
  simpl in *. split_and!; try done.
  - exists bL. split_and!; done.
  - exists bR. split_and!; done.
  - intros b Hb Hc.
    pose proof (run_preserved anyEnv originalOK envs _ g tr originalOK_preserved
                  (Forall_anyEnv envs) Hrun) as H.
    assert (ball_id b < 2)%nat; [|lia].
    apply (Forall_elem_of _ _ b (H ltac:(
      constructor; [|constructor; [|constructor]]; intros _; simpl; lia)) Hb Hc).
  - apply list_elem_of_lookup in HbL as [i Hi]. apply list_elem_of_lookup in HbR as [j Hj].
    assert (i <> j) by (intros ->; simplify_eq; congruence).
    apply lookup_lt_Some in Hi. apply lookup_lt_Some in Hj. lia.
Qed.

(** X7: a ball never changes team, base radius or clone flag, and ids are not
    reused: after any run from start-up, a live ball whose id is below the
    starting id counter is one of the starting balls, with the team, the
    base radius and the clone flag it started with. *)
Theorem ball_identity_is_stable (envs : list Env) (bs : list Ball) (idc : nat) :
  exists g tr,
    run envs (initialGame bs idc) = Some (g, tr) /\
    forall b', b' ∈ balls g -> (ball_id b' < idc)%nat ->
      exists b, b ∈ bs /\ ball_id b' = ball_id b /\ team b' = team b /\
                baseRadius b' = baseRadius b /\ isClone b' = isClone b.
Proof.
  destruct (run_total envs (initialGame bs idc) createInitialTiles_shape)
    as (g & tr & Hrun & _ & _).
  exists g, tr. split; [done|]. intros b' Hb' Hid.
  by apply (run_origin envs (initialGame bs idc) g tr b' createInitialTiles_shape Hrun).
Qed.

(** ** The registry and the id counters, from the log *)

Lemma filter_not_in_app (l : list PowerUp) (a b : list nat) :
  filter (fun p => pu_id p ∉ b) (filter (fun p => pu_id p ∉ a) l)
  = filter (fun p => pu_id p ∉ a ++ b) l.
Proof.
  rewrite list_filter_filter. apply list_filter_iff. intros p.
  rewrite not_elem_of_app. tauto.
Qed.

Lemma filter_all {A : Type} (P : A -> Prop) `{!forall a, Decision (P a)} (l : list A) :
  Forall P l -> filter P l = l.
Proof.
  induction 1 as [|a l Ha _ IH]; [done|]. rewrite filter_cons, decide_True by done.
  by rewrite IH.
Qed.

Lemma spawns_app (t1 t2 : list Event) : spawns (t1 ++ t2) = spawns t1 ++ spawns t2.
Proof. apply omap_app. Qed.

Lemma pickIds_no_pickups (evs : list Event) : pickups evs = [] -> pickIds evs = [].
Proof. unfold pickIds. by intros ->. Qed.

(** The registry and the ball id counter in the ball loop, from what the
    log gained since the loop started. *)
Record LogCount (L0 L : Loop) : Prop := {
  lc_shape : gridShape (newTiles L);
  lc_len : length (objs L) = length (objs L0);
  lc_log : exists evs,
    trace L = trace L0 ++ evs /\ spawns evs = [] /\
    registry L = filter (fun p => pu_id p ∉ pickIds evs) (registry L0) /\
    nextBallId L = (nextBallId L0 + splitPicks evs)%nat
}.

Lemma processBall_logCount (env : Env) (tilesRef : Grid) (L0 L L' : Loop) (k : nat) :
  gridShape tilesRef -> LogCount L0 L -> (k < length (objs L0))%nat ->
  processBall env tilesRef L k = Some L' -> LogCount L0 L'.
Proof.
  intros Ht [Hs Hlen (evs & Htr & Hsp & Hreg & Hid)] Hk H.
  destruct (lookup_lt_is_Some_2 (objs L) k) as [b0 Hb0]; [lia|].
  destruct (processBall_spec env tilesRef L k b0 Hb0 Ht Hs)
    as (L'' & b' & mid & clones & picked & tevs & HL' & Hshape & Hmid & Hobjs & _ &
        _ & Hnext & _ & _ & Hreg' & Htrace & Htevs & _ & Hsplits).
  rewrite HL' in H. simplify_eq. split.
  - done.
  - rewrite Hobjs, length_insert, <- Hlen. symmetry. by eapply Forall2_length.
  - exists (evs ++ (EvPickup (ball_id b0) (team b0) <$> picked) ++ tevs).
    assert (pickups tevs = []) as Hno by (by apply tile_events_no_pickups).
    assert (spawns tevs = []) as Hns.
    { apply spawns_none. eapply List.Forall_impl; [|exact Htevs].
      intros [] He; simpl in *; tauto. }
    split_and!.
    + by rewrite Htrace, Htr, <- app_assoc.
    + rewrite !spawns_app, Hsp, Hns, app_nil_r. simpl.
      clear. induction picked as [|p l IH]; [done|]. exact IH.
    + assert (pickIds (evs ++ (EvPickup (ball_id b0) (team b0) <$> picked) ++ tevs)
              = pickIds evs ++ (pu_id <$> picked)) as ->.
      { rewrite !pickIds_app, (pickIds_no_pickups tevs Hno), app_nil_r. f_equal.
        unfold pickIds. rewrite pickups_of_pickup_events, <- list_fmap_compose. done. }
      by rewrite Hreg', Hreg, filter_not_in_app.
    + rewrite Hnext, Hid, Hsplits, !splitPicks_app, splitPicks_of_pickup_events.
      assert (splitPicks tevs = 0%nat) as -> by (unfold splitPicks; by rewrite Hno).
      lia.
Qed.

(** After a frame the registry is what it was after the spawn, less the
    power-ups picked up in the frame; and the ball id counter has advanced
    by the number of "split" pickups. *)
Lemma frame_log (env : Env) (g g' : Game) (tr : list Event) :
  gridShape (tiles g) -> gameLoop env g = Some (g', tr) ->
  powerUps g' = filter (fun p => pu_id p ∉ pickIds tr) (powerUps g ++ spawns tr) /\
  ballIdCounter g' = (ballIdCounter g + splitPicks tr)%nat /\
  powerUpIdCounter g' = (powerUpIdCounter g + length (spawns tr))%nat /\
  Forall (fun p => pu_id p = powerUpIdCounter g) (spawns tr).
Proof.
  intros Hg H.
  destruct (frame_registry env g g' tr Hg H) as (_ & _ & _ & _ & _ & Hctr).
  destruct (frame_spawns env g g' tr Hg H) as (Hsp & _ & _).
  destruct (frame_grid env g g' tr Hg H) as (_ & Hfc & _).
  rewrite Hfc in Hsp.
  unfold gameLoop in H.
  set (L0 := mkLoop (balls g) [] _ (tiles g) false (ballIdCounter g) _ _) in H.
  destruct (forM (processBall env (tiles g)) L0 (seq 0 (length (balls g))))
    as [L|] eqn:HL; simpl in H; [|done].
  destruct (mapM (deref (objs L)) (newBalls L)) as [bs|] eqn:Hbs; simpl in H; [|done].
  destruct (countTiles _) as [counts|]; simpl in H; [|done]. simplify_eq. simpl in *.
  assert (LogCount L0 L) as [_ _ (evs & Htr & Hns & Hreg & Hid)].
  { apply (forM_seq_preserves (processBall env (tiles g)) (fun _ => LogCount L0)
             (length (balls g)) L0 L); [| |exact HL].
    - intros k L1 L2 Hk H1. by apply processBall_logCount.
    - split; try done. exists []. simpl. rewrite app_nil_r, Nat.add_0_r.
      split_and!; try done. symmetry. apply filter_none_removed. }
  subst L0. simpl in *.
  assert (pickIds (trace L) = pickIds evs /\ splitPicks (trace L) = splitPicks evs /\
          spawns (trace L) = (if spawnDue (frameCount g + 1) (powerUps g)
                              then [spawnPowerUp env (powerUpIdCounter g) 0] else []))
    as (Hp & Hs & Hw).
  { rewrite Htr, pickIds_app, splitPicks_app, spawns_app, Hns.
    destruct (spawnDue _ _); simpl; rewrite ?app_nil_r; done. }
  rewrite Hp, Hs, Hw, Hreg, Hid.
  destruct (spawnDue _ _); simpl; rewrite ?app_nil_r; split_and!; try done; try lia.
  - by repeat constructor.
Qed.

Lemma run_log (envs : list Env) (g g' : Game) (tr : list Event) :
  gridShape (tiles g) -> run envs g = Some (g', tr) ->
  ballIdCounter g' = (ballIdCounter g + splitPicks tr)%nat /\
  powerUpIdCounter g' = (powerUpIdCounter g + length (spawns tr))%nat /\
  Forall (fun p => (powerUpIdCounter g <= pu_id p < powerUpIdCounter g')%nat) (spawns tr).
Proof.
  revert g tr. induction envs as [|env envs IH]; intros g tr Hg Hrun.
  - simpl in Hrun. simplify_eq.
    change (splitPicks []) with 0%nat. change (spawns []) with (@nil PowerUp).
    simpl. split_and!; [lia..|constructor].
  - apply run_cons_inv in Hrun as (g1 & tr1 & tr2 & H1 & H2 & ->).
    destruct (frame_grid env g g1 tr1 Hg H1) as (Hg1 & _).
    destruct (frame_log env g g1 tr1 Hg H1) as (_ & F1 & F2 & F3).
    destruct (IH g1 tr2 Hg1 H2) as (G1 & G2 & G3).
    rewrite splitPicks_app, spawns_app, length_app. split_and!; try lia.
    apply Forall_app. split.
    + apply Forall_forall. intros p Hin.
      rewrite Forall_forall in F3. rewrite (F3 p Hin).
      destruct (spawns tr1); simpl in *; [done|lia].
    + eapply List.Forall_impl; [|exact G3]. simpl. intros p Hp. lia.
Qed.

(** X8: ids are handed out one by one and never skipped: after any run from
    start-up the ball id counter is its starting value plus the number of
    "split" pickups of the run, and the power-up id counter is the number of
    power-ups spawned in the run. *)
Theorem id_counters_count_splits_and_spawns (envs : list Env) (bs : list Ball) (idc : nat) :
  exists g tr,
    run envs (initialGame bs idc) = Some (g, tr) /\
    ballIdCounter g = (idc + splitPicks tr)%nat /\
    powerUpIdCounter g = length (spawns tr).
Proof.
  destruct (run_total envs (initialGame bs idc) createInitialTiles_shape)
    as (g & tr & Hrun & _ & _).
  exists g, tr. split; [done|].
  destruct (run_log envs (initialGame bs idc) g tr createInitialTiles_shape Hrun)
    as (H1 & H2 & _).
  simpl in *. split; [done|lia].
Qed.

(** The registry after a run: what was active or spawned, less what was
    picked up. *)
Lemma run_registry (envs : list Env) (g g' : Game) (tr : list Event) (consumed : list nat) :
  gridShape (tiles g) -> regInv g consumed -> run envs g = Some (g', tr) ->
  powerUps g' = filter (fun p => pu_id p ∉ pickIds tr) (powerUps g ++ spawns tr).
Proof.
  revert g tr consumed. induction envs as [|env envs IH]; intros g tr consumed Hg HI Hrun.
  - simpl in Hrun. simplify_eq. simpl. rewrite app_nil_r. symmetry.
    apply filter_none_removed.
  - apply run_cons_inv in Hrun as (g1 & tr1 & tr2 & H1 & H2 & ->).
    destruct (frame_grid env g g1 tr1 Hg H1) as (Hg1 & _).
    destruct (frame_log env g g1 tr1 Hg H1) as (F0 & _).
    pose proof (frame_regInv env g g1 tr1 consumed Hg H1 HI) as HI1.
    rewrite (IH g1 tr2 _ Hg1 HI1 H2), F0.
    destruct (run_log envs g1 g' tr2 Hg1 H2) as (_ & _ & Hids).
    rewrite pickIds_app, spawns_app, <- filter_not_in_app, app_assoc.
    rewrite (list.filter_app _ (powerUps g ++ spawns tr1)). f_equal. f_equal.
    symmetry. apply filter_all.
    destruct HI1 as [_ Hbound]. rewrite !Forall_app in Hbound.
    destruct Hbound as (_ & _ & Hb1).
    eapply List.Forall_impl; [|exact Hids]. simpl. intros p Hp Hin.
    pose proof (Forall_elem_of _ _ _ Hb1 Hin) as Hlt. simpl in Hlt. lia.
Qed.

(** X9: power-ups stay until they are picked up: after any run from
    start-up the active power-ups are exactly the power-ups spawned so far
    whose id no ball has picked up, in the order they were spawned, each as
    it was spawned. *)
Theorem active_powerups_are_spawned_and_not_picked (envs : list Env) (bs : list Ball)
    (idc : nat) :
  exists g tr,
    run envs (initialGame bs idc) = Some (g, tr) /\
    powerUps g = filter (fun p => pu_id p ∉ pickIds tr) (spawns tr).
Proof.
  destruct (run_total envs (initialGame bs idc) createInitialTiles_shape)
    as (g & tr & Hrun & _ & _).
  exists g, tr. split; [done|].
  apply (run_registry envs (initialGame bs idc) g tr (@nil nat) createInitialTiles_shape).
  - split; simpl; constructor.
  - done.
Qed.

(** ** The spawn policy *)

(** C9, as the code has it: in every frame, whatever the size of the world
    and whatever [Math.random] returns, a power-up is spawned if and only if
    the frame index is a multiple of 300 and fewer than 3 power-ups are
    active; at most one is spawned per frame; the spawned power-up is pushed
    to the active list, which at the end of the frame is the old list
    followed by the spawned one, less the power-ups picked up in the frame;
    and the number of active power-ups never exceeds 3 at a frame boundary.
    When [Math.random] returns values in [0, 1) and the world is at least 60
    wide and 60 high, the position of the spawned power-up lies in
    [30, width - 30] x [30, height - 30]. *)
Theorem powerup_spawn_policy (envs : list Env) (bs : list Ball) (idc : nat) (env : Env) :
  exists g tr,
    run envs (initialGame bs idc) = Some (g, tr) /\
    (length (powerUps g) <= 3)%nat /\
    exists g' tr',
      gameLoop env g = Some (g', tr') /\
      frameCount g' = Z.of_nat (length envs) + 1 /\
      spawns tr' = (if (Z.rem (frameCount g') 300 =? 0) && (length (powerUps g) <? 3)%nat
                    then [spawnPowerUp env (powerUpIdCounter g) 0] else []) /\
      ((exists p, p ∈ spawns tr') <->
       (Z.rem (frameCount g') 300 = 0 /\ (length (powerUps g) < 3)%nat)) /\
      (length (spawns tr') <= 1)%nat /\
      powerUps g' = filter (fun p => pu_id p ∉ pickIds tr') (powerUps g ++ spawns tr') /\
      (length (powerUps g') <= 3)%nat /\
      ((0 <= random env 0%nat < 1)%R -> (0 <= random env 1%nat < 1)%R ->
       (60 <= width env)%R -> (60 <= height env)%R ->
       forall p, p ∈ spawns tr' ->
         (30 <= pu_x p <= width env - 30)%R /\ (30 <= pu_y p <= height env - 30)%R).
Proof.
  destruct (run_total envs (initialGame bs idc) createInitialTiles_shape)
    as (g & tr & Hrun & Hg & Hfc).
  pose proof (run_powerUps_bound envs (initialGame bs idc) g tr
                createInitialTiles_shape Hrun) as Hlen.
  specialize (Hlen ltac:(simpl; lia)).
  exists g, tr. split_and!; try done.
  destruct (gameLoop_total env g Hg) as (g' & tr' & Hstep).
  destruct (frame_grid env g g' tr' Hg Hstep) as (_ & Hfc' & _).
  destruct (frame_spawns env g g' tr' Hg Hstep) as (Hsp & Hb & _).
  destruct (frame_log env g g' tr' Hg Hstep) as (Hreg & _).
  exists g', tr'. unfold spawnDue, POWERUP_SPAWN_INTERVAL in Hsp.
  split; [done|]. split; [rewrite Hfc', Hfc; simpl; lia|].
  split; [done|]. split; [|split; [|split; [done|split; [by apply Hb|]]]].
  - rewrite Hsp. destruct (Z.rem (frameCount g') 300 =? 0) eqn:E1;
      destruct (length (powerUps g) <? 3)%nat eqn:E2; simpl.
    + apply Z.eqb_eq in E1. apply Nat.ltb_lt in E2. split; [done|].
      intros _. eexists. by apply list_elem_of_singleton.
    + apply Nat.ltb_ge in E2. split; [|lia]. intros [p Hp]. by apply elem_of_nil in Hp.
    + apply Z.eqb_neq in E1. split; [|tauto]. intros [p Hp]. by apply elem_of_nil in Hp.
    + apply Z.eqb_neq in E1. split; [|tauto]. intros [p Hp]. by apply elem_of_nil in Hp.
  - rewrite Hsp. destruct (_ && _); simpl; lia.
  - intros Hr0 Hr1 Hw Hh p Hp. rewrite Hsp in Hp.
    destruct (_ && _); [|by apply elem_of_nil in Hp].
    apply list_elem_of_singleton in Hp. subst p. simpl. nra.
Qed.

Lemma powerup_spawn_policy_witness :
  exists g tr g' tr' p,
    run (replicate 299 env2) (mountGame 2000 1200 (fun _ => 0.5%R)) = Some (g, tr) /\
    gameLoop env2 g = Some (g', tr') /\
    spawns tr' = [p] /\
    (30 <= pu_x p <= 1970)%R /\ (30 <= pu_y p <= 1170)%R.
Proof.
  destruct (powerup_spawn_policy (replicate 299 env2)
              (createInitialBalls (2000 / IZR COLS) (1200 / IZR ROWS) 0 (fun _ => 0.5%R))
              2 env2)
    as (g & tr & Hrun & Hlen & g' & tr' & Hstep & Hfc & Hsp & _ & _ & _ & _ & Hpos).
  assert (powerUps g = []) as Hempty.
  { apply (run_before_first_spawn (replicate 299 env2) (mountGame 2000 1200 (fun _ => 0.5%R))
             g tr createInitialTiles_shape Hrun); done. }
  rewrite Hfc, Hempty, length_replicate in Hsp.
  change (spawns tr' = [spawnPowerUp env2 (powerUpIdCounter g) 0]) in Hsp.
  exists g, tr, g', tr', (spawnPowerUp env2 (powerUpIdCounter g) 0).
  split; [exact Hrun|]. split; [exact Hstep|]. split; [exact Hsp|].
  destruct (Hpos ltac:(simpl; lra) ltac:(simpl; lra) ltac:(simpl; lra) ltac:(simpl; lra)
              (spawnPowerUp env2 (powerUpIdCounter g) 0)) as [Hx Hy].
  - rewrite Hsp. by left.
  - simpl in Hx, Hy |- *. split; lra.
Defined.

(** ** Reading and writing cells *)

Lemma getTile_setTile_eq (g : Grid) (r c : Z) (t : Tile) :
  is_Some (getTile g r c) -> getTile (setTile g r c t) r c = Some t.
Proof.
  unfold getTile, setTile. intros [t0 H].
  destruct (g !! Z.to_nat r) as [row|] eqn:Hrow; simpl in H; [|done].
  rewrite list_lookup_alter_eq, Hrow. simpl.
  apply list_lookup_insert_eq. by eapply lookup_lt_Some.
Qed.

Lemma getTile_setTile_ne (g : Grid) (r c r' c' : Z) (t : Tile) :
  0 <= r -> 0 <= c -> 0 <= r' -> 0 <= c' -> (r, c) <> (r', c') ->
  getTile (setTile g r c t) r' c' = getTile g r' c'.
Proof.
  intros Hr Hc Hr' Hc' Hne. unfold getTile, setTile.
  destruct (decide (r = r')) as [->|Hrr].
  - rewrite list_lookup_alter_eq. destruct (g !! Z.to_nat r') as [row|]; simpl; [|done].
    apply list_lookup_insert_ne. intros E. apply Z2Nat.inj in E; [|done..]. congruence.
  - rewrite list_lookup_alter_ne; [done|]. intros E. apply Z2Nat.inj in E; [|done..]. done.
Qed.

Lemma inGrid_bounds (r c : Z) : inGrid r c = true <-> 0 <= r < ROWS /\ 0 <= c < COLS.
Proof.
  unfold inGrid. rewrite !andb_true_iff, !Z.leb_le, !Z.ltb_lt. tauto.
Qed.

(** ** What a conversion paints *)

(** The cell [(r, c)] after [convertCell b r0 c0]. *)
Lemma convertCell_get (b : Ball) (r0 c0 : Z) (L L' : Loop) (r c : Z) :
  convertCell b r0 c0 L = Some L' -> inGrid r c = true ->
  getTile (newTiles L') r c
  = if (r0 =? r) && (c0 =? c) then Some (mkTile (team b)) else getTile (newTiles L) r c.
Proof.
  unfold convertCell. intros H Hin.
  destruct ((r0 =? r) && (c0 =? c)) eqn:E.
  - apply andb_true_iff in E as [E1 E2]. apply Z.eqb_eq in E1, E2. subst r0 c0.
    rewrite Hin in H.
    destruct (getTile (newTiles L) r c) as [t|] eqn:Ht; simpl in H; [|done].
    destruct (team_eqb (tile_team t) (team b)) eqn:Et; simpl in H; simplify_eq.
    + rewrite Ht. apply team_eqb_eq in Et. destruct t. simpl in *. by subst.
    + simpl. apply getTile_setTile_eq. by rewrite Ht.
  - destruct (inGrid r0 c0) eqn:Hin0; [|by simplify_eq].
    destruct (getTile (newTiles L) r0 c0) as [t|] eqn:Ht; simpl in H; [|done].
    destruct (negb _); simplify_eq; [|done]. simpl.
    apply inGrid_bounds in Hin, Hin0. apply getTile_setTile_ne; try lia.
    intros Heq. simplify_eq. by rewrite !Z.eqb_refl in E.
Qed.

(** [hasChanges] is raised exactly when a cell gets a new owner. *)
Definition Painted (t : Team) (L L' : Loop) : Prop :=
  (hasChanges L' = hasChanges L /\ newTiles L' = newTiles L) \/
  (hasChanges L' = true /\
   exists r c, inGrid r c = true /\ getTile (newTiles L) r c <> Some (mkTile t) /\
               getTile (newTiles L') r c = Some (mkTile t)).

Lemma convertCell_painted (b : Ball) (r0 c0 : Z) (L L1 L2 : Loop) :
  Painted (team b) L L1 -> convertCell b r0 c0 L1 = Some L2 -> Painted (team b) L L2.
Proof.
  intros HP H.
  pose proof (fun r c => convertCell_get b r0 c0 L1 L2 r c H) as Hget.
  assert (forall r c, inGrid r c = true ->
            getTile (newTiles L1) r c = Some (mkTile (team b)) ->
            getTile (newTiles L2) r c = Some (mkTile (team b))) as Hkeep.
  { intros r c Hin H1. rewrite (Hget r c Hin). by destruct (_ && _). }
  unfold convertCell in H. destruct (inGrid r0 c0) eqn:Hin0; [|by simplify_eq].
  destruct (getTile (newTiles L1) r0 c0) as [t|] eqn:Ht; simpl in H; [|done].
  destruct (team_eqb (tile_team t) (team b)) eqn:Et; simpl in H; simplify_eq; [done|].
  right. split; [done|]. destruct HP as [[_ Hsame]|(_ & r & c & Hin & Hold & Hnew)].
  - exists r0, c0. split_and!; [done| |].
    + rewrite <- Hsame, Ht. intros E. simplify_eq. simpl in Et.
      by rewrite team_eqb_refl in Et.
    + rewrite (Hget r0 c0 Hin0), !Z.eqb_refl. done.
  - exists r, c. split_and!; try done. by apply Hkeep.
Qed.

(** The cells painted by the loops over the offsets [drs] and [dcs]. *)
Definition hits (base : Z) (ds : list Z) (v : Z) : bool :=
  existsb (fun d => base + d =? v) ds.

Lemma convertRow_get (b : Ball) (r0 col : Z) (dcs : list Z) (L L' : Loop) (r c : Z) :
  forM (fun L2 dc => convertCell b r0 (col + dc) L2) L dcs = Some L' ->
  inGrid r c = true ->
  getTile (newTiles L') r c
  = if (r0 =? r) && hits col dcs c then Some (mkTile (team b)) else getTile (newTiles L) r c.
Proof.
  revert L. induction dcs as [|dc dcs IH]; intros L H Hin; simpl in H.
  - simplify_eq. by rewrite andb_false_r.
  - destruct (convertCell b r0 (col + dc) L) as [L1|] eqn:E; simpl in H; [|done].
    rewrite (IH L1 H Hin), (convertCell_get b r0 (col + dc) L L1 r c E Hin).
    change (hits col (dc :: dcs) c) with ((col + dc =? c) || hits col dcs c).
    by destruct (r0 =? r), (col + dc =? c), (hits col dcs c).
Qed.

Lemma convertRow_painted (b : Ball) (r0 col : Z) (dcs : list Z) (L L1 L2 : Loop) :
  Painted (team b) L L1 ->
  forM (fun L2 dc => convertCell b r0 (col + dc) L2) L1 dcs = Some L2 ->
  Painted (team b) L L2.
Proof.
  intros HP. apply (forM_preserves _ (Painted (team b) L)); [|done].
  intros s1 dc s2 H1 H2. by eapply convertCell_painted.
Qed.

Lemma convertBlock_get (b : Ball) (row col : Z) (drs dcs : list Z) (L L' : Loop) (r c : Z) :
  forM (fun L1 dr => forM (fun L2 dc => convertCell b (row + dr) (col + dc) L2) L1 dcs)
       L drs = Some L' ->
  inGrid r c = true ->
  getTile (newTiles L') r c
  = if hits row drs r && hits col dcs c then Some (mkTile (team b))
    else getTile (newTiles L) r c.
Proof.
  revert L. induction drs as [|dr drs IH]; intros L H Hin; simpl in H.
  - by simplify_eq.
  - destruct (forM _ L dcs) as [L1|] eqn:E; simpl in H; [|done].
    rewrite (IH L1 H Hin), (convertRow_get b (row + dr) col dcs L L1 r c E Hin).
    change (hits row (dr :: drs) r) with ((row + dr =? r) || hits row drs r).
    by destruct (row + dr =? r), (hits row drs r), (hits col dcs c).
Qed.

Lemma hits_offsets (base reach v : Z) :
  reach = 1 \/ reach = 2 -> hits base (offsets reach) v = (Z.abs (v - base) <? reach).
Proof.
  intros [->| ->]; unfold hits, offsets; simpl;
    repeat match goal with |- context [?a =? ?b] => destruct (Z.eqb_spec a b) end;
    simpl; symmetry; first [apply Z.ltb_lt | apply Z.ltb_ge]; lia.
Qed.

(** X10: tile conversion paints a square block and nothing else: a ball
    converts every cell of the grid within [reach - 1] rows and columns of the
    cell under its centre (reach is 2 for a giant, so a 3 x 3 block, and 1
    otherwise, so the one cell) to its own team, clipped at the edges of the
    grid; every other cell is untouched; the loop never faults, also when
    the centre is off the grid; and [hasChanges] is raised if and only if
    some cell got a new owner. *)
Theorem convertTiles_paints_block (b : Ball) (row col : Z) (L : Loop) :
  gridShape (newTiles L) ->
  let reach := if 0 <? giant b then 2 else 1 in
  exists L',
    convertTiles b row col L = Some L' /\
    gridShape (newTiles L') /\
    (forall r c, inGrid r c = true ->
       getTile (newTiles L') r c
       = if (Z.abs (r - row) <? reach) && (Z.abs (c - col) <? reach)
         then Some (mkTile (team b)) else getTile (newTiles L) r c) /\
    (newTiles L' = newTiles L -> hasChanges L' = hasChanges L) /\
    (newTiles L' <> newTiles L -> hasChanges L' = true).
Proof.
  intros Hs reach.
  destruct (convertTiles_rel b row col L Hs) as (L' & H & [Hs' _ _ _ _ _]).
  exists L'. split; [done|]. split; [done|].
  assert (reach = 1 \/ reach = 2) as Hreach by (unfold reach; destruct (0 <? giant b); auto).
  unfold convertTiles in H. fold reach in H.
  assert (Painted (team b) L L') as HP.
  { eapply (forM_preserves _ (Painted (team b) L)); [|by left|exact H].
    intros s1 dr s2 H1 H2. simpl in H2. by eapply convertRow_painted. }
  split_and!.
  - intros r c Hin.
    rewrite (convertBlock_get b row col _ _ L L' r c H Hin).
    by rewrite !hits_offsets.
  - destruct HP as [[Hh _]|(_ & r & c & Hin & Hold & Hnew)]; [done|].
    intros E. rewrite E in Hnew. congruence.
  - by destruct HP as [[_ Hn]|(Hh & _)].
Qed.

Lemma convertTiles_paints_block_witness :
  exists L',
    convertTiles ballA3 5 10 L2_0 = Some L' /\
    getTile (newTiles L') 5 10 = Some (mkTile Left) /\
    getTile (newTiles L') 5 11 = Some (mkTile Right).
Proof.
  destruct (convertTiles_paints_block ballA3 5 10 L2_0) as (L' & H & _ & Hget & _).
  - apply createInitialTiles_shape.
  - exists L'. split; [exact H|]. split.
    + rewrite (Hget 5 10); reflexivity.
    + rewrite (Hget 5 11); reflexivity.
Defined.

(** ** The grid of a frame, from the log *)

(** The state of the ball loop when it starts, and the loop. *)
Definition frameStart (env : Env) (g : Game) : Loop :=
  mkLoop (balls g) [] (frameRegistry env g) (tiles g) false (ballIdCounter g)
         (if spawnDue (frameCount g + 1) (powerUps g) then 3%nat else 0%nat)
         (frameLog env g).

Definition ballLoop (env : Env) (g : Game) : option Loop :=
  forM (processBall env (tiles g)) (frameStart env g) (seq 0 (length (balls g))).

(** The cells converted in a log. *)
Definition converts (tr : list Event) : list (Z * Z) :=
  omap (fun e => match e with EvConvert _ r c => Some (r, c) | _ => None end) tr.

Lemma converts_app (t1 t2 : list Event) : converts (t1 ++ t2) = converts t1 ++ converts t2.
Proof. apply omap_app. Qed.

Lemma elem_of_converts (tr : list Event) (r c : Z) :
  (r, c) ∈ converts tr <-> exists i, EvConvert i r c ∈ tr.
Proof.
  unfold converts. rewrite list_elem_of_omap. split.
  - intros (e & He & Hm). destruct e; simplify_eq. eauto.
  - intros [i He]. by exists (EvConvert i r c).
Qed.

Lemma converts_pickups (i : nat) (t : Team) (l : list PowerUp) :
  converts (EvPickup i t <$> l) = [].
Proof. induction l as [|p l IH]; [done|]. exact IH. Qed.

(** The working copy of the grid against the grid of the frame's start
    [T0], through the conversions logged. *)
Record GridLog (T0 : Grid) (L : Loop) : Prop := {
  gl_clean : hasChanges L = false -> newTiles L = T0 /\ converts (trace L) = [];
  gl_dirty : hasChanges L = true -> converts (trace L) <> [];
  gl_cells : forall r c, inGrid r c = true -> (r, c) ∉ converts (trace L) ->
               getTile (newTiles L) r c = getTile T0 r c
}.

Lemma convertCell_gridLog (T0 : Grid) (b : Ball) (r0 c0 : Z) (L L' : Loop) :
  GridLog T0 L -> convertCell b r0 c0 L = Some L' -> GridLog T0 L'.
Proof.
  intros [Hclean Hdirty Hcells] H.
  pose proof (fun r c => convertCell_get b r0 c0 L L' r c H) as Hget.
  unfold convertCell in H. destruct (inGrid r0 c0) eqn:Hin0; [|by simplify_eq].
  destruct (getTile (newTiles L) r0 c0) as [t|] eqn:Ht; simpl in H; [|done].
  destruct (negb _); simplify_eq; [|done]. split; simpl.
  - done.
  - intros _. rewrite converts_app. simpl. by destruct (converts (trace L)).
  - intros r c Hin Hno. rewrite converts_app in Hno. simpl in Hno.
    apply not_elem_of_app in Hno as [Hno1 Hno2].
    specialize (Hget r c Hin). simpl in Hget. rewrite Hget.
    destruct ((r0 =? r) && (c0 =? c)) eqn:E.
    + apply andb_true_iff in E as [E1 E2]. apply Z.eqb_eq in E1, E2. subst.
      exfalso. apply Hno2. by left.
    + by apply Hcells.
Qed.

Lemma convertTiles_gridLog (T0 : Grid) (b : Ball) (row col : Z) (L L' : Loop) :
  GridLog T0 L -> convertTiles b row col L = Some L' -> GridLog T0 L'.
Proof.
  intros HG. unfold convertTiles. apply (forM_preserves _ (GridLog T0)); [|done].
  intros L1 dr L2 H1. apply (forM_preserves _ (GridLog T0)); [|done].
  intros L3 dc L4 H3. by apply convertCell_gridLog.
Qed.

Lemma GridLog_ext (T0 : Grid) (L L' : Loop) :
  GridLog T0 L -> newTiles L' = newTiles L -> hasChanges L' = hasChanges L ->
  converts (trace L') = converts (trace L) -> GridLog T0 L'.
Proof. intros [H1 H2 H3] E1 E2 E3. split; rewrite ?E1, ?E2, ?E3; done. Qed.

Lemma redirect_gridLog (env : Env) (tilesRef T0 : Grid) (b b' : Ball) (row col : Z)
    (L L' : Loop) :
  GridLog T0 L -> redirect env tilesRef b row col L = Some (b', L') -> GridLog T0 L'.
Proof.
  intros HG. unfold redirect. destruct (inGrid row col); [|by intros; simplify_eq].
  destruct (getTile tilesRef row col) as [t|]; simpl; [|done].
  destruct (negb _); intros; simplify_eq; [|done].
  apply (GridLog_ext T0 L); try done. simpl. rewrite converts_app. simpl.
  by rewrite app_nil_r.
Qed.

Lemma tilePhase_gridLog (env : Env) (tilesRef T0 : Grid) (b b' : Ball) (L L' : Loop) :
  GridLog T0 L -> tilePhase env tilesRef b L = Some (b', L') -> GridLog T0 L'.
Proof.
  intros HG H. unfold tilePhase in H.
  destruct (cellIndex (y b) (tileHeight env)) as [row|];
    [destruct (cellIndex (x b) (tileWidth env)) as [col|]|].
  2,3: by simplify_eq.
  destruct (convertTiles b row col L) as [L1|] eqn:E1; simpl in H; [|done].
  eapply redirect_gridLog; [|exact H]. by eapply convertTiles_gridLog.
Qed.

Lemma processBall_gridLog (env : Env) (tilesRef T0 : Grid) (L L' : Loop) (k : nat) :
  GridLog T0 L -> processBall env tilesRef L k = Some L' -> GridLog T0 L'.
Proof.
  intros HG H.
  destruct (objs L !! k) as [b0|] eqn:Hk.
  2:{ unfold processBall in H. by rewrite Hk in H. }
  rewrite (processBall_unfold env tilesRef L k b0 Hk) in H.
  destruct (expires b0).
  { simplify_eq. by apply (GridLog_ext T0 L). }
  destruct (0 <? frozen (tick b0)).
  { simplify_eq. by apply (GridLog_ext T0 L). }
  pose proof (pickup_rel env (boundary env (move env (tick b0))) L) as Hrel.
  pose proof (pickup_log env (boundary env (move env (tick b0))) L)
    as (picked & _ & Htr & _).
  destruct (pickup env (boundary env (move env (tick b0))) L) as [[b4 L1] rm].
  simpl in Htr. destruct Hrel as [[_ _ _ _ Hnt Hhc _] _]. simpl in Hnt, Hhc.
  destruct (tilePhase env tilesRef b4 L1) as [[b5 L2]|] eqn:Ht; simpl in H; [|done].
  simplify_eq.
  assert (GridLog T0 L1) as HG1.
  { apply (GridLog_ext T0 L); try done.
    by rewrite Htr, converts_app, converts_pickups, app_nil_r. }
  pose proof (tilePhase_gridLog env tilesRef T0 b4 b5 L1 L2 HG1 Ht) as HG2.
  by apply (GridLog_ext T0 L2).
Qed.

(** X11: the grid a frame publishes is the working copy [newTiles] of its
    ball loop, whether or not [hasChanges] was raised: the flag is raised if
    and only if some conversion happened, and without any conversion the
    working copy still equals the old grid.  A cell for which the frame logs
    no conversion keeps its owner. *)
Theorem published_grid_is_the_working_copy (env : Env) (g : Game) :
  gridShape (tiles g) ->
  exists L g' tr,
    ballLoop env g = Some L /\ gameLoop env g = Some (g', tr) /\ tr = trace L /\
    tiles g' = newTiles L /\
    (hasChanges L = true <-> exists i r c, EvConvert i r c ∈ tr) /\
    (forall r c, inGrid r c = true -> (forall i, EvConvert i r c ∉ tr) ->
       getTile (tiles g') r c = getTile (tiles g) r c).
Proof.
  intros Hg. destruct (gameLoop_total env g Hg) as (g' & tr & H).
  pose proof H as H'. unfold gameLoop in H'. fold (frameRegistry env g) in H'.
  fold (frameLog env g) in H'. fold (frameStart env g) in H'. fold (ballLoop env g) in H'.
  destruct (ballLoop env g) as [L|] eqn:HL; simpl in H'; [|done].
  destruct (mapM (deref (objs L)) (newBalls L)) as [bs|]; simpl in H'; [|done].
  destruct (countTiles _) as [counts|]; simpl in H'; [|done]. simplify_eq.
  assert (GridLog (tiles g) L) as [Hclean Hdirty Hcells].
  { unfold ballLoop in HL.
    apply (forM_preserves _ (GridLog (tiles g)) _ _ _) in HL; [done| |].
    - intros L1 k L2 H1 H2. by eapply processBall_gridLog.
    - split; simpl; try done. intros _. split; [done|].
      unfold frameLog. by destruct (spawnDue _ _). }
  eexists L, _, _. split; [done|]. split; [exact H|]. simpl. split_and!; try done.
  - destruct (hasChanges L) eqn:E; [done|]. symmetry. by apply Hclean.
  - split.
    + intros E. specialize (Hdirty E).
      destruct (converts (trace L)) as [|[r c] l] eqn:Ec; [done|].
      assert ((r, c) ∈ converts (trace L)) as Hin by (rewrite Ec; by left).
      apply elem_of_converts in Hin as [i Hi]. eauto.
    + intros (i & r & c & Hi). destruct (hasChanges L) eqn:E; [done|].
      destruct (Hclean eq_refl) as [_ Hno].
      assert ((r, c) ∈ converts (trace L)) as Hin by (apply elem_of_converts; eauto).
      rewrite Hno in Hin. by apply elem_of_nil in Hin.
  - intros r c Hin Hno.
    assert (getTile (newTiles L) r c = getTile (tiles g) r c) as Hk.
    { apply Hcells; [done|]. intros Hc. apply elem_of_converts in Hc as [i Hi].
      by apply (Hno i). }
    destruct (hasChanges L); [exact Hk|done].
Qed.

Lemma published_grid_is_the_working_copy_witness :
  exists L g' tr,
    ballLoop env2 g2 = Some L /\ gameLoop env2 g2 = Some (g', tr) /\
    tiles g' = newTiles L /\
    getTile (tiles g') 5 9 = getTile (tiles g2) 5 9.
Proof.
  destruct (published_grid_is_the_working_copy env2 g2)
    as (L & g' & tr & HL & Hg & Htr & Ht & _ & Hcells).
  - apply createInitialTiles_shape.
  - exists L, g', tr. split; [exact HL|]. split; [exact Hg|]. split; [exact Ht|].
    apply Hcells; [reflexivity|].
    intros i Hin. rewrite frame2_eval in Hg. injection Hg as _ <-.
    apply elem_of_cons in Hin as [Hin|Hin]; [discriminate|].
    apply elem_of_cons in Hin as [Hin|Hin]; [discriminate|].
    apply elem_of_cons in Hin as [Hin|Hin]; [discriminate|].
    by apply elem_of_nil in Hin.
Defined.

(** ** Indexing with a random number *)

Lemma Int_part_unit_scale (r : R) (n : nat) :
  (0 < n)%nat ->
  (0 <= Int_part (r * INR n) < Z.of_nat n) <-> (0 <= r < 1)%R.
Proof.
  intros Hn. assert (0 < INR n)%R as Hn' by (by apply lt_0_INR).
  destruct (base_Int_part (r * INR n)) as [H1 H2]. rewrite INR_IZR_INZ in *.
  split.
  - intros [Hlo Hhi]. apply IZR_le in Hlo.
    assert (Int_part (r * IZR (Z.of_nat n)) <= Z.of_nat n - 1) as Hhi' by lia.
    apply IZR_le in Hhi'. rewrite minus_IZR in Hhi'. split.
    + apply Rmult_le_reg_r with (IZR (Z.of_nat n)); lra.
    + apply Rmult_lt_reg_r with (IZR (Z.of_nat n)); lra.
  - intros [Hlo Hhi].
    assert (0 <= r * IZR (Z.of_nat n))%R by (apply Rmult_le_pos; lra).
    assert (r * IZR (Z.of_nat n) < IZR (Z.of_nat n))%R by nra.
    split.
    + assert (-1 < Int_part (r * IZR (Z.of_nat n))); [|lia]. apply lt_IZR. lra.
    + apply lt_IZR. lra.
Qed.

Lemma random_index_defined {A : Type} (l : list A) (r : R) :
  (0 < length l)%nat ->
  is_Some (let i := Math_floor (r * INR (length l)) in
           if i <? 0 then None else l !! Z.to_nat i) <-> (0 <= r < 1)%R.
Proof.
  intros Hl. cbv zeta. unfold Math_floor.
  rewrite <- (Int_part_unit_scale r (length l) Hl).
  destruct (Int_part (r * INR (length l)) <? 0) eqn:E.
  - apply Z.ltb_lt in E. split; [by intros [? ?]|lia].
  - apply Z.ltb_ge in E. rewrite lookup_lt_is_Some. lia.
Qed.

(** The index [Math.floor(r * 5)] is [k] exactly on the [k]-th fifth. *)
Lemma pickType_index (r : R) (k : nat) (t : PowerUpType) :
  types !! k = Some t ->
  pickType r = Some t <-> (INR k / 5 <= r < (INR k + 1) / 5)%R.
Proof.
  intros Ht. unfold pickType, Math_floor.
  replace (INR (length types)) with 5%R by (simpl; lra).
  destruct (base_Int_part (r * 5)) as [H1 H2].
  set (i := Int_part (r * 5)) in *. rewrite INR_IZR_INZ.
  assert (forall j, types !! j = Some t -> j = k) as Hinj.
  { intros j Hj. unfold types in *.
    destruct k as [|[|[|[|[|k]]]]], j as [|[|[|[|[|j]]]]]; simpl in *;
      rewrite ?lookup_nil in *; congruence. }
  split.
  - intros H. destruct (i <? 0) eqn:E; [done|]. apply Z.ltb_ge in E.
    assert (Z.to_nat i = k) as Hk by (by apply Hinj).
    assert (i = Z.of_nat k) as -> by lia. lra.
  - intros [Hlo Hhi].
    assert (i = Z.of_nat k) as ->.
    { assert (Z.of_nat k - 1 < i) by (apply lt_IZR; rewrite minus_IZR; lra).
      assert (i < Z.of_nat k + 1) by (apply lt_IZR; rewrite plus_IZR; lra). lia. }
    replace (Z.of_nat k <? 0) with false by (symmetry; apply Z.ltb_ge; lia).
    by rewrite Nat2Z.id.
Qed.

(** X12: the type of a spawned power-up is defined exactly when
    [Math.random()] returns a value in [0, 1), as its contract says.  Each of
    the five types has a fifth of that interval, in the order of [types]:
    away from the four inner edges by at least 10^-9 (room for the rounding
    of the product [r * 5]), a value in the [k]-th fifth gives the [k]-th
    type, and a value that gives the [k]-th type is in the [k]-th fifth or
    within 10^-9 of it. *)
Theorem spawned_type_has_five_equal_bands (r : R) :
  let eps := (/ 1000000000)%R in
  (is_Some (pickType r) <-> (0 <= r < 1)%R) /\
  ((0 <= r <= 1 / 5 - eps)%R -> pickType r = Some Split) /\
  ((1 / 5 + eps <= r <= 2 / 5 - eps)%R -> pickType r = Some Giant) /\
  ((2 / 5 + eps <= r <= 3 / 5 - eps)%R -> pickType r = Some Speed) /\
  ((3 / 5 + eps <= r <= 4 / 5 - eps)%R -> pickType r = Some Freeze) /\
  ((4 / 5 + eps <= r < 1)%R -> pickType r = Some Magnet) /\
  (forall k t, types !! k = Some t -> pickType r = Some t ->
     (INR k / 5 - eps <= r <= (INR k + 1) / 5 + eps)%R).
Proof.
  intros eps. assert (0 < eps)%R as Heps by (unfold eps; lra).
  split_and!.
  - apply (random_index_defined types r). simpl. lia.
  - intros H. apply (pickType_index r 0); [done|]. simpl. lra.
  - intros H. apply (pickType_index r 1); [done|]. simpl. lra.
  - intros H. apply (pickType_index r 2); [done|]. simpl. lra.
  - intros H. apply (pickType_index r 3); [done|]. simpl. lra.
  - intros H. apply (pickType_index r 4); [done|]. simpl. lra.
  - intros k t Hk Ht. apply (pickType_index r k t Hk) in Ht. lra.
Qed.

(** X13: [getRandomPalette] returns one of the six palettes exactly when
    [Math.random()] returns a value in [0, 1); and in every palette the two
    teams differ in tile colour, ball colour and trail colour, so the teams
    can always be told apart. *)
Theorem random_palette_is_defined_and_distinguishes_teams (r : R) :
  (is_Some (getRandomPalette r) <-> (0 <= r < 1)%R) /\
  (forall p, getRandomPalette r = Some p ->
     p ∈ COLOR_PALETTES /\
     tc_tile (teamColors p Left) <> tc_tile (teamColors p Right) /\
     tc_ball (teamColors p Left) <> tc_ball (teamColors p Right) /\
     tc_trailRgb (teamColors p Left) <> tc_trailRgb (teamColors p Right)).
Proof.
  split.
  - apply (random_index_defined COLOR_PALETTES r). simpl. lia.
  - intros p Hp. unfold getRandomPalette in Hp.
    destruct (_ <? 0); [done|]. apply list_elem_of_lookup_2 in Hp.
    split; [done|].
    assert (Forall (fun p => tc_tile (teamColors p Left) <> tc_tile (teamColors p Right) /\
                             tc_ball (teamColors p Left) <> tc_ball (teamColors p Right) /\
                             tc_trailRgb (teamColors p Left)
                             <> tc_trailRgb (teamColors p Right)) COLOR_PALETTES) as Hall.
    { repeat (apply List.Forall_cons; [by split_and!|]). constructor. }
    by apply (Forall_elem_of _ _ p Hall).
Qed.

(** ** Start-up *)

Lemma mountEffect_nonempty (w h : R) (rnd : nat -> R) (g : Game) :
  balls g <> [] -> mountEffect w h rnd g = g.
Proof.
  intros H. unfold mountEffect.
  destruct (balls g) as [|b l]; [done|]. simpl. by rewrite andb_false_r.
Qed.

(** X14: the initial balls are created once: in a viewport of positive size
    the effect turns the empty start state into the mounted game with its
    two balls and ids 0 and 1; without a positive size it does nothing; and
    at any later frame boundary, whatever the viewport has become, it does
    nothing, because the live set is never empty again. *)
Theorem initial_balls_are_created_once :
  (forall w h rnd, (0 < w)%R -> (0 < h)%R ->
     mountEffect w h rnd (initialGame [] 0) = mountGame w h rnd) /\
  (forall w h rnd g, ~ ((0 < w)%R /\ (0 < h)%R) -> mountEffect w h rnd g = g) /\
  (forall w h rnd envs, exists g tr,
     run envs (mountGame w h rnd) = Some (g, tr) /\
     forall w' h' rnd', mountEffect w' h' rnd' g = g).
Proof.
  split_and!.
  - intros w h rnd Hw Hh. unfold mountEffect, COLS, ROWS.
    rewrite !bool_decide_eq_true_2 by lra. done.
  - intros w h rnd g Hn. unfold mountEffect, COLS, ROWS.
    destruct (decide (0 < w)%R) as [Hw|Hw].
    + rewrite (bool_decide_eq_false_2 (0 < h / 12)%R); [by rewrite andb_false_r|].
      intros Hh. apply Hn. split; [done|lra].
    + rewrite (bool_decide_eq_false_2 (0 < w / 20)%R); [done|]. lra.
  - intros w h rnd envs.
    destruct (mountGame_run w h rnd envs) as (g & tr & Hrun & Hg & _).
    exists g, tr. split; [done|]. intros w' h' rnd'. apply mountEffect_nonempty.
    destruct (run_survivor envs (mountGame w h rnd) g tr
                (mkBall 0 (IZR COLS * 0.25 * (w / IZR COLS))%R
                   (IZR ROWS / 2 * (h / IZR ROWS))%R
                   BASE_SPEED ((rnd 0%nat - 0.5) * 2)%R Left
                   (Rmin (w / IZR COLS) (h / IZR ROWS) * 0.4)%R
                   (Rmin (w / IZR COLS) (h / IZR ROWS) * 0.4)%R [] 0 0 0 false 0))
      as (b & Hb & _); [apply createInitialTiles_shape | done | by left | done |].
    intros E. rewrite E in Hb. by apply elem_of_nil in Hb.
Qed.



(** ** Tiles cover the canvas *)

Lemma Math_floor_spec (r : R) : (IZR (Math_floor r) <= r < IZR (Math_floor r) + 1)%R.
Proof. unfold Math_floor. destruct (base_Int_part r). lra. Qed.

Lemma Math_ceil_spec (r : R) : (r <= IZR (Math_ceil r) < r + 1)%R.
Proof.
  unfold Math_ceil. destruct (base_Int_part (- r)). rewrite opp_IZR. lra.
Qed.

(** X16: the rectangles painted for the tiles leave no gap: in a viewport
    of positive size, every point of the canvas lies in the rectangle
    painted for the cell it belongs to, and that cell is a cell of the
    grid. *)
Theorem tile_rectangles_cover_the_canvas (env : Env) (px py : R) :
  (0 <= px < width env)%R -> (0 <= py < height env)%R ->
  exists row col,
    cellIndex py (tileHeight env) = Some row /\ cellIndex px (tileWidth env) = Some col /\
    inGrid row col = true /\
    let '(rx, ry, rw, rh) := tileRect env row col in
    (IZR rx <= px < IZR rx + IZR rw)%R /\ (IZR ry <= py < IZR ry + IZR rh)%R.
Proof.
  intros Hx Hy.
  assert (forall v extent (n : Z), (0 <= v < extent)%R -> 0 < n ->
            exists i, cellIndex v (extent / IZR n) = Some i /\ 0 <= i < n /\
                      (IZR i * (extent / IZR n) <= v < (IZR i + 1) * (extent / IZR n))%R /\
                      (IZR (Math_floor (IZR i * (extent / IZR n))) <= v
                       < IZR (Math_floor (IZR i * (extent / IZR n)))
                         + IZR (Math_ceil (extent / IZR n) + 1))%R) as Hcell.
  { intros v extent n [H0 H1] Hn. assert (0 < IZR n)%R as Hn' by (by apply IZR_lt).
    assert (0 < extent / IZR n)%R as Hp by (apply Rdiv_lt_0_compat; lra).
    set (pitch := (extent / IZR n)%R) in *.
    unfold cellIndex. rewrite decide_False by lra. eexists. split; [done|].
    pose proof (Math_floor_spec (v / pitch)) as [F1 F2]. fold (Math_floor (v / pitch)).
    set (i := Math_floor (v / pitch)) in *.
    assert (v / pitch * pitch = v)%R as Hv by (field; lra).
    assert (IZR n * pitch = extent)%R as He by (unfold pitch; field; lra).
    assert (IZR i * pitch <= v)%R as G1.
    { pose proof (Rmult_le_compat_r pitch _ _ (Rlt_le _ _ Hp) F1). lra. }
    assert (v < (IZR i + 1) * pitch)%R as G2.
    { pose proof (Rmult_lt_compat_r pitch _ _ Hp F2). lra. }
    split_and!; try done.
    - assert (-1 < i); [|lia]. apply lt_IZR.
      assert (0 <= v / pitch)%R by (apply Rmult_le_reg_r with pitch; lra). lra.
    - apply lt_IZR. assert (v / pitch < IZR n)%R by (apply Rmult_lt_reg_r with pitch; lra).
      lra.
    - pose proof (Math_floor_spec (IZR i * pitch)). lra.
    - pose proof (Math_floor_spec (IZR i * pitch)). pose proof (Math_ceil_spec pitch).
      rewrite plus_IZR. lra. }
  destruct (Hcell py (height env) ROWS Hy) as (row & Hrow & Rr & _ & Ry); [done|].
  destruct (Hcell px (width env) COLS Hx) as (col & Hcol & Rc & _ & Rx); [done|].
  exists row, col. split_and!; try done. by apply inGrid_bounds.
Qed.

Lemma tile_rectangles_cover_the_canvas_witness :
  exists row col,
    cellIndex 550 (tileHeight env2) = Some row /\ cellIndex 1050 (tileWidth env2) = Some col /\
    inGrid row col = true.
Proof.
  destruct (tile_rectangles_cover_the_canvas env2 1050 550) as (row & col & Hr & Hc & Hin & _).
  - simpl. lra.
  - simpl. lra.
  - exists row, col. split; [exact Hr|]. split; [exact Hc | exact Hin].
Defined.

(** ** The rainbow effect *)

Lemma framePhase_nonneg (fc step : Z) : 0 <= fc -> 0 < step -> 0 <= framePhase fc step.
Proof.
  intros Hfc Hs. unfold framePhase.
  pose proof (Math_floor_spec (IZR fc / IZR step)) as [_ H].
  assert (0 <= IZR fc / IZR step)%R.
  { apply Rmult_le_pos; [by apply IZR_le|].
    apply Rlt_le, Rinv_0_lt_compat. by apply IZR_lt. }
  assert (-1 < Math_floor (IZR fc / IZR step)); [|lia]. apply lt_IZR. lra.
Qed.

Lemma rainbowColor_defined (i : Z) : 0 <= i < 7 -> is_Some (rainbowColor i).
Proof.
  intros H. unfold rainbowColor. replace (i <? 0) with false by (symmetry; apply Z.ltb_ge; lia).
  apply lookup_lt_is_Some. simpl. lia.
Qed.

(** X17: the rainbow effect never indexes outside its seven colours: at
    every frame (the frame counter is at least 1 there) the colour of each
    trail point, of the outer and inner glow and of the ball is defined. *)
Theorem rainbow_colours_are_always_defined (fc : Z) (i : nat) :
  0 <= fc ->
  is_Some (rainbowColor (trailColorIndex fc i)) /\
  is_Some (rainbowColor (glowColorIndex fc)) /\
  is_Some (rainbowColor (innerGlowColorIndex fc)) /\
  is_Some (rainbowColor (ballColorIndex fc)).
Proof.
  intros Hfc.
  pose proof (framePhase_nonneg fc 3 Hfc ltac:(lia)).
  pose proof (framePhase_nonneg fc 4 Hfc ltac:(lia)).
  pose proof (framePhase_nonneg fc 5 Hfc ltac:(lia)).
  assert (forall z, 0 <= z -> 0 <= Z.rem z 7 < 7) as Hrem.
  { intros z Hz. apply Z.rem_bound_pos; lia. }
  unfold trailColorIndex, glowColorIndex, innerGlowColorIndex, ballColorIndex.
  change (Z.of_nat (length rainbowColors)) with 7.
  split_and!; apply rainbowColor_defined, Hrem; try lia.
  unfold glowColorIndex. change (Z.of_nat (length rainbowColors)) with 7.
  pose proof (Hrem (framePhase fc 4)). lia.
Qed.

Lemma rainbow_colours_are_always_defined_witness :
  is_Some (rainbowColor (trailColorIndex 601 11)).
Proof.
  destruct (rainbow_colours_are_always_defined 601 11) as [H _].
  - lia.
  - exact H.
Defined.

(** ** High scores on screen *)

(** What the high scores satisfy at every frame boundary. *)
Definition scoresOK (g : Game) : Prop :=
  COLS * ROWS / 2 <= fst (highScores g) <= COLS * ROWS /\
  COLS * ROWS / 2 <= snd (highScores g) <= COLS * ROWS /\
  (HIGHSCORE_DELAY < frameCount g ->
     ownedBy Left (tiles g) <= fst (highScores g) /\
     ownedBy Right (tiles g) <= snd (highScores g)).

Lemma ownedBy_nonneg (t : Team) (g : Grid) : 0 <= ownedBy t g.
Proof. unfold ownedBy. lia. Qed.

Lemma frame_scoresOK (env : Env) (g g' : Game) (tr : list Event) :
  gridShape (tiles g) -> gameLoop env g = Some (g', tr) -> scoresOK g -> scoresOK g'.
Proof.
  intros Hg H (HL & HR & _).
  destruct (frame_grid env g g' tr Hg H) as (Hg' & Hfc & Hhs).
  pose proof (ownedBy_total (tiles g') Hg') as Htot.
  pose proof (ownedBy_nonneg Left (tiles g')). pose proof (ownedBy_nonneg Right (tiles g')).
  unfold scoresOK. rewrite Hhs. unfold updateHighScores, HIGHSCORE_DELAY, COLS, ROWS in *.
  destruct (600 <? frameCount g') eqn:E; simpl.
  - repeat case_match; simpl; lia.
  - apply Z.ltb_ge in E. split_and!; try lia.
Qed.

Lemma run_scoresOK (envs : list Env) (g g' : Game) (tr : list Event) :
  gridShape (tiles g) -> run envs g = Some (g', tr) -> scoresOK g -> scoresOK g'.
Proof.
  revert g tr. induction envs as [|env envs IH]; intros g tr Hg Hrun HS.
  - simpl in Hrun. by simplify_eq.
  - apply run_cons_inv in Hrun as (g1 & tr1 & tr2 & H1 & H2 & ->).
    destruct (frame_grid env g g1 tr1 Hg H1) as (Hg1 & _).
    apply (IH g1 tr2 Hg1 H2). exact (frame_scoresOK env g g1 tr1 Hg H1 HS).
Qed.

Lemma initialGame_scoresOK (bs : list Ball) (idc : nat) : scoresOK (initialGame bs idc).
Proof.
  unfold scoresOK, HIGHSCORE_DELAY. simpl.
  change (COLS * ROWS / 2) with 120. change (COLS * ROWS) with 240. split_and!; lia.
Qed.

(** X18: on the score bar, 160 wide and centred, the two high score marks
    never leave the bar and never cross: the right team's mark is in the
    left half or on the middle, the left team's in the right half or on the
    middle; the boundary between the two teams' parts is on the bar; and
    once the frame counter has passed HIGHSCORE_DELAY = 600 the boundary
    lies between the two marks. *)
Theorem score_bar_marks_enclose_the_boundary (envs : list Env) (bs : list Ball) (idc : nat)
    (env : Env) :
  exists g tr,
    run envs (initialGame bs idc) = Some (g, tr) /\
    let sb := scoreBar env (ownedBy Left (tiles g), ownedBy Right (tiles g)) (highScores g) in
    barX sb = (width env / 2 - 80)%R /\ barWidth sb = 160%R /\
    (barX sb <= rightHighX sb <= barX sb + 80)%R /\
    (barX sb + 80 <= leftHighX sb <= barX sb + 160)%R /\
    (0 <= leftWidth sb <= 160)%R /\
    (600 < Z.of_nat (length envs) ->
       (rightHighX sb <= barX sb + leftWidth sb <= leftHighX sb)%R).
Proof.
  destruct (run_total envs (initialGame bs idc) createInitialTiles_shape)
    as (g & tr & Hrun & Hg & Hfc).
  exists g, tr. split; [done|].
  pose proof (run_scoresOK envs (initialGame bs idc) g tr createInitialTiles_shape Hrun
                (initialGame_scoresOK bs idc)) as (HL & HR & Hafter).
  pose proof (ownedBy_total (tiles g) Hg) as Htot.
  pose proof (ownedBy_nonneg Left (tiles g)) as HnL.
  pose proof (ownedBy_nonneg Right (tiles g)) as HnR.
  unfold COLS, ROWS, HIGHSCORE_DELAY in *. simpl in Hfc.
  change (20 * 12 / 2) with 120 in *. change (20 * 12) with 240 in *.
  change (12 * 20) with 240 in *.
  cbv zeta. unfold scoreBar. simpl. unfold COLS, ROWS. change (20 * 12) with 240.
  destruct (highScores g) as [hl hr]. simpl in *.
  set (l := ownedBy Left (tiles g)) in *. set (r := ownedBy Right (tiles g)) in *.
  assert (120 <= IZR hl <= 240)%R as [? ?] by (split; apply IZR_le; lia).
  assert (0 <= IZR (240 - hr) <= 120)%R as [? ?] by (split; apply IZR_le; lia).
  assert (0 <= IZR l <= 240)%R as [? ?] by (split; apply IZR_le; lia).
  split_and!; try lra.
  intros Hn. destruct Hafter as [A1 A2]; [lia|].
  assert (IZR l <= IZR hl)%R by (apply IZR_le; lia).
  assert (IZR (240 - hr) <= IZR l)%R by (apply IZR_le; lia).
  lra.
Qed.

(** X19: the rainbow ("at high score") display of a team is decided with
    the tile counts of the grid as it was when the frame started and with the
    high scores as they were before the frame's update.  In frame 601, the
    first frame in which it can show, a team is at high score if and only if
    it holds at least half of the grid; in every later frame, if and only if
    its count equals its high score; in the first 600 frames, never. *)
Theorem rainbow_shows_when_count_equals_high_score (envs : list Env) (bs : list Ball)
    (idc : nat) (t : Team) :
  exists g tr counts,
    run envs (initialGame bs idc) = Some (g, tr) /\
    countTiles (tiles g) = Some counts /\
    let n := Z.of_nat (length envs) in
    let count := match t with Left => fst counts | Right => snd counts end in
    let high := match t with Left => fst (highScores g) | Right => snd (highScores g) end in
    let shown := isAtHighScore (frameCount g + 1) counts (highScores g) t in
    (n < 600 -> shown = false) /\
    (n = 600 -> (shown = true <-> 120 <= count)) /\
    (600 < n -> (shown = true <-> count = high)).
Proof.
  destruct (run_total envs (initialGame bs idc) createInitialTiles_shape)
    as (g & tr & Hrun & Hg & Hfc).
  exists g, tr, (ownedBy Left (tiles g), ownedBy Right (tiles g)).
  split; [done|]. split; [by apply countTiles_spec|].
  pose proof (run_scoresOK envs (initialGame bs idc) g tr createInitialTiles_shape Hrun
                (initialGame_scoresOK bs idc)) as (HL & HR & Hafter).
  assert (frameCount g <= HIGHSCORE_DELAY ->
          highScores g = (COLS * ROWS / 2, COLS * ROWS / 2)) as Hbefore.
  { intros Hle.
    by rewrite (run_initial_scores envs (initialGame bs idc) g tr
                  createInitialTiles_shape Hrun Hle). }
  simpl in Hfc. cbv zeta. unfold isAtHighScore, HIGHSCORE_DELAY in *. rewrite Hfc.
  change (COLS * ROWS / 2) with 120 in *.
  split_and!.
  - intros Hn. replace (600 <? _) with false by (symmetry; apply Z.ltb_ge; lia). done.
  - intros Hn. replace (600 <? _) with true by (symmetry; apply Z.ltb_lt; lia).
    rewrite Hbefore by lia. destruct t; simpl; by rewrite Z.leb_le.
  - intros Hn. replace (600 <? _) with true by (symmetry; apply Z.ltb_lt; lia).
    destruct Hafter as [A1 A2]; [lia|].
    destruct t; simpl; rewrite Z.leb_le; lia.
Qed.

(** ** Active power-ups *)

(** A power-up with a type, inside the margin of 30 of a [w] x [h]
    viewport. *)
Definition powerUpOK (w h : R) (p : PowerUp) : Prop :=
  is_Some (pu_type p) /\ (30 <= pu_x p <= w - 30)%R /\ (30 <= pu_y p <= h - 30)%R.

(** Inputs of a frame in a [w] x [h] viewport with [Math.random] in
    [0, 1). *)
Definition fairEnv (w h : R) (env : Env) : Prop :=
  width env = w /\ height env = h /\ forall n, (0 <= random env n < 1)%R.

Lemma spawnPowerUp_ok (w h : R) (env : Env) (idc calls : nat) :
  (60 <= w)%R -> (60 <= h)%R -> fairEnv w h env ->
  powerUpOK w h (spawnPowerUp env idc calls).
Proof.
  intros Hw Hh (Ew & Eh & Hr). unfold powerUpOK, spawnPowerUp. simpl.
  rewrite Ew, Eh. pose proof (Hr calls). pose proof (Hr (S calls)). split_and!; try nra.
  apply (random_index_defined types). { simpl. lia. } apply Hr.
Qed.

Lemma frame_powerUpOK (w h : R) (env : Env) (g g' : Game) (tr : list Event) :
  (60 <= w)%R -> (60 <= h)%R -> fairEnv w h env ->
  gridShape (tiles g) -> gameLoop env g = Some (g', tr) ->
  Forall (powerUpOK w h) (powerUps g) -> Forall (powerUpOK w h) (powerUps g').
Proof.
  intros Hw Hh He Hg H HP.
  destruct (frame_log env g g' tr Hg H) as (-> & _).
  destruct (frame_spawns env g g' tr Hg H) as (-> & _ & _).
  apply Forall_forall. intros p Hp. apply list_elem_of_In, list_elem_of_filter in Hp as [_ Hp].
  apply elem_of_app in Hp as [Hp|Hp].
  - by apply (Forall_elem_of _ _ p HP).
  - destruct (spawnDue _ _); [|by apply elem_of_nil in Hp].
    apply list_elem_of_singleton in Hp as ->. by apply spawnPowerUp_ok.
Qed.

Lemma run_powerUpOK (w h : R) (envs : list Env) (g g' : Game) (tr : list Event) :
  (60 <= w)%R -> (60 <= h)%R -> Forall (fairEnv w h) envs ->
  gridShape (tiles g) -> run envs g = Some (g', tr) ->
  Forall (powerUpOK w h) (powerUps g) -> Forall (powerUpOK w h) (powerUps g').
Proof.
  intros Hw Hh. revert g tr. induction envs as [|env envs IH]; intros g tr He Hg Hrun HP.
  - simpl in Hrun. by simplify_eq.
  - apply run_cons_inv in Hrun as (g1 & tr1 & tr2 & H1 & H2 & ->).
    inversion He as [|? ? He1 He2]; subst.
    destruct (frame_grid env g g1 tr1 Hg H1) as (Hg1 & _).
    apply (IH g1 tr2 He2 Hg1 H2).
    exact (frame_powerUpOK w h env g g1 tr1 Hw Hh He1 Hg H1 HP).
Qed.

(** X20: power-ups never move and always have a type: in a viewport of
    constant size at least 60 x 60, with [Math.random] in [0, 1), every
    active power-up at every frame boundary has one of the five types and
    lies in [30, width - 30] x [30, height - 30]. *)
Theorem active_powerups_stay_well_formed (w h : R) (envs : list Env) (bs : list Ball)
    (idc : nat) :
  (60 <= w)%R -> (60 <= h)%R -> Forall (fairEnv w h) envs ->
  exists g tr,
    run envs (initialGame bs idc) = Some (g, tr) /\
    forall p, p ∈ powerUps g ->
      (exists t, pu_type p = Some t) /\
      (30 <= pu_x p <= w - 30)%R /\ (30 <= pu_y p <= h - 30)%R.
Proof.
  intros Hw Hh Henvs.
  destruct (run_total envs (initialGame bs idc) createInitialTiles_shape)
    as (g & tr & Hrun & _ & _).
  exists g, tr. split; [done|]. intros p Hp.
  pose proof (run_powerUpOK w h envs (initialGame bs idc) g tr Hw Hh Henvs
                createInitialTiles_shape Hrun ltac:(constructor)) as HP.
  destruct (Forall_elem_of _ _ p HP Hp) as ([t Ht] & Hx & Hy).
  split; [by exists t|]. split; [exact Hx | exact Hy].
Qed.

Lemma active_powerups_stay_well_formed_witness :
  exists g tr,
    run (replicate 300 env2) (initialGame [] 0) = Some (g, tr) /\
    forall p, p ∈ powerUps g -> exists t, pu_type p = Some t.
Proof.
  destruct (active_powerups_stay_well_formed 2000 1200 (replicate 300 env2) [] 0)
    as (g & tr & Hrun & H).
  - lra.
  - lra.
  - apply Forall_replicate. split; [reflexivity|]. split; [reflexivity|].
    intros n. simpl. lra.
  - exists g, tr. split; [exact Hrun|]. intros p Hp. exact (proj1 (H p Hp)).
Defined.

(** ** Timers count down *)

(** A pickup of type [t] by the ball with id [i] and team [tm]. *)
Definition pickedUp (evs : list Event) (i : nat) (tm : Team) (t : PowerUpType) : Prop :=
  exists p, EvPickup i tm p ∈ evs /\ pu_type p = Some t.

(** A "freeze" picked up by a ball that is not of team [tm]. *)
Definition frozenByEnemy (evs : list Event) (tm : Team) : Prop :=
  exists i t p, EvPickup i t p ∈ evs /\ pu_type p = Some Freeze /\ t <> tm.

Lemma pickedUp_log (evs evs' : list Event) (i : nat) (tm : Team) (t : PowerUpType) :
  pickedUp evs i tm t -> pickedUp (evs ++ evs') i tm t.
Proof. intros (p & Hp & Ht). exists p. split; [|done]. apply elem_of_app. by left. Qed.

Lemma frozenByEnemy_log (evs evs' : list Event) (tm : Team) :
  frozenByEnemy evs tm -> frozenByEnemy (evs ++ evs') tm.
Proof.
  intros (i & t & p & Hp & Ht). exists i, t, p. split; [|done]. apply elem_of_app. by left.
Qed.

(** X21: from one frame boundary to the next, the giant timer and the speed
    timer of a live ball go down by one while they are positive, whether the
    ball is frozen or not; the only other value they can take is
    POWERUP_DURATION = 180, and only when the ball itself picked up a
    power-up of that type in the frame. *)
Theorem giant_and_speed_timers_count_down (env : Env) (g g' : Game) (tr : list Event)
    (b b' : Ball) :
  gameLoop env g = Some (g', tr) -> wfBalls g ->
  b ∈ balls g -> b' ∈ balls g' -> ball_id b' = ball_id b ->
  (giant b' = (if 0 <? giant b then giant b - 1 else giant b) \/
   (giant b' = 180 /\ pickedUp tr (ball_id b) (team b) Giant)) /\
  (speed b' = (if 0 <? speed b then speed b - 1 else speed b) \/
   (speed b' = 180 /\ pickedUp tr (ball_id b) (team b) Speed)).
Proof.
  intros H [Hnd Hbound] Hb Hb' Hid.
  set (P := fun (_ : list Event) (o : Ball) =>
              ball_id o = ball_id b ->
              team o = team b /\ giant o = giant b /\ speed o = speed b).
  set (Q := fun (evs : list Event) (o : Ball) =>
              ball_id o = ball_id b ->
              team o = team b /\
              (giant o = (if 0 <? giant b then giant b - 1 else giant b) \/
               (giant o = 180 /\ pickedUp evs (ball_id b) (team b) Giant)) /\
              (speed o = (if 0 <? speed b then speed b - 1 else speed b) \/
               (speed o = 180 /\ pickedUp evs (ball_id b) (team b) Speed))).
  assert (Forall (Q tr) (balls g')) as HQ.
  { apply (frame_invariant_log env (ballIdCounter g) P Q) with (g := g);
      [unfold P, Q ..| exact H | done | unfold P].
    - done.
    - intros evs evs' o Ho Ei. destruct (Ho Ei) as (Ht & Hg & Hs).
      split; [done|]. split.
      + destruct Hg as [Hg|[Hg Hp]]; [by left|]. right. split; [done|by apply pickedUp_log].
      + destruct Hs as [Hs|[Hs Hp]]; [by left|]. right. split; [done|by apply pickedUp_log].
    - done.
    - done.
    - intros evs o Ho Hexp Ei.
      destruct (tick_fields o) as (E1 & E2 & _ & _ & _ & _ & _ & _ & _ & _ & -> & -> & _).
      rewrite E1 in Ei. rewrite E2. destruct (Ho Ei) as (-> & -> & ->).
      split; [done|]. split; by left.
    - intros evs o Ho _ Ei.
      destruct (move_fields env o) as (M1 & M2 & _).
      destruct (boundary_fields env (move env o)) as (B1 & B2 & _).
      destruct (boundary_more_fields env (move env o)) as (-> & -> & _).
      rewrite B1, M1 in Ei. rewrite B2, M2. by apply Ho.
    - intros evs p o Hev Hp Ho Ei. simpl in *. destruct (Ho Ei) as (Ht & _ & Hs).
      split; [done|]. split; [|done]. right. split; [done|].
      exists p. by rewrite <- Ei, <- Ht.
    - intros evs p o Hev Hp Ho Ei. simpl in *. destruct (Ho Ei) as (Ht & Hg & _).
      split; [done|]. split; [done|]. right. split; [done|].
      exists p. by rewrite <- Ei, <- Ht.
    - intros evs p o _ _ Ho Ei. revert Ei. unfold magnetEffect.
      case_decide; simpl; apply Ho.
    - intros evs p n o _ _ Hn _ Ei. simpl in Ei.
      pose proof (Forall_elem_of _ _ b Hbound Hb) as Hlt. simpl in Hlt. lia.
    - done.
    - rewrite Forall_forall. intros o Ho Ei. apply list_elem_of_In in Ho.
      by rewrite (same_id_same_ball (balls g) o b Hnd Ho Hb Ei). }
  by apply (Forall_elem_of _ _ b' HQ Hb').
Qed.

Lemma giant_and_speed_timers_count_down_witness :
  giant picker3 = (if 0 <? giant picker then giant picker - 1 else giant picker) \/
  (giant picker3 = 180 /\ pickedUp [EvPickup 0 Left p3] 0 Left Giant).
Proof.
  destruct (giant_and_speed_timers_count_down env3 g3 g3' [EvPickup 0 Left p3] picker picker3)
    as [Hg _].
  - apply frame3_eval.
  - apply wfBalls_g3.
  - by left.
  - by left.
  - reflexivity.
  - exact Hg.
Defined.

(** X22: no freeze without an enemy's pickup: from one frame boundary to the
    next the freeze timer of a live ball goes down by one while it is
    positive; the only other values it can take are 180 and 179, and only
    when a ball of the other team picked up a "freeze" in the frame.  A
    freeze never reaches the team of the ball that picked it up. *)
Theorem freeze_timer_rises_only_by_enemy_freeze (env : Env) (g g' : Game)
    (tr : list Event) (b b' : Ball) :
  gameLoop env g = Some (g', tr) -> wfBalls g ->
  b ∈ balls g -> b' ∈ balls g' -> ball_id b' = ball_id b ->
  frozen b' = (if 0 <? frozen b then frozen b - 1 else frozen b) \/
  ((frozen b' = 180 \/ frozen b' = 179) /\ frozenByEnemy tr (team b)).
Proof.
  intros H [Hnd Hbound] Hb Hb' Hid.
  set (P := fun (evs : list Event) (o : Ball) =>
              ball_id o = ball_id b ->
              team o = team b /\
              (frozen o = frozen b \/ (frozen o = 180 /\ frozenByEnemy evs (team b)))).
  set (Q := fun (evs : list Event) (o : Ball) =>
              ball_id o = ball_id b ->
              team o = team b /\
              (frozen o = (if 0 <? frozen b then frozen b - 1 else frozen b) \/
               ((frozen o = 180 \/ frozen o = 179) /\ frozenByEnemy evs (team b)))).
  assert (Forall (Q tr) (balls g')) as HQ.
  { apply (frame_invariant_log env (ballIdCounter g) P Q) with (g := g);
      [unfold P, Q ..| exact H | done | unfold P].
    - intros evs evs' o Ho Ei. destruct (Ho Ei) as (Ht & Hf). split; [done|].
      destruct Hf as [Hf|[Hf He]]; [by left|]. right. split; [done|].
      by apply frozenByEnemy_log.
    - intros evs evs' o Ho Ei. destruct (Ho Ei) as (Ht & Hf). split; [done|].
      destruct Hf as [Hf|[Hf He]]; [by left|]. right. split; [done|].
      by apply frozenByEnemy_log.
    - intros evs a p o Hev Hp Hne Ho Ei. simpl in *. destruct (Ho Ei) as (Ht & _).
      split; [done|]. right. split; [done|].
      exists (ball_id a), (team a), p. split_and!; try done. congruence.
    - intros evs a p o Hev Hp Hne Ho Ei. simpl in *. destruct (Ho Ei) as (Ht & _).
      split; [done|]. right. split; [by left|].
      exists (ball_id a), (team a), p. split_and!; try done. congruence.
    - intros evs o Ho Hexp Ei.
      destruct (tick_fields o) as (E1 & E2 & _ & _ & _ & _ & _ & _ & _ & -> & _).
      rewrite E1 in Ei. rewrite E2. destruct (Ho Ei) as (-> & [-> | [-> He]]).
      + split; [done|]. by left.
      + split; [done|]. right. split; [by right|done].
    - intros evs o Ho _ Ei.
      destruct (move_fields env o) as (M1 & M2 & _ & _ & _ & M6 & _).
      destruct (boundary_fields env (move env o)) as (B1 & B2 & _ & _ & _ & B6 & _).
      rewrite B1, M1 in Ei. rewrite B2, M2, B6, M6. by apply Ho.
    - intros evs p o _ _ Ho Ei. simpl in *. by apply Ho.
    - intros evs p o _ _ Ho Ei. simpl in *. by apply Ho.
    - intros evs p o _ _ Ho Ei. revert Ei. unfold magnetEffect.
      case_decide; simpl; apply Ho.
    - intros evs p n o _ _ Hn _ Ei. simpl in Ei.
      pose proof (Forall_elem_of _ _ b Hbound Hb) as Hlt. simpl in Hlt. lia.
    - intros evs angle o _ Ho Ei. simpl in *. by apply Ho.
    - rewrite Forall_forall. intros o Ho Ei. apply list_elem_of_In in Ho.
      rewrite (same_id_same_ball (balls g) o b Hnd Ho Hb Ei). split; [done|by left]. }
  by apply (Forall_elem_of _ _ b' HQ Hb').
Qed.

Lemma freeze_timer_rises_only_by_enemy_freeze_witness :
  frozen enemy' = (if 0 <? frozen enemy then frozen enemy - 1 else frozen enemy) \/
  ((frozen enemy' = 180 \/ frozen enemy' = 179) /\
   frozenByEnemy [EvPickup 0 Left p3] (team enemy)).
Proof.
  apply (freeze_timer_rises_only_by_enemy_freeze env3 g3 g3' [EvPickup 0 Left p3]
           enemy enemy').
  - apply frame3_eval.
  - apply wfBalls_g3.
  - right. by left.
  - right. by left.
  - reflexivity.
Defined.

(** ** Velocities *)

Lemma boundary_velocity (env : Env) (b : Ball) :
  Rabs (vx (boundary env b)) = Rabs (vx b) /\ Rabs (vy (boundary env b)) = Rabs (vy b).
Proof.
  unfold boundary. repeat case_decide; simpl; rewrite ?Rabs_Ropp, ?Rabs_Rabsolu; done.
Qed.

(** X4: only a magnet and a direction change turn a ball: from one frame
    boundary to the next, a live ball keeps the absolute values of both
    components of its velocity (a wall only sets a sign), unless the ball
    itself picked up a "magnet" or changed direction at random in the frame.
    The speed slider, the other power-ups and a freeze by the enemy leave
    the velocity alone. *)
Theorem velocity_changes_only_by_magnet_or_redirect (env : Env) (g g' : Game)
    (tr : list Event) (b b' : Ball) :
  gameLoop env g = Some (g', tr) -> wfBalls g ->
  b ∈ balls g -> b' ∈ balls g' -> ball_id b' = ball_id b ->
  (Rabs (vx b') = Rabs (vx b) /\ Rabs (vy b') = Rabs (vy b)) \/
  pickedUp tr (ball_id b) (team b) Magnet \/
  EvRedirect (ball_id b) ∈ tr.
Proof.
  intros H [Hnd Hbound] Hb Hb' Hid.
  set (P := fun (_ : list Event) (o : Ball) =>
              ball_id o = ball_id b ->
              team o = team b /\ Rabs (vx o) = Rabs (vx b) /\ Rabs (vy o) = Rabs (vy b)).
  set (Q := fun (evs : list Event) (o : Ball) =>
              ball_id o = ball_id b ->
              team o = team b /\
              ((Rabs (vx o) = Rabs (vx b) /\ Rabs (vy o) = Rabs (vy b)) \/
               pickedUp evs (ball_id b) (team b) Magnet \/
               EvRedirect (ball_id b) ∈ evs)).
  assert (Forall (Q tr) (balls g')) as HQ.
  { apply (frame_invariant_log env (ballIdCounter g) P Q) with (g := g);
      [unfold P, Q ..| exact H | done | unfold P].
    - done.
    - intros evs evs' o Ho Ei. destruct (Ho Ei) as (Ht & Hv). split; [done|].
      destruct Hv as [Hv|[Hv|Hv]]; [by left| |].
      + right. left. by apply pickedUp_log.
      + right. right. apply elem_of_app. by left.
    - intros evs a p o _ _ _ Ho Ei. simpl in *. by apply Ho.
    - intros evs a p o _ _ _ Ho Ei. simpl in *. by apply Ho.
    - intros evs o Ho Hexp Ei.
      destruct (tick_fields o) as (E1 & E2 & _ & _ & _ & _ & E7 & E8 & _).
      rewrite E1 in Ei. rewrite E2, E7, E8. destruct (Ho Ei) as (Ht & Hv).
      split; [done|]. by left.
    - intros evs o Ho _ Ei.
      destruct (move_fields env o) as (M1 & M2 & _).
      destruct (boundary_fields env (move env o)) as (B1 & B2 & _).
      destruct (boundary_velocity env (move env o)) as [V1 V2].
      rewrite B1, M1 in Ei. rewrite B2, M2, V1, V2. by apply Ho.
    - intros evs p o _ _ Ho Ei. simpl in *. by apply Ho.
    - intros evs p o _ _ Ho Ei. simpl in *. by apply Ho.
    - intros evs p o Hev Hp Ho Ei.
      assert (ball_id (magnetEffect env o) = ball_id o /\
              team (magnetEffect env o) = team o) as [E1 E2]
        by (unfold magnetEffect; case_decide; done).
      rewrite E1 in Ei. rewrite E2. destruct (Ho Ei) as (Ht & _).
      split; [done|]. right. left. exists p. by rewrite <- Ei, <- Ht.
    - intros evs p n o _ _ Hn _ Ei. simpl in Ei.
      pose proof (Forall_elem_of _ _ b Hbound Hb) as Hlt. simpl in Hlt. lia.
    - intros evs angle o Hev Ho Ei. simpl in *. destruct (Ho Ei) as (Ht & _).
      split; [done|]. right. right. by rewrite <- Ei.
    - rewrite Forall_forall. intros o Ho Ei. apply list_elem_of_In in Ho.
      by rewrite (same_id_same_ball (balls g) o b Hnd Ho Hb Ei). }
  by apply (Forall_elem_of _ _ b' HQ Hb').
Qed.

Lemma velocity_changes_only_by_magnet_or_redirect_witness :
  (Rabs (vx picker3) = Rabs (vx picker) /\ Rabs (vy picker3) = Rabs (vy picker)) \/
  pickedUp [EvPickup 0 Left p3] 0 Left Magnet \/
  EvRedirect 0 ∈ [EvPickup 0 Left p3].
Proof.
  apply (velocity_changes_only_by_magnet_or_redirect env3 g3 g3' [EvPickup 0 Left p3]
           picker picker3).
  - apply frame3_eval.
  - apply wfBalls_g3.
  - by left.
  - by left.
  - reflexivity.
Defined.

(** ** Which power-ups a ball picks up *)

(** The ball during its collision loop, against the ball [b] that entered
    it, and what is marked for removal after the power-ups [done]. *)
Definition Reach (b : Ball) (done : list PowerUp) (st : Ball * Loop * list nat) : Prop :=
  x st.1.1 = x b /\ y st.1.1 = y b /\ baseRadius st.1.1 = baseRadius b /\
  (radius st.1.1 = radius b \/ radius st.1.1 = (baseRadius b * 2.5)%R) /\
  (forall p, p ∈ done -> touches b p = true -> pu_id p ∈ st.2) /\
  (forall i, i ∈ st.2 ->
     exists q, q ∈ done /\ pu_id q = i /\ (dist b q < baseRadius b * 2.5 + 14)%R).

Lemma pickupStep_reach (env : Env) (b : Ball) (done : list PowerUp)
    (st : Ball * Loop * list nat) (p : PowerUp) :
  (0 <= baseRadius b)%R ->
  radius b = baseRadius b \/ radius b = (baseRadius b * 2.5)%R ->
  Reach b done st -> Reach b (done ++ [p]) (pickupStep env st p).
Proof.
  intros Hb Hr. destruct st as [[b1 L1] tR]. unfold Reach. simpl.
  intros (Hx & Hy & Hbase & Hrad & Hin & Hout).
  assert (dist b1 p = dist b p) as Hd by (unfold dist; by rewrite Hx, Hy).
  assert (radius b <= radius b1 <= baseRadius b * 2.5)%R as Hrange.
  { destruct Hr as [Hr|Hr], Hrad as [Hrad|Hrad]; rewrite ?Hrad, ?Hr; lra. }
  destruct (touches b1 p) eqn:Ht.
  - pose proof (applyPowerUp_rel env p (EvPickup (ball_id b1) (team b1) p) b1 b1 L1 L1
                  (PickRel_refl b1 L1)) as [Hk _ _ _ _ _ _].
    assert (radius (applyPowerUp env p b1 (log (EvPickup (ball_id b1) (team b1) p) L1)).1
            = radius b1 \/
            radius (applyPowerUp env p b1 (log (EvPickup (ball_id b1) (team b1) p) L1)).1
            = (baseRadius b1 * 2.5)%R) as Hrad'.
    { unfold applyPowerUp. destruct (pu_type p) as [[| | | |]|]; simpl; auto.
      unfold magnetEffect. case_decide; simpl; auto. }
    destruct (applyPowerUp env p b1 _) as [b2 L2]. simpl in *.
    destruct Hk as (_ & K2 & K3 & _ & K5 & _).
    split_and!; try congruence.
    + destruct Hrad' as [->| ->]; [done|]. right. by rewrite Hbase.
    + intros q Hq Hqt. apply elem_of_app in Hq as [Hq|Hq].
      * apply elem_of_app. left. by apply Hin.
      * apply list_elem_of_singleton in Hq as ->. apply elem_of_app. right. by left.
    + intros i Hi. apply elem_of_app in Hi as [Hi|Hi].
      * destruct (Hout i Hi) as (q & Hq & Hqi & Hqd). exists q.
        split_and!; try done. apply elem_of_app. by left.
      * apply list_elem_of_singleton in Hi as ->. exists p. split_and!; try done.
        { apply elem_of_app. right. by left. }
        unfold touches in Ht. apply bool_decide_eq_true in Ht. rewrite Hd in Ht. lra.
  - split_and!; try done.
    + intros q Hq Hqt. apply elem_of_app in Hq as [Hq|Hq]; [by apply Hin|].
      apply list_elem_of_singleton in Hq as ->. exfalso.
      unfold touches in *. apply bool_decide_eq_true in Hqt.
      apply bool_decide_eq_false in Ht. apply Ht. rewrite Hd. lra.
    + intros i Hi. destruct (Hout i Hi) as (q & Hq & Hqi & Hqd). exists q.
      split_and!; try done. apply elem_of_app. by left.
Qed.

(** X23: the collision loop takes every power-up in reach: for a ball
    whose radius is its base radius or 2.5 x that, every active power-up
    closer to the centre than radius + 14 is consumed and gone from the
    registry afterwards; nothing further away than 2.5 x base radius + 14 is
    consumed (a "giant" picked up on the way widens the reach for the
    power-ups visited after it); and what stays in the registry was there
    before and is out of the reach the ball had when the loop started. *)
Theorem pickup_takes_every_powerup_in_reach (env : Env) (b : Ball) (L : Loop) :
  (0 <= baseRadius b)%R ->
  radius b = baseRadius b \/ radius b = (baseRadius b * 2.5)%R ->
  let '(b', L', toRemove) := pickup env b L in
  (forall p, p ∈ registry L -> touches b p = true ->
     pu_id p ∈ toRemove /\ p ∉ registry L') /\
  (forall i, i ∈ toRemove ->
     exists q, q ∈ registry L /\ pu_id q = i /\ (dist b q < baseRadius b * 2.5 + 14)%R) /\
  (forall p, p ∈ registry L' -> p ∈ registry L /\ touches b p = false).
Proof.
  intros Hb Hr. unfold pickup.
  pose proof (foldl_invariant (pickupStep env) (Reach b) (registry L) (b, L, [])) as H.
  pose proof (foldl_invariant (pickupStep env)
                (fun _ st => PickRel b L st.1.1 st.1.2) (registry L) (b, L, [])) as HR.
  destruct (foldl (pickupStep env) (b, L, []) (registry L)) as [[b' L'] tR].
  destruct H as (_ & _ & _ & _ & Hin & Hout).
  { unfold Reach. simpl. split_and!; auto.
    - intros p Hp. by apply elem_of_nil in Hp.
    - intros i Hi. by apply elem_of_nil in Hi. }
  { intros done p st. by apply pickupStep_reach. }
  destruct HR as [_ _ _ Hreg _ _ _].
  { apply PickRel_refl. }
  { intros _ a s1. apply pickupStep_rel. }
  simpl in *. rewrite Hreg. split_and!.
  - intros p Hp Ht. split; [by apply Hin|].
    intros Hp'. apply list_elem_of_filter in Hp' as [Hno _]. apply Hno. by apply Hin.
  - done.
  - intros p Hp. apply list_elem_of_filter in Hp as [Hno Hp]. split; [done|].
    destruct (touches b p) eqn:Ht; [|done]. exfalso. apply Hno. by apply Hin.
Qed.

Lemma pickup_takes_every_powerup_in_reach_witness :
  let '(b', L', toRemove) := pickup env3 picker3 L3_0 in
  (forall p, p ∈ registry L3_0 -> touches picker3 p = true ->
     pu_id p ∈ toRemove /\ p ∉ registry L') /\
  (forall i, i ∈ toRemove ->
     exists q, q ∈ registry L3_0 /\ pu_id q = i /\
               (dist picker3 q < baseRadius picker3 * 2.5 + 14)%R) /\
  (forall p, p ∈ registry L' -> p ∈ registry L3_0 /\ touches picker3 p = false).
Proof.
  apply (pickup_takes_every_powerup_in_reach env3 picker3 L3_0).
  - simpl. lra.
  - left. reflexivity.
Defined.

(** ** Which balls act *)

(** A ball that may act in a frame: live and with a freeze timer of at
    most 1 when the frame starts. *)
Definition mayAct (bs : list Ball) (i : nat) : Prop :=
  exists b, b ∈ bs /\ ball_id b = i /\ frozen b <= 1 /\ expires b = false.

Record Acts (objs0 : list Ball) (k : nat) (L : Loop) : Prop := {
  ac_objs : forall j o, objs L !! j = Some o -> (k <= j)%nat ->
              exists o0, objs0 !! j = Some o0 /\ frz o0 o;
  ac_log : forall e i, e ∈ trace L -> actor e = Some i -> mayAct objs0 i
}.

Lemma processBall_acts (env : Env) (tilesRef : Grid) (objs0 : list Ball) (k : nat)
    (L L' : Loop) :
  Acts objs0 k L -> processBall env tilesRef L k = Some L' -> Acts objs0 (S k) L'.
Proof.
  intros [Hobjs Hlog] H.
  destruct (objs L !! k) as [b0|] eqn:Hk.
  2:{ unfold processBall in H. by rewrite Hk in H. }
  rewrite (processBall_unfold env tilesRef L k b0 Hk) in H.
  destruct (Hobjs k b0 Hk) as (o0 & Ho0 & Hfrz); [lia|].
  assert (forall (M : Loop) (b : Ball),
            (forall j o, objs M !! j = Some o -> (k <= j)%nat ->
               exists o0, objs0 !! j = Some o0 /\ frz o0 o) ->
            forall j o, <[k := b]> (objs M) !! j = Some o -> (S k <= j)%nat ->
               exists o0, objs0 !! j = Some o0 /\ frz o0 o) as Hins.
  { intros M b HM j o Hj Hle. rewrite list_lookup_insert_ne in Hj by lia.
    apply (HM j o Hj). lia. }
  destruct (expires b0) eqn:Hexp.
  { simplify_eq. split; simpl; [by apply Hins | done]. }
  destruct (0 <? frozen (tick b0)) eqn:Hfz.
  { simplify_eq. split; simpl; [by apply Hins | done]. }
  assert (mayAct objs0 (ball_id b0)) as Hmay.
  { exists o0. apply Z.ltb_ge in Hfz.
    destruct (tick_fields b0) as (_ & _ & _ & _ & _ & _ & _ & _ & _ & Ef & _).
    rewrite Ef in Hfz. pose proof (frz_expires _ _ Hfrz) as He.
    destruct (frz_fields _ _ Hfrz) as (F1 & _ & _ & _ & _ & _ & _ & _ & _ & F10).
    unfold POWERUP_DURATION in F10.
    split_and!; [by eapply list_elem_of_lookup_2 | done | | congruence].
    destruct (0 <? frozen b0) eqn:E; [apply Z.ltb_lt in E|apply Z.ltb_ge in E];
      destruct F10 as [F|F]; lia. }
  set (b3 := boundary env (move env (tick b0))) in *.
  assert (ball_id b3 = ball_id b0) as Hid3.
  { destruct (tick_fields b0) as (T1 & _). destruct (move_fields env (tick b0)) as (M1 & _).
    destruct (boundary_fields env (move env (tick b0))) as (B1 & _). unfold b3. congruence. }
  pose proof (pickup_rel env b3 L) as Hrel.
  pose proof (pickup_log env b3 L) as (picked & _ & Htr & _).
  destruct (pickup env b3 L) as [[b4 L1] rm]. simpl in Htr.
  destruct Hrel as [[Hkeep Hfrz1 _ _ _ _ _] _]. simpl in Hfrz1.
  destruct (tilePhase env tilesRef b4 L1) as [[b5 L2]|] eqn:Ht; simpl in H; [|done].
  simplify_eq.
  pose proof (tilePhase_cases env tilesRef b4 b5 L1 L2 Ht) as (E1 & _).
  pose proof (tilePhase_actor env tilesRef b4 b5 L1 L2 Ht) as (tevs & Htr2 & Htevs).
  destruct Hkeep as (K1 & _).
  split; simpl.
  - apply Hins. rewrite E1. intros j o Hj Hle.
    destruct (Forall2_lookup_r _ _ _ _ _ Hfrz1 Hj) as (oL & HoL & Hf).
    destruct (Hobjs j oL HoL Hle) as (oj & Hoj & Hfj). exists oj. split; [done|].
    by eapply frz_trans.
  - intros e i He Ha. rewrite Htr2, Htr in He.
    apply elem_of_app in He as [He|He]; [apply elem_of_app in He as [He|He]|].
    + by apply (Hlog e i).
    + apply list_elem_of_fmap in He as (p & -> & _). simpl in Ha. simplify_eq.
      by rewrite Hid3.
    + pose proof (Forall_elem_of _ _ e Htevs He) as Hact. simpl in Hact.
      rewrite Hact in Ha. simplify_eq. by rewrite K1, Hid3.
Qed.

(** X24: frozen balls do nothing: every pickup, tile conversion and
    direction change of a frame is the act of a ball that was live when the
    frame started, with a freeze timer of at most 1 then (the timer is
    decremented before it is tested) and not in its last frame as a
    clone. *)
Theorem only_unfrozen_live_balls_act (env : Env) (g g' : Game) (tr : list Event)
    (e : Event) (i : nat) :
  gameLoop env g = Some (g', tr) -> e ∈ tr -> actor e = Some i ->
  exists b, b ∈ balls g /\ ball_id b = i /\ frozen b <= 1 /\ expires b = false.
Proof.
  intros H He Ha. unfold gameLoop in H.
  set (L0 := mkLoop (balls g) [] _ (tiles g) false (ballIdCounter g) _ _) in H.
  destruct (forM (processBall env (tiles g)) L0 (seq 0 (length (balls g))))
    as [L|] eqn:HL; simpl in H; [|done].
  destruct (mapM (deref (objs L)) (newBalls L)) as [bs|] eqn:Hbs; simpl in H; [|done].
  destruct (countTiles _) as [counts|]; simpl in H; [|done]. simplify_eq.
  assert (Acts (balls g) (length (balls g)) L) as [_ Hlog].
  { apply (forM_seq_preserves (processBall env (tiles g)) (Acts (balls g))
             (length (balls g)) L0 L); [| |exact HL].
    - intros k L1 L2 _. apply processBall_acts.
    - split; simpl.
      + intros j o Hj _. exists o. split; [done|]. apply frz_refl.
      + intros e' i' He' Ha'. destruct (spawnDue _ _).
        * apply list_elem_of_singleton in He' as ->. done.
        * by apply elem_of_nil in He'. }
  by apply (Hlog e i).
Qed.

Lemma only_unfrozen_live_balls_act_witness :
  exists b, b ∈ balls g3 /\ ball_id b = 0%nat /\ frozen b <= 1 /\ expires b = false.
Proof.
  apply (only_unfrozen_live_balls_act env3 g3 g3' [EvPickup 0 Left p3]
           (EvPickup 0 Left p3) 0).
  - apply frame3_eval.
  - by left.
  - reflexivity.
Defined.

(** ** How many balls there can be *)

Lemma run_app_inv (e1 e2 : list Env) (g g' : Game) (tr : list Event) :
  run (e1 ++ e2) g = Some (g', tr) ->
  exists g1 tr1 tr2, run e1 g = Some (g1, tr1) /\ run e2 g1 = Some (g', tr2) /\
                     tr = tr1 ++ tr2.
Proof.
  revert g tr. induction e1 as [|env e1 IH]; intros g tr H.
  - exists g, [], tr. by split_and!.
  - change ((env :: e1) ++ e2) with (env :: (e1 ++ e2)) in H.
    apply run_cons_inv in H as (ga & tra & trb & Ha & Hb & ->).
    destruct (IH ga trb Hb) as (g1 & tr1 & tr2 & H1 & H2 & ->).
    exists g1, (tra ++ tr1), tr2. split_and!; [by eapply run_cons | done |].
    by rewrite app_assoc.
Qed.

(** Every pickup takes a power-up that was active or was spawned. *)
Lemma run_pickups_bound (envs : list Env) (g g' : Game) (tr : list Event) :
  gridShape (tiles g) -> run envs g = Some (g', tr) ->
  (length (pickups tr) + length (powerUps g') <= length (powerUps g) + length (spawns tr))%nat.
Proof.
  revert g tr. induction envs as [|env envs IH]; intros g tr Hg Hrun.
  - simpl in Hrun. simplify_eq. simpl. lia.
  - apply run_cons_inv in Hrun as (g1 & tr1 & tr2 & H1 & H2 & ->).
    destruct (frame_grid env g g1 tr1 Hg H1) as (Hg1 & Hfc & _).
    destruct (frame_registry env g g1 tr1 Hg H1) as (evs & _ & _ & _ & Hsub & _).
    destruct (frame_spawns env g g1 tr1 Hg H1) as (Hsp & _ & _).
    specialize (IH g1 tr2 Hg1 H2).
    apply submseteq_length in Hsub. rewrite length_app, length_fmap in Hsub.
    assert (length (frameRegistry env g) = length (powerUps g) + length (spawns tr1))%nat
      as Hreg.
    { unfold frameRegistry. rewrite Hsp, Hfc.
      destruct (spawnDue (frameCount g + 1) (powerUps g)); rewrite ?length_app; simpl; lia. }
    rewrite pickups_app, spawns_app, !length_app. lia.
Qed.

Lemma splitPicks_le_pickups (tr : list Event) : (splitPicks tr <= length (pickups tr))%nat.
Proof.
  unfold splitPicks, splitsIn.
  etrans; [apply length_filter|]. by rewrite length_fmap.
Qed.

(** Power-ups are spawned on multiples of 300 only. *)
Lemma run_spawn_count (envs : list Env) (g g' : Game) (tr : list Event) :
  gridShape (tiles g) -> run envs g = Some (g', tr) -> 0 <= frameCount g ->
  Z.of_nat (length (spawns tr))
  <= (frameCount g + Z.of_nat (length envs)) / 300 - frameCount g / 300.
Proof.
  revert g tr. induction envs as [|env envs IH]; intros g tr Hg Hrun Hfc.
  - simpl in Hrun. simplify_eq. simpl. rewrite Z.add_0_r. lia.
  - apply run_cons_inv in Hrun as (g1 & tr1 & tr2 & H1 & H2 & ->).
    destruct (frame_grid env g g1 tr1 Hg H1) as (Hg1 & Hfc1 & _).
    destruct (frame_spawns env g g1 tr1 Hg H1) as (Hsp & _ & _).
    specialize (IH g1 tr2 Hg1 H2 ltac:(lia)).
    rewrite spawns_app, length_app, Hsp, Hfc1 in *.
    replace (frameCount g + Z.of_nat (length (env :: envs)))
      with (frameCount g + 1 + Z.of_nat (length envs)) by (simpl length; lia).
    assert (Z.of_nat (length (if spawnDue (frameCount g + 1) (powerUps g)
                              then [spawnPowerUp env (powerUpIdCounter g) 0] else []))
            <= (frameCount g + 1) / 300 - frameCount g / 300) as Hone.
    { unfold spawnDue, POWERUP_SPAWN_INTERVAL.
      destruct (Z.rem (frameCount g + 1) 300 =? 0) eqn:E; simpl.
      - apply Z.eqb_eq in E. rewrite Z.rem_mod_nonneg in E by lia.
        destruct (_ <? _)%nat; simpl; Z.div_mod_to_equations; lia.
      - Z.div_mod_to_equations; lia. }
    lia.
Qed.

(** Distinct ids drawn from two ranges. *)
Lemma ids_in_two_ranges (ids : list nat) (a c1 c2 : nat) :
  NoDup ids -> (c1 <= c2)%nat ->
  Forall (fun i => (i < a)%nat \/ (c1 <= i < c2)%nat) ids ->
  (length ids <= a + (c2 - c1))%nat.
Proof.
  intros Hnd Hc Hall.
  assert (ids ⊆+ seq 0 a ++ seq c1 (c2 - c1)) as Hsub.
  { apply NoDup_submseteq; [done|]. intros i Hi.
    pose proof (Forall_elem_of _ _ i Hall Hi) as Hr. simpl in Hr.
    rewrite elem_of_app, !elem_of_seq. lia. }
  apply submseteq_length in Hsub. by rewrite length_app, !length_seq in Hsub.
Qed.

(** The balls of a run started with [start] that are not clones made
    during the run. *)
Lemma run_window (envs : list Env) (g g' : Game) (tr : list Event) :
  gridShape (tiles g) -> wfBalls g -> run envs g = Some (g', tr) ->
  Forall timersOK (balls g) -> Forall originalOK (balls g) ->
  (balls g = [] \/ 360 <= Z.of_nat (length envs) \/
   Forall (fun b => isClone b = false) (balls g)) ->
  Forall (fun b => (ball_id b < 2)%nat \/
                   (ballIdCounter g <= ball_id b < ballIdCounter g')%nat) (balls g').
Proof.
  intros Hg Hwf Hrun Htimers Horig Hcase.
  pose proof (run_wf envs g g' tr Hg Hwf Hrun) as [_ Hbound'].
  destruct (run_log envs g g' tr Hg Hrun) as (Hctr & _).
  apply Forall_forall. intros b' Hb'. apply list_elem_of_In in Hb'.
  pose proof (Forall_elem_of _ _ b' Hbound' Hb') as Hlt. simpl in Hlt.
  destruct (decide (ball_id b' < ballIdCounter g)%nat) as [Hold|Hnew]; [|right; lia].
  left.
  destruct (run_origin envs g g' tr b' Hg Hrun Hb' Hold) as (b & Hb & Eid & _ & _ & Ecl).
  destruct (isClone b) eqn:Hclone.
  - exfalso. destruct Hcase as [Hnil|[Hlong|Hnone]].
    + rewrite Hnil in Hb. by apply elem_of_nil in Hb.
    + pose proof (Forall_elem_of _ _ b Htimers Hb) as (_ & _ & _ & Hce).
      rewrite Hclone in Hce. unfold POWERUP_DURATION in Hce.
      destruct (clone_countdown envs g b (cloneExpires b) Hg Hwf Hb Hclone eq_refl)
        as (g'' & tr'' & Hrun'' & _ & Hgone); [lia|].
      rewrite Hrun in Hrun''. simplify_eq.
      apply (Hgone ltac:(lia) b' Hb'). done.
    + pose proof (Forall_elem_of _ _ b Hnone Hb) as Hn. simpl in Hn. congruence.
  - rewrite Eid. by apply (Forall_elem_of _ _ b Horig Hb).
Qed.

(** X25: there are never more than seven balls: at every frame boundary of
    a game, whatever the inputs of the frames, the live set holds at most
    seven balls.  (A clone lives 360 frames, every clone comes from a
    pickup, a pickup consumes a power-up, at most three power-ups are active
    at a time and at most two are spawned in any 360 consecutive frames.) *)
Theorem never_more_than_seven_balls (w h : R) (rnd : nat -> R) (envs : list Env) :
  exists g tr,
    run envs (mountGame w h rnd) = Some (g, tr) /\
    (length (balls g) <= 7)%nat.
Proof.
  destruct (mountGame_run w h rnd envs) as (g & tr & Hrun & Hg & Hfc).
  exists g, tr. split; [done|].
  set (g0 := mountGame w h rnd) in *.
  assert (gridShape (tiles g0)) as Hg0 by apply createInitialTiles_shape.
  assert (wfBalls g0) as Hwf0 by apply mountGame_wf.
  assert (Forall timersOK (balls g0)) as Ht0.
  { unfold timersOK, POWERUP_DURATION.
    constructor; [|constructor; [|constructor]]; simpl; lia. }
  assert (Forall originalOK (balls g0)) as Ho0.
  { constructor; [|constructor; [|constructor]]; intros _; simpl; lia. }
  (* the last 360 frames *)
  set (n := length envs).
  rewrite <- (take_drop (n - 360) envs) in Hrun.
  apply run_app_inv in Hrun as (g1 & tr1 & tr2 & H1 & H2 & ->).
  set (e1 := take (n - 360) envs) in *. set (e2 := drop (n - 360) envs) in *.
  assert (length e2 <= 360)%nat as Hlen2 by (unfold e2, n; rewrite length_drop; lia).
  destruct (run_total e1 g0 Hg0) as (g1' & tr1' & H1' & Hg1 & Hfc1).
  rewrite H1 in H1'. symmetry in H1'. simplify_eq.
  pose proof (run_wf e1 g0 g1 tr1 Hg0 Hwf0 H1) as Hwf1.
  pose proof (run_preserved anyEnv timersOK e1 g0 g1 tr1 timersOK_preserved
                (Forall_anyEnv e1) H1 Ht0) as Ht1.
  pose proof (run_preserved anyEnv originalOK e1 g0 g1 tr1 originalOK_preserved
                (Forall_anyEnv e1) H1 Ho0) as Ho1.
  pose proof (run_powerUps_bound e1 g0 g1 tr1 Hg0 H1 ltac:(simpl; lia)) as Hreg1.
  pose proof (run_wf e2 g1 g tr2 Hg1 Hwf1 H2) as [Hnd _].
  destruct (run_log e2 g1 g tr2 Hg1 H2) as (Hctr & _).
  pose proof (run_pickups_bound e2 g1 g tr2 Hg1 H2) as Hpick.
  pose proof (splitPicks_le_pickups tr2) as Hsplit.
  pose proof (run_spawn_count e2 g1 g tr2 Hg1 H2) as Hspawn.
  simpl in Hfc1. specialize (Hspawn ltac:(lia)).
  assert (Z.of_nat (length (spawns tr2)) <= 2) as Hsp2.
  { etrans; [exact Hspawn|].
    assert (0 <= frameCount g1) by lia.
    pose proof (Z.div_le_mono (frameCount g1 + Z.of_nat (length e2))
                  (frameCount g1 + 360) 300 ltac:(lia) ltac:(lia)).
    assert ((frameCount g1 + 360) / 300 <= frameCount g1 / 300 + 2); [|lia].
    replace (frameCount g1 + 360) with (frameCount g1 - 240 + 2 * 300) by lia.
    rewrite Z.div_add by lia.
    pose proof (Z.div_le_mono (frameCount g1 - 240) (frameCount g1) 300 ltac:(lia)
                  ltac:(lia)). lia. }
  assert (Forall (fun b => (ball_id b < 2)%nat \/
                           (ballIdCounter g1 <= ball_id b < ballIdCounter g)%nat) (balls g))
    as Hids.
  { apply (run_window e2 g1 g tr2 Hg1 Hwf1 H2 Ht1 Ho1).
    destruct (decide (360 <= n)%nat) as [Hn|Hn].
    - right. left. unfold e2. rewrite length_drop. fold n. lia.
    - right. right. assert (e1 = []) as He1.
      { unfold e1. replace (n - 360)%nat with 0%nat by lia. done. }
      rewrite He1 in H1. simpl in H1. simplify_eq.
      constructor; [|constructor; [|constructor]]; done. }
  pose proof (ids_in_two_ranges (ball_id <$> balls g) 2 (ballIdCounter g1) (ballIdCounter g)
                Hnd ltac:(lia)) as Hcount.
  rewrite length_fmap in Hcount.
  assert (length (balls g) <= 2 + (ballIdCounter g - ballIdCounter g1))%nat as Hle.
  { apply Hcount. by apply Forall_fmap. }
  lia.
Qed.
